(** * youth-wisdom-avatars: the two avatar generation scripts

    A shallow embedding of [generate-batch.js] (the catalog driver, module
    [Batch]) and of [regenerate-specific.js] (the targeted driver, module
    [Regenerate]), with the properties of their specification.

    The scripts are sequential: each effect (file system, network, clock,
    console, sleeping) is written as a step of a state and exception monad
    over an explicit [World]. *)

From stdpp Require Import gmap list fin_maps strings pretty.
From Stdlib Require Import ZArith Lia.
From Stdlib Require Ascii String.

Local Open Scope Z_scope.
Local Set Warnings "-register-all,-clear-no-such-hyp".

(** ** JavaScript strings

    A JS string is a sequence of UTF-16 code units: [length], the regular
    expression of [normalizeFilename] (which has no [u] flag) and
    [String.prototype.replace] all work on code units. *)

Abbreviation jsstring := (list N).

(** An ASCII literal of the source, as code units. *)
Definition lit (s : string) : jsstring :=
  Ascii.N_of_ascii <$> String.list_ascii_of_string s.

(** [String.prototype.toLowerCase] on the ASCII range: [A-Z] go to [a-z],
    every other ASCII code unit stays.  Outside ASCII the conversion is the
    Unicode one, which is a parameter of the model ([toLowerCase] below). *)
Definition ascii_lower (c : N) : N :=
  if ((65 <=? c) && (c <=? 90))%N then (c + 32)%N else c.

(** The character class [[a-z0-9]]. *)
Definition is_lower_alnum (c : N) : bool :=
  (((97 <=? c) && (c <=? 122)) || ((48 <=? c) && (c <=? 57)))%N.

(** [s.startsWith(p)] on code units. *)
Fixpoint starts_with (p s : jsstring) : bool :=
  match p, s with
  | [], _ => true
  | _ :: _, [] => false
  | a :: p', b :: s' => bool_decide (a = b) && starts_with p' s'
  end.

(** [s.includes(p)]. *)
Fixpoint includes (p s : jsstring) : bool :=
  starts_with p s ||
  match s with
  | [] => false
  | _ :: s' => includes p s'
  end.

(** [s.replace(pat, rep)] with a string pattern: only the first occurrence
    is replaced (the replacement text of the scripts has no [$]). *)
Fixpoint replace_first (pat rep s : jsstring) : jsstring :=
  if starts_with pat s then rep ++ drop (length pat) s
  else match s with
       | [] => []
       | c :: s' => c :: replace_first pat rep s'
       end.

(** [path.join(dir, name)] for a normalized directory and a single plain
    segment: one separator between them. *)
Definition path_join (dir name : jsstring) : jsstring :=
  match last dir with
  | Some 47%N => dir ++ name
  | _ => dir ++ lit "/" ++ name
  end.

(** [path.basename(p)]: what follows the last separator. *)
Fixpoint basename (p : jsstring) : jsstring :=
  match p with
  | [] => []
  | c :: p' => if bool_decide (47%N ∈ p') then basename p'
               else if bool_decide (c = 47%N) then p' else p
  end.

(** ** JavaScript values

    The values [JSON.parse] produces, and [undefined] for what property
    access yields on a missing field.  Objects keep their fields as an
    association list, the first binding of a key being the field.  Numbers
    are kept as integers: the scripts only test them for truthiness. *)

Inductive JsVal : Type :=
  | VUndef
  | VNull
  | VBool (b : bool)
  | VNum (z : Z)
  | VStr (s : jsstring)
  | VArr (elems : list JsVal)
  | VObj (fields : list (jsstring * JsVal)).

(** ToBoolean. *)
Definition truthy (v : JsVal) : bool :=
  match v with
  | VUndef | VNull => false
  | VBool b => b
  | VNum z => negb (z =? 0)
  | VStr s => negb (bool_decide (s = []))
  | VArr _ | VObj _ => true
  end.

Fixpoint assoc (k : jsstring) (fields : list (jsstring * JsVal)) : option JsVal :=
  match fields with
  | [] => None
  | (k', v) :: rest => if bool_decide (k = k') then Some v else assoc k rest
  end.

(** A number is an integer or [NaN] ([None]): what [parseInt] returns. *)
Definition number := option Z.

(** ** Outcomes and the monad of the scripts

    A step ends normally, throws an [Error] (of which the scripts only ever
    read [message]), or ends the process through [process.exit]. *)

Inductive Outcome (A : Type) : Type :=
  | Ok (a : A)
  | Throw (message : jsstring)
  | Exit (code : Z).
Arguments Ok {A} a.
Arguments Throw {A} message.
Arguments Exit {A} code.

Definition M (S A : Type) : Type := S → Outcome A * S.

Definition ret {S A} (a : A) : M S A := λ s, (Ok a, s).

Definition bind {S A B} (m : M S A) (k : A → M S B) : M S B :=
  λ s, match m s with
       | (Ok a, s') => k a s'
       | (Throw e, s') => (Throw e, s')
       | (Exit c, s') => (Exit c, s')
       end.

Definition throw {S A} (message : jsstring) : M S A := λ s, (Throw message, s).

(** [process.exit(code)]: no handler sees it. *)
Definition exit {S A} (code : Z) : M S A := λ s, (Exit code, s).

(** [try { body } catch (error) { handler(error.message) }]. *)
Definition try_catch {S A} (body : M S A) (handler : jsstring → M S A) : M S A :=
  λ s, match body s with
       | (Throw e, s') => handler e s'
       | r => r
       end.

Definition gets {S A} (f : S → A) : M S A := λ s, (Ok (f s), s).
Definition modify {S} (f : S → S) : M S unit := λ s, (Ok tt, f s).

Notation "'let!' x ':=' m 'in' k" := (bind m (λ x, k))
  (at level 10, x name, m at level 100, k at level 200,
   format "'[v' 'let!'  x  ':='  m  'in' '/' k ']'").
Notation "m '>>' k" := (bind m (λ _, k))
  (at level 100, k at level 200, right associativity,
   format "'[v' m  '>>' '/' k ']'").

(** [if (c) { m }]. *)
Definition when {S} (c : bool) (m : M S unit) : M S unit :=
  if c then m else ret tt.

Definition lift_sum {S A} (r : jsstring + A) : M S A :=
  match r with
  | inl message => throw message
  | inr a => ret a
  end.

(** ** Property access

    Only the names [candidates], [content], [parts], [inlineData] and [data]
    are read by the scripts, and no built-in prototype defines them: on a
    string, a number, a boolean or an array they are [undefined]; on
    [null] and [undefined] the access throws a [TypeError] (wording of V8,
    the engine of Node). *)

Definition type_error_read (what : string) (k : string) : jsstring :=
  lit "Cannot read properties of " ++ lit what ++ lit " (reading '" ++ lit k ++ lit "')".

(** [v.k] *)
Definition prop {S} (k : string) (v : JsVal) : M S JsVal :=
  match v with
  | VUndef => throw (type_error_read "undefined" k)
  | VNull => throw (type_error_read "null" k)
  | VObj fields => ret (default VUndef (assoc (lit k) fields))
  | _ => ret VUndef
  end.

(** [v?.k] *)
Definition opt_prop {S} (k : string) (v : JsVal) : M S JsVal :=
  match v with
  | VUndef | VNull => ret VUndef
  | _ => prop k v
  end.

(** [v?.[0]] *)
Definition opt_first (v : JsVal) : JsVal :=
  match v with
  | VArr (x :: _) => x
  | VStr (c :: _) => VStr [c]
  | VObj fields => default VUndef (assoc (lit "0") fields)
  | _ => VUndef
  end.

(** [parts.find(part => part.inlineData)] on an array. *)
Fixpoint find_inline {S} (parts : list JsVal) : M S JsVal :=
  match parts with
  | [] => ret VUndef
  | part :: rest =>
      let! inlineData := prop "inlineData" part in
      if truthy inlineData then ret part else find_inline rest
  end.

(** [obj[k] = v] on a plain object.  For the key [__proto__], unless it is
    an own property already (as after [JSON.parse]), the assignment reaches
    the setter of [Object.prototype]: it changes the prototype and creates no
    own property.  Every other key becomes (or stays) an own property. *)
Definition assign_key {V} (k : jsstring) (v : V) (o : gmap jsstring V) : gmap jsstring V :=
  if bool_decide (k = lit "__proto__") && negb (bool_decide (is_Some (o !! k)))
  then o else <[k := v]> o.

(** ** Numbers of the command line *)

Definition num_add (a b : number) : number :=
  match a, b with Some x, Some y => Some (x + y) | _, _ => None end.

(** [Math.min(a, b)] *)
Definition num_min (a b : number) : number :=
  match a, b with Some x, Some y => Some (Z.min x y) | _, _ => None end.

(** [a > 0] *)
Definition num_pos (a : number) : bool :=
  match a with Some x => 0 <? x | None => false end.

Definition of_nat (n : nat) : number := Some (Z.of_nat n).

(** The relative index of [Array.prototype.slice]: [NaN] is [0], a negative
    index counts from the end, and the result is clamped to [0..len]. *)
Definition relative_index (n : number) (len : nat) : nat :=
  match n with
  | None => 0%nat
  | Some z => if z <? 0 then Z.to_nat (Z.max (Z.of_nat len + z) 0)
              else Z.to_nat (Z.min z (Z.of_nat len))
  end.

(** [l.slice(from, to)] *)
Definition slice {A} (l : list A) (from to : number) : list A :=
  let k := relative_index from (length l) in
  let final := relative_index to (length l) in
  take (final - k) (drop k l).

(** ** The data model *)

(** The instant of a [new Date()]; [toISOString] is a rendering of it. *)
Definition Timestamp := N.

(** A manifest record: [{ filename, generated_at, regenerated }], the last
    field being absent ([false]) in what the catalog driver writes. *)
Record AvatarRecord := {
  filename : jsstring;
  generated_at : Timestamp;
  regenerated : bool }.

(** The manifest document.  A manifest file that parses is taken to have
    this shape, which is the shape both scripts write. *)
Record Manifest := {
  manifest_generated_at : option Timestamp;
  updated_at : option Timestamp;
  total_avatars : Z;
  avatars : gmap jsstring AvatarRecord }.

(** The lines of the run logs and of the console.  Each constructor stands
    for one template string of the scripts and keeps the values the template
    interpolates; the text around them (and the emoji) is fixed by the
    constructor. *)
Inductive Msg : Type :=
  | MBatchStarted                        (* === Batch Avatar Generation Started === *)
  | MTotalAuthors (n : nat)              (* Total authors: n *)
  | MStartIndex (n : number)             (* Start index: n *)
  | MLimit (n : number)                  (* Limit: n || 'all' *)
  | MDelay (n : number)                  (* Delay: n ms *)
  | MProcessing (count : nat) (from to : number)   (* Processing count authors (from to to) *)
  | MSkip (position : number) (total : nat) (author : jsstring)
  | MGenerating (position : number) (total : nat) (author : jsstring)
  | MRegenerating (position : number) (total : nat) (author : jsstring)
  | MSuccess (position : number) (total : nat) (author file : jsstring)
  | MError (position : number) (total : nat) (author message : jsstring)
  | MBackedUp (file : jsstring)          (* Backed up old file to: file *)
  | MWaiting                             (* Waiting 1 second before next request... *)
  | MComplete                            (* === Generation Complete === *)
  | MSuccessCount (n : nat)
  | MSkipped (n : nat)
  | MErrors (n : nat)
  | MTotalInManifest (n : Z)
  | MErrorsHeader                        (* Errors: *)
  | MErrorItem (author message : jsstring)
  | MCost (calls : nat)                  (* Estimated cost: ... (calls API calls @ $0.01 each) *)
  | MAllDone                             (* All done! *)
  | MRegenStarted                        (* === Regenerating Specific Avatars === *)
  | MAuthorsToRegenerate (n : nat)
  | MNumbered (position : nat) (author : jsstring)
  | MBlank
  | MRegenComplete                       (* === Regeneration Complete === *)
  | MDone                                (* Done! You can now upload these avatars to the CDN. *)
  | MNextSteps
  | MStep1 (dir : jsstring)
  | MStep2
  | MStep3.

Inductive ConsoleLine : Type :=
  | ConsoleLog (stamp : option Timestamp) (message : Msg)
  | ConsoleError (text : jsstring).

(** ** The network *)

Record Request := {
  req_api_key : jsstring;      (* header x-goog-api-key *)
  req_prompt : jsstring }.     (* contents[0].parts[0].text *)

(** A response: [ok] is derived from [status] as [fetch] defines it;
    [json] is what [response.json()] resolves to, or the message of the
    error it rejects with. *)
Record Response := {
  status : N;
  text : jsstring;
  json : jsstring + JsVal }.

Definition ok (r : Response) : bool := ((200 <=? status r) && (status r <=? 299))%N.

Inductive FetchResult : Type :=
  | NetworkError (message : jsstring)
  | Responded (r : Response).

(** ** The platform: what the scripts get from Node and from their
    environment, fixed for a run. *)

(** Where a failing write fails.  [fs.writeFileSync] opens the file with
    flag ['w'], which creates or truncates it, then writes the data, then
    closes the file.  When the open fails ([EACCES], [EISDIR], ...) the file
    is as it was; when a write fails ([ENOSPC], [EIO], ...) the file holds
    the part of the data written until then, possibly nothing; when the
    close fails it holds all of the data. *)
Inductive FailurePoint : Type :=
  | AtOpen
  | AtWrite (written : nat)
  | AtClose.

Record Platform := {
  dirname : jsstring;                           (* __dirname *)
  GEMINI_API_KEY : option jsstring;             (* process.env.GEMINI_API_KEY *)
  toLowerCase : jsstring → jsstring;            (* String.prototype.toLowerCase *)
  Buffer_from_base64 : JsVal → jsstring + list N;   (* Buffer.from(v, 'base64'), or the TypeError *)
  Date_now : nat → Timestamp;                   (* the n-th reading of the clock *)
  fetch : nat → Request → FetchResult;          (* the answer to the n-th request *)
  fs_fault : jsstring → option jsstring;        (* the error of a write to this path, if it fails *)
  fs_point : jsstring → FailurePoint;           (* where a failing write to this path fails *)
  JSON_cut : Manifest → nat → jsstring }.       (* the SyntaxError of JSON.parse on the first n
                                                   characters of JSON.stringify(m, null, 2) *)

(** ** The world

    The files the scripts touch, by kind.  The catalog, the manifest and the
    logs have fixed names ending in [.json] and [.log]; every path the
    persister reads or writes ends in [.png]; so the image files are a map of
    their own, keyed by full path.  Directories are not represented. *)

Record World := {
  images : gmap jsstring (list N);
  authors_json : option (jsstring + list jsstring);   (* authors.json: parse error, or [authors] *)
  manifest_json : option (jsstring + Manifest);       (* manifest.json *)
  logs : gmap jsstring (list (Timestamp * Msg));      (* the log files *)
  requests : list Request;                            (* requests sent so far *)
  ticks : nat;                                        (* clock readings so far *)
  console : list ConsoleLine;
  sleeps : list number }.                             (* delays waited so far *)

Definition set_images (f : gmap jsstring (list N) → gmap jsstring (list N)) (w : World) : World :=
  {| images := f (images w); authors_json := authors_json w;
     manifest_json := manifest_json w; logs := logs w; requests := requests w;
     ticks := ticks w; console := console w; sleeps := sleeps w |}.

Definition set_manifest_json (v : option (jsstring + Manifest)) (w : World) : World :=
  {| images := images w; authors_json := authors_json w;
     manifest_json := v; logs := logs w; requests := requests w;
     ticks := ticks w; console := console w; sleeps := sleeps w |}.

Definition set_logs (f : gmap jsstring (list (Timestamp * Msg)) → gmap jsstring (list (Timestamp * Msg)))
    (w : World) : World :=
  {| images := images w; authors_json := authors_json w;
     manifest_json := manifest_json w; logs := f (logs w); requests := requests w;
     ticks := ticks w; console := console w; sleeps := sleeps w |}.

Definition set_requests (f : list Request → list Request) (w : World) : World :=
  {| images := images w; authors_json := authors_json w;
     manifest_json := manifest_json w; logs := logs w; requests := f (requests w);
     ticks := ticks w; console := console w; sleeps := sleeps w |}.

Definition set_ticks (f : nat → nat) (w : World) : World :=
  {| images := images w; authors_json := authors_json w;
     manifest_json := manifest_json w; logs := logs w; requests := requests w;
     ticks := f (ticks w); console := console w; sleeps := sleeps w |}.

Definition set_console (f : list ConsoleLine → list ConsoleLine) (w : World) : World :=
  {| images := images w; authors_json := authors_json w;
     manifest_json := manifest_json w; logs := logs w; requests := requests w;
     ticks := ticks w; console := f (console w); sleeps := sleeps w |}.

Definition set_sleeps (f : list number → list number) (w : World) : World :=
  {| images := images w; authors_json := authors_json w;
     manifest_json := manifest_json w; logs := logs w; requests := requests w;
     ticks := ticks w; console := console w; sleeps := f (sleeps w) |}.

(** The lines of one log file. *)
Definition log_lines (file : jsstring) (w : World) : list (Timestamp * Msg) :=
  default [] (logs w !! file).

(** ** Effects *)

Section Effects.
Context (p : Platform).

(** [new Date().toISOString()] *)
Definition now : M World Timestamp := λ w,
  (Ok (Date_now p (ticks w)), set_ticks S w).

Definition console_log (stamp : option Timestamp) (message : Msg) : M World unit :=
  modify (set_console (λ c, c ++ [ConsoleLog stamp message])).

Definition console_error (text : jsstring) : M World unit :=
  modify (set_console (λ c, c ++ [ConsoleError text])).

(** [fs.existsSync(path)] on an image path. *)
Definition existsSync (path : jsstring) : M World bool :=
  gets (λ w, bool_decide (is_Some (images w !! path))).

(** [fs.writeFileSync(path, buffer)] on an image path.  A write that
    fails after the open leaves a file behind: the first bytes of the
    buffer, or all of them. *)
Definition writeFileSync (path : jsstring) (buffer : list N) : M World unit :=
  match fs_fault p path with
  | Some message =>
      match fs_point p path with
      | AtOpen => throw message
      | AtWrite written =>
          modify (set_images <[path := take written buffer]>) >> throw message
      | AtClose => modify (set_images <[path := buffer]>) >> throw message
      end
  | None => modify (set_images <[path := buffer]>)
  end.

Definition enoent (path : jsstring) : jsstring :=
  lit "ENOENT: no such file or directory, open '" ++ path ++ lit "'".

(** [fs.copyFileSync(src, dest)] between image paths.  When the copy
    fails after the destination has been opened for writing, Node removes
    the destination. *)
Definition copyFileSync (src dest : jsstring) : M World unit :=
  let! found := gets (λ w, images w !! src) in
  match found with
  | None => throw (enoent src)
  | Some content =>
      match fs_fault p dest with
      | Some message =>
          match fs_point p dest with
          | AtOpen => throw message
          | AtWrite _ | AtClose => modify (set_images (delete dest)) >> throw message
          end
      | None => modify (set_images <[dest := content]>)
      end
  end.

(** [fs.appendFileSync(file, line + '\n')] on a log file.  The logs are
    kept line by line: a line that could not be appended whole is not in
    them. *)
Definition appendFileSync (file : jsstring) (line : Timestamp * Msg) : M World unit :=
  match fs_fault p file with
  | Some message => throw message
  | None => modify (λ w, set_logs <[file := log_lines file w ++ [line]]> w)
  end.

(** [log(message)]: a timestamped line appended to [LOG_FILE], mirrored on
    the console ([stamped]: with its timestamp, as the catalog driver does;
    without, as the targeted driver does). *)
Definition log_to (LOG_FILE : jsstring) (stamped : bool) (message : Msg) : M World unit :=
  let! timestamp := now in
  console_log (if stamped then Some timestamp else None) message >>
  appendFileSync LOG_FILE (timestamp, message).

(** [sleep(ms)] *)
Definition sleep (ms : number) : M World unit :=
  modify (set_sleeps (λ l, l ++ [ms])).

(** [await fetch(IMAGEN_API_URL, { method: 'POST', headers, body })] *)
Definition do_fetch (prompt : jsstring) : M World Response := λ w,
  let request := {| req_api_key := default (lit "undefined") (GEMINI_API_KEY p);
                    req_prompt := prompt |} in
  let w' := set_requests (λ l, l ++ [request]) w in
  match fetch p (length (requests w)) request with
  | NetworkError message => (Throw message, w')
  | Responded r => (Ok r, w')
  end.

(** [generateAvatar(authorName)], for the prompt of either script. *)
Definition generateAvatar_with (prompt : jsstring) : M World JsVal :=
  try_catch
    (let! response := do_fetch prompt in
     when (negb (ok response))
       (throw (lit "API error: " ++ lit (pretty (status response)) ++ lit " - "
               ++ text response)) >>
     let! data := lift_sum (json response) in
     let! candidates := prop "candidates" data in
     let! content := opt_prop "content" (opt_first candidates) in
     let! parts := opt_prop "parts" content in
     when (negb (truthy parts)) (throw (lit "No parts in response")) >>
     let! imagePart :=
       match parts with
       | VArr elems => find_inline elems
       | _ => throw (lit "parts.find is not a function")
       end in
     let! missing :=
       if negb (truthy imagePart) then ret true
       else let! inlineData := prop "inlineData" imagePart in
            if negb (truthy inlineData) then ret true
            else let! data := prop "data" inlineData in
                 ret (negb (truthy data)) in
     when missing (throw (lit "No image data in response")) >>
     let! inlineData := prop "inlineData" imagePart in
     prop "data" inlineData)
    (λ message, throw (lit "Generation failed: " ++ message)).

(** [!GEMINI_API_KEY]: the variable is unset, or set to the empty string. *)
Definition key_missing : bool :=
  match GEMINI_API_KEY p with
  | None | Some [] => true
  | Some _ => false
  end.

Definition MANIFEST_FILE : jsstring := path_join (dirname p) (lit "manifest.json").
Definition AVATARS_DIR : jsstring := path_join (dirname p) (lit "avatars").

(** [normalizeFilename(authorName)]:
    [authorName.toLowerCase().replace(/[^a-z0-9]/g, '-') + '.png'] *)
Definition normalizeFilename (authorName : jsstring) : jsstring :=
  ((λ c, if is_lower_alnum c then c else 45%N) <$> toLowerCase p authorName)
  ++ lit ".png".

(** [loadManifest()] *)
Definition loadManifest : M World Manifest :=
  let! file := gets manifest_json in
  match file with
  | Some parsed => lift_sum parsed
  | None =>
      let! generated := now in
      ret {| manifest_generated_at := Some generated; updated_at := None;
             total_avatars := 0; avatars := ∅ |}
  end.

(** [fs.writeFileSync(MANIFEST_FILE, JSON.stringify(manifest, null, 2))]:
    the whole document replaces the file.  A write that fails after the
    open leaves the start of the text, which does not parse (the text is one
    JSON object, closed by its last character), or, when only the close
    fails, the whole document. *)
Definition write_manifest (m : Manifest) : M World unit :=
  match fs_fault p MANIFEST_FILE with
  | Some message =>
      match fs_point p MANIFEST_FILE with
      | AtOpen => throw message
      | AtWrite written =>
          modify (set_manifest_json (Some (inl (JSON_cut p m written)))) >> throw message
      | AtClose => modify (set_manifest_json (Some (inr m))) >> throw message
      end
  | None => modify (set_manifest_json (Some (inr m)))
  end.
End Effects.

(** ** The driver's state

    The world, the one [manifest] object that [main] loads, mutates and hands
    to [saveManifest], and the counters of [main]
    ([successCount], [skipCount], [errorCount], [errors]), which are assigned
    inside the [try] block and so survive a throw. *)

Record Tally := {
  successCount : nat;
  skipCount : nat;
  errorCount : nat;
  errors : list (jsstring * jsstring) }.     (* { author, error } *)

Definition no_tally : Tally :=
  {| successCount := 0; skipCount := 0; errorCount := 0; errors := [] |}.

Record State := { world : World; manifest : Manifest; tally : Tally }.

(** A step on the world, inside [main]. *)
Definition inW {A} (m : M World A) : M State A := λ s,
  let (r, w) := m (world s) in
  (r, {| world := w; manifest := manifest s; tally := tally s |}).

Definition set_manifest (f : Manifest → Manifest) (s : State) : State :=
  {| world := world s; manifest := f (manifest s); tally := tally s |}.

Definition set_tally (f : Tally → Tally) (s : State) : State :=
  {| world := world s; manifest := manifest s; tally := f (tally s) |}.

(** [successCount++] *)
Definition succeeded (t : Tally) : Tally :=
  {| successCount := S (successCount t); skipCount := skipCount t;
     errorCount := errorCount t; errors := errors t |}.

Definition count_success : M State unit := modify (set_tally succeeded).

(** [skipCount++] *)
Definition skipped (t : Tally) : Tally :=
  {| successCount := successCount t; skipCount := S (skipCount t);
     errorCount := errorCount t; errors := errors t |}.

Definition count_skip : M State unit := modify (set_tally skipped).

(** [errorCount++; errors.push({ author, error: error.message })] *)
Definition failed (author message : jsstring) (t : Tally) : Tally :=
  {| successCount := successCount t; skipCount := skipCount t;
     errorCount := S (errorCount t);
     errors := errors t ++ [(author, message)] |}.

Definition count_error (author message : jsstring) : M State unit :=
  modify (set_tally (failed author message)).

(** [const manifest = loadManifest(); let successCount = 0; ...]: the rest
    of [main] runs with these variables in scope. *)
Definition with_locals {A} (m : Manifest) (rest : M State A) : M World A := λ w,
  let (r, s) := rest {| world := w; manifest := m; tally := no_tally |} in
  (r, world s).

Section Manifest.
Context (p : Platform).

(** [manifest.avatars[author] = record] *)
Definition put_avatar (author : jsstring) (record : AvatarRecord) (m : Manifest) : Manifest :=
  {| manifest_generated_at := manifest_generated_at m; updated_at := updated_at m;
     total_avatars := total_avatars m;
     avatars := assign_key author record (avatars m) |}.

Definition set_avatar (author : jsstring) (record : AvatarRecord) : M State unit :=
  modify (set_manifest (put_avatar author record)).

(** [saveManifest(manifest)] *)
Definition saveManifest : M State unit :=
  let! stamp := inW (now p) in
  modify (set_manifest (λ m,
    {| manifest_generated_at := manifest_generated_at m; updated_at := Some stamp;
       total_avatars := total_avatars m; avatars := avatars m |})) >>
  modify (set_manifest (λ m,
    {| manifest_generated_at := manifest_generated_at m; updated_at := updated_at m;
       total_avatars := Z.of_nat (size (avatars m)); avatars := avatars m |})) >>
  let! m := gets manifest in
  inW (write_manifest p m).
End Manifest.

(** ** generate-batch.js *)

Module Batch.
Section Script.
Context (p : Platform).

(** The command line, after [parseInt]: [--start], [--limit], [--delay],
    with their defaults [0], [0] (no limit) and [1000]. *)
Record Args := { startIndex : number; limit : number; delay : number }.

Definition AUTHORS_FILE : jsstring := path_join (dirname p) (lit "authors.json").
Definition LOG_FILE : jsstring := path_join (dirname p) (lit "generation.log").

Definition prompt (authorName : jsstring) : jsstring :=
  lit "Portrait of " ++ authorName ++
  lit ", detailed pen and ink sketch style, classical engraving technique, cross-hatching shading, pure white background, black and white only, historical figure portrait, Renaissance engraving style, highly detailed facial features, traditional illustration, etching art style, no color, monochrome, professional historical portrait, 1024x1024".

Definition generateAvatar (authorName : jsstring) : M World JsVal :=
  generateAvatar_with p (prompt authorName).

(** [saveAvatar(authorName, base64Data)]: the file is written
    unconditionally. *)
Definition saveAvatar (authorName : jsstring) (base64Data : JsVal) : M World jsstring :=
  let filename := normalizeFilename p authorName in
  let filepath := path_join (AVATARS_DIR p) filename in
  let! buffer := lift_sum (Buffer_from_base64 p base64Data) in
  writeFileSync p filepath buffer >>
  ret filename.

Definition log (message : Msg) : M World unit := log_to p LOG_FILE true message.

(** [JSON.parse(fs.readFileSync(AUTHORS_FILE, 'utf8')).authors] *)
Definition read_authors : M World (list jsstring) :=
  let! file := gets authors_json in
  match file with
  | None => throw (enoent AUTHORS_FILE)
  | Some parsed => lift_sum parsed
  end.

(** [limit > 0 ? Math.min(startIndex + limit, authors.length) : authors.length] *)
Definition endIndex (a : Args) (total : nat) : number :=
  if num_pos (limit a) then num_min (num_add (startIndex a) (limit a)) (of_nat total)
  else of_nat total.

(** [authors.slice(startIndex, endIndex)] *)
Definition authorsToProcess (a : Args) (authors : list jsstring) : list jsstring :=
  slice authors (startIndex a) (endIndex a (length authors)).

(** The [i]-th pass of the [for] loop of [main], on [author];
    [total] is [authors.length] and [len] is [authorsToProcess.length]. *)
Definition iteration (a : Args) (total len i : nat) (author : jsstring) : M State unit :=
  let position := num_add (num_add (startIndex a) (of_nat i)) (Some 1) in
  let filename := normalizeFilename p author in
  let filepath := path_join (AVATARS_DIR p) filename in
  let! present := inW (existsSync filepath) in
  if present then
    inW (log (MSkip position total author)) >>
    count_skip
  else
    try_catch
      (inW (log (MGenerating position total author)) >>
       let! base64Data := inW (generateAvatar author) in
       let! savedFilename := inW (saveAvatar author base64Data) in
       let! generated := inW (now p) in
       set_avatar author
         {| filename := savedFilename; generated_at := generated; regenerated := false |} >>
       saveManifest p >>
       inW (log (MSuccess position total author savedFilename)) >>
       count_success >>
       when (bool_decide (i < len - 1)%nat) (inW (sleep (delay a))))
      (λ message,
       inW (log (MError position total author message)) >>
       count_error author message).

Fixpoint loop (a : Args) (total len i : nat) (items : list jsstring) : M State unit :=
  match items with
  | [] => ret tt
  | author :: rest => iteration a total len i author >> loop a total len (S i) rest
  end.

(** [errors.forEach(({ author, error }) => log(...))] *)
Fixpoint log_errors (l : list (jsstring * jsstring)) : M World unit :=
  match l with
  | [] => ret tt
  | (author, error) :: rest => log (MErrorItem author error) >> log_errors rest
  end.

(** [main()].  The source returns nothing; the counters at the end of the
    loop, which it only logs, are returned here. *)
Definition main (a : Args) : M World Tally :=
  if key_missing p then
    console_error (lit "Error: GEMINI_API_KEY not found in .env file") >>
    exit 1
  else
    let! authors := read_authors in
    log MBatchStarted >>
    log (MTotalAuthors (length authors)) >>
    log (MStartIndex (startIndex a)) >>
    log (MLimit (limit a)) >>
    log (MDelay (delay a)) >>
    let! loaded := loadManifest p in
    with_locals loaded
      (let items := authorsToProcess a authors in
       inW (log (MProcessing (length items) (startIndex a)
                   (num_add (endIndex a (length authors)) (Some (-1))))) >>
       loop a (length authors) (length items) 0 items >>
       let! t := gets tally in
       let! m := gets manifest in
       inW (log MComplete >>
            log (MSuccessCount (successCount t)) >>
            log (MSkipped (skipCount t)) >>
            log (MErrors (errorCount t)) >>
            log (MTotalInManifest (total_avatars m)) >>
            when (bool_decide (0 < length (errors t))%nat)
              (log MErrorsHeader >> log_errors (errors t)) >>
            log (MCost (successCount t)) >>
            log MAllDone) >>
       ret t).

(** The script: [main().catch(error => { console.error('Fatal error:',
    error); process.exit(1); })], and exit code [0] when [main] returns.
    (The creation of the avatars directory at load time leaves no trace in
    a world without directories.) *)
Definition script (a : Args) (w : World) : Z * World :=
  match main a w with
  | (Ok _, w') => (0, w')
  | (Throw message, w') =>
      (1, set_console (λ c, c ++ [ConsoleError (lit "Fatal error: " ++ message)]) w')
  | (Exit code, w') => (code, w')
  end.
End Script.
End Batch.

(** ** regenerate-specific.js *)

Module Regenerate.
Section Script.
Context (p : Platform).

Definition LOG_FILE : jsstring := path_join (dirname p) (lit "regeneration.log").

Definition prompt (authorName : jsstring) : jsstring :=
  lit "Portrait of " ++ authorName ++
  lit ", detailed pen and ink sketch style, classical engraving technique, cross-hatching shading, pure white background, black and white only, historical figure portrait, Renaissance engraving style, highly detailed facial features, traditional illustration, etching art style, no color, monochrome, professional historical portrait, NO BORDERS, NO FRAMES, no decorative elements, seamless edge to edge, clean portrait only, full bleed to canvas edges, 1024x1024".

Definition generateAvatar (authorName : jsstring) : M World JsVal :=
  generateAvatar_with p (prompt authorName).

Definition log (message : Msg) : M World unit := log_to p LOG_FILE false message.

(** [filepath.replace('.png', '.backup.png')] *)
Definition backup_path (filepath : jsstring) : jsstring :=
  replace_first (lit ".png") (lit ".backup.png") filepath.

(** [saveAvatar(authorName, base64Data)]: an existing file is copied to
    its backup path before it is overwritten. *)
Definition saveAvatar (authorName : jsstring) (base64Data : JsVal) : M World jsstring :=
  let filename := normalizeFilename p authorName in
  let filepath := path_join (AVATARS_DIR p) filename in
  let! present := existsSync filepath in
  when present
    (let backupPath := backup_path filepath in
     copyFileSync p filepath backupPath >>
     log (MBackedUp (basename backupPath))) >>
  let! buffer := lift_sum (Buffer_from_base64 p base64Data) in
  writeFileSync p filepath buffer >>
  ret filename.

(** The [i]-th pass of the [for] loop of [main], on [author];
    [n] is [authorsToRegenerate.length]. *)
Definition iteration (n i : nat) (author : jsstring) : M State unit :=
  let position := of_nat (i + 1) in
  try_catch
    (inW (log (MRegenerating position n author)) >>
     let! base64Data := inW (generateAvatar author) in
     let! savedFilename := inW (saveAvatar author base64Data) in
     let! generated := inW (now p) in
     set_avatar author
       {| filename := savedFilename; generated_at := generated; regenerated := true |} >>
     saveManifest p >>
     inW (log (MSuccess position n author savedFilename)) >>
     count_success >>
     when (bool_decide (i < n - 1)%nat)
       (inW (log MWaiting) >> inW (sleep (Some 1000))))
    (λ message,
     inW (log (MError position n author message)) >>
     count_error author message).

Fixpoint loop (n i : nat) (items : list jsstring) : M State unit :=
  match items with
  | [] => ret tt
  | author :: rest => iteration n i author >> loop n (S i) rest
  end.

(** [authorsToRegenerate.forEach((author, i) => log(...))] *)
Fixpoint log_numbered (i : nat) (l : list jsstring) : M World unit :=
  match l with
  | [] => ret tt
  | author :: rest => log (MNumbered (i + 1) author) >> log_numbered (S i) rest
  end.

Fixpoint log_errors (l : list (jsstring * jsstring)) : M World unit :=
  match l with
  | [] => ret tt
  | (author, error) :: rest => log (MErrorItem author error) >> log_errors rest
  end.

(** [main()], returning the counters it logs. *)
Definition main (authorsToRegenerate : list jsstring) : M World Tally :=
  if key_missing p then
    console_error (lit "Error: GEMINI_API_KEY not found in .env file") >>
    exit 1
  else
    log MRegenStarted >>
    log (MAuthorsToRegenerate (length authorsToRegenerate)) >>
    log_numbered 0 authorsToRegenerate >>
    log MBlank >>
    let! loaded := loadManifest p in
    with_locals loaded
      (loop (length authorsToRegenerate) 0 authorsToRegenerate >>
       let! t := gets tally in
       inW (log MRegenComplete >>
            log (MSuccessCount (successCount t)) >>
            log (MErrors (errorCount t)) >>
            when (bool_decide (0 < length (errors t))%nat)
              (log MErrorsHeader >> log_errors (errors t)) >>
            log (MCost (successCount t)) >>
            log MDone >>
            log MNextSteps >>
            log (MStep1 (AVATARS_DIR p)) >>
            log MStep2 >>
            log MStep3) >>
       ret t).

(** The script: the check of the arguments at load time, then [main] with
    its [catch]. *)
Definition script (authorsToRegenerate : list jsstring) (w : World) : Z * World :=
  match authorsToRegenerate with
  | [] =>
      (1, set_console (λ c, c ++
            [ConsoleError (lit "Error: Please provide author names to regenerate");
             ConsoleError (lit "Usage: node regenerate-specific.js " ++ [34%N] ++
                           lit "Arthur Schopenhauer" ++ [34%N; 32%N; 34%N] ++
                           lit "Abraham Maslow" ++ [34%N])])
            w)
  | _ =>
      match main authorsToRegenerate w with
      | (Ok _, w') => (0, w')
      | (Throw message, w') =>
          (1, set_console (λ c, c ++ [ConsoleError (lit "Fatal error: " ++ message)]) w')
      | (Exit code, w') => (code, w')
      end
  end.
End Script.
End Regenerate.

(** ** Notions used in the statements *)

(** The world after [log_to p file stamped message] when the append goes
    through. *)
Definition logged (p : Platform) (file : jsstring) (stamped : bool) (message : Msg)
    (w : World) : World :=
  set_logs <[file := log_lines file w ++ [(Date_now p (ticks w), message)]]>
    (set_console
       (λ c, c ++ [ConsoleLog (if stamped then Some (Date_now p (ticks w)) else None) message])
       (set_ticks S w)).

(** Two worlds with the same image files, manifest file, catalog and
    requests: they differ at most by the clock, the console, the logs and the
    delays waited. *)
Definition same_store (w w' : World) : Prop :=
  images w' = images w ∧ manifest_json w' = manifest_json w ∧
  authors_json w' = authors_json w ∧ requests w' = requests w.

(** The request that [generateAvatar] sends for a prompt. *)
Definition request_for (p : Platform) (prompt : jsstring) : Request :=
  {| req_api_key := default (lit "undefined") (GEMINI_API_KEY p); req_prompt := prompt |}.

(** A step that neither changes the state nor ends the process. *)
Definition pure_step {S A} (m : M S A) : Prop :=
  ∀ s, ∃ r, m s = (r, s) ∧ ∀ c, r ≠ Exit c.

(** What [saveManifest] makes of the manifest object at clock reading
    [stamp]. *)
Definition stamped_manifest (stamp : Timestamp) (m : Manifest) : Manifest :=
  {| manifest_generated_at := manifest_generated_at m; updated_at := Some stamp;
     total_avatars := Z.of_nat (size (avatars m)); avatars := avatars m |}.

(** The log lines that open an item: its position in the run and its name. *)
Definition item_lines (l : list (Timestamp * Msg)) : list (number * jsstring) :=
  omap (λ line, match snd line with
                | MSkip position _ author
                | MGenerating position _ author
                | MRegenerating position _ author => Some (position, author)
                | _ => None
                end) l.

(** A step on the world that ends normally, leaves the store as it is and
    opens no item in the log [file]. *)
Definition quiet (file : jsstring) {A} (m : M World A) : Prop :=
  ∀ w, ∃ a w', m w = (Ok a, w') ∧ same_store w w' ∧
               item_lines (log_lines file w') = item_lines (log_lines file w).

(** A step on the world that ends normally or throws, and touches neither
    the manifest file, nor the catalog, nor the network. *)
Definition store_step {A} (m : M World A) : Prop :=
  ∀ w, ∃ r w', m w = (r, w') ∧ (∀ c, r ≠ Exit c) ∧
               manifest_json w' = manifest_json w ∧ authors_json w' = authors_json w ∧
               requests w' = requests w.

(** A step whose only normal result is [x]. *)
Definition returns {S A} (x : A) (m : M S A) : Prop :=
  ∀ s r s', m s = (Ok r, s') → r = x.

(** The range as the specification words it, for comparison with the
    code: the items of indices [start .. endIndex - 1], where [endIndex] is
    [min (start + limit) total] when a limit is given and [total]
    otherwise. *)
Definition claimed_range (start : Z) (limit : option Z) (authors : list jsstring)
    : list jsstring :=
  let total := Z.of_nat (length authors) in
  let endIndex := match limit with
                  | Some l => Z.min (start + l) total
                  | None => total
                  end in
  snd <$> List.filter (λ x : nat * jsstring,
                         (start <=? Z.of_nat x.1) && (Z.of_nat x.1 <=? endIndex - 1))
            (imap pair authors).

(** ** The response, as the client reads it *)

(** [v.k] on a value that is neither [null] nor [undefined] (and [v?.k] on
    any value). *)
Definition field (k : string) (v : JsVal) : JsVal :=
  match v with
  | VObj fields => default VUndef (assoc (lit k) fields)
  | _ => VUndef
  end.

Definition nullish (v : JsVal) : bool :=
  match v with
  | VUndef | VNull => true
  | _ => false
  end.

(** The parts list of a response document:
    [candidates[0].content.parts]. *)
Definition response_parts (data : JsVal) : JsVal :=
  field "parts" (field "content" (opt_first (field "candidates" data))).

(** A part with inline data: its [inlineData] is truthy. *)
Definition carries_inline (part : JsVal) : bool := truthy (field "inlineData" part).

(** The payload of a part: [part.inlineData.data]. *)
Definition inline_data (part : JsVal) : JsVal := field "data" (field "inlineData" part).

(** A part that [find] passes over without throwing. *)
Definition passed_over (part : JsVal) : Prop :=
  nullish part = false ∧ carries_inline part = false.

(** What [parts.find(part => part.inlineData)] returns or throws. *)
Fixpoint scan (parts : list JsVal) : Outcome JsVal :=
  match parts with
  | [] => Ok VUndef
  | part :: rest =>
      match part with
      | VUndef => Throw (type_error_read "undefined" "inlineData")
      | VNull => Throw (type_error_read "null" "inlineData")
      | _ => if carries_inline part then Ok part else scan rest
      end
  end.

(** What the body of the client's [try] makes of the service's answer. *)
Definition client_result (answer : FetchResult) : Outcome JsVal :=
  match answer with
  | NetworkError message => Throw message
  | Responded r =>
      if negb (ok r) then
        Throw (lit "API error: " ++ lit (pretty (status r)) ++ lit " - " ++ text r)
      else
        match json r with
        | inl message => Throw message
        | inr VUndef => Throw (type_error_read "undefined" "candidates")
        | inr VNull => Throw (type_error_read "null" "candidates")
        | inr data =>
            let parts := response_parts data in
            if negb (truthy parts) then Throw (lit "No parts in response")
            else match parts with
                 | VArr elems =>
                     match scan elems with
                     | Ok part =>
                         if truthy part && truthy (inline_data part)
                         then Ok (inline_data part)
                         else Throw (lit "No image data in response")
                     | other => other
                     end
                 | _ => Throw (lit "parts.find is not a function")
                 end
        end
  end.

(** The [catch] of the client. *)
Definition generation_failed (r : Outcome JsVal) : Outcome JsVal :=
  match r with
  | Throw message => Throw (lit "Generation failed: " ++ message)
  | other => other
  end.

(** ** The targeted persister, call after call *)

(** The normalized name without its extension. *)
Definition stem (p : Platform) (authorName : jsstring) : jsstring :=
  (λ c, if is_lower_alnum c then c else 45%N) <$> toLowerCase p authorName.

(** [saveAvatar] of the targeted driver called once per payload, in order,
    on the same name. *)
Fixpoint save_each (p : Platform) (authorName : jsstring) (payloads : list JsVal)
    : M World unit :=
  match payloads with
  | [] => ret tt
  | base64Data :: rest =>
      Regenerate.saveAvatar p authorName base64Data >> save_each p authorName rest
  end.

(** ** What a failed write leaves behind *)

(** The image files after a write of [buffer] to [path] that failed. *)
Definition image_residue (p : Platform) (path : jsstring) (buffer : list N) (w : World) : World :=
  match fs_point p path with
  | AtOpen => w
  | AtWrite written => set_images <[path := take written buffer]> w
  | AtClose => set_images <[path := buffer]> w
  end.

(** The manifest file after a write of the document [m] that failed. *)
Definition manifest_residue (p : Platform) (m : Manifest) (w : World) : World :=
  match fs_point p (MANIFEST_FILE p) with
  | AtOpen => w
  | AtWrite written => set_manifest_json (Some (inl (JSON_cut p m written))) w
  | AtClose => set_manifest_json (Some (inr m)) w
  end.

(** ** What one pass of the catalog driver's loop does, the run log being
    writable: the item is skipped, or it fails (in the client, in the
    persister, which cannot decode the payload or cannot write the file, or
    when the manifest is written), or it succeeds. *)

Section BatchItem.
Context (p : Platform) (a : Batch.Args) (total len i : nat) (author : jsstring).

Let position := num_add (num_add (Batch.startIndex a) (of_nat i)) (Some 1).
Let filepath := path_join (AVATARS_DIR p) (normalizeFilename p author).
Let line (message : Msg) := logged p (Batch.LOG_FILE p) true message.

Inductive batch_item (s s' : State) : Prop :=
  | batch_skipped content :
      images (world s) !! filepath = Some content →
      s' = {| world := line (MSkip position total author) (world s);
              manifest := manifest s; tally := skipped (tally s) |} →
      batch_item s s'
  | batch_generation_failed e w2 :
      images (world s) !! filepath = None →
      Batch.generateAvatar p author (line (MGenerating position total author) (world s))
        = (Throw e, w2) →
      s' = {| world := line (MError position total author e) w2;
              manifest := manifest s; tally := failed author e (tally s) |} →
      batch_item s s'
  | batch_decode_failed data e w2 :
      images (world s) !! filepath = None →
      Batch.generateAvatar p author (line (MGenerating position total author) (world s))
        = (Ok data, w2) →
      Buffer_from_base64 p data = inl e →
      Batch.saveAvatar p author data w2 = (Throw e, w2) →
      s' = {| world := line (MError position total author e) w2;
              manifest := manifest s; tally := failed author e (tally s) |} →
      batch_item s s'
  | batch_write_failed data buffer e w2 :
      images (world s) !! filepath = None →
      Batch.generateAvatar p author (line (MGenerating position total author) (world s))
        = (Ok data, w2) →
      Buffer_from_base64 p data = inr buffer →
      fs_fault p filepath = Some e →
      Batch.saveAvatar p author data w2 = (Throw e, image_residue p filepath buffer w2) →
      s' = {| world := line (MError position total author e)
                         (image_residue p filepath buffer w2);
              manifest := manifest s; tally := failed author e (tally s) |} →
      batch_item s s'
  | batch_manifest_failed data buffer e w2 :
      images (world s) !! filepath = None →
      Batch.generateAvatar p author (line (MGenerating position total author) (world s))
        = (Ok data, w2) →
      Buffer_from_base64 p data = inr buffer →
      Batch.saveAvatar p author data w2
        = (Ok (normalizeFilename p author), set_images <[filepath := buffer]> w2) →
      fs_fault p (MANIFEST_FILE p) = Some e →
      let m' := stamped_manifest (Date_now p (S (ticks w2)))
                  (put_avatar author
                     {| filename := normalizeFilename p author;
                        generated_at := Date_now p (ticks w2); regenerated := false |}
                     (manifest s)) in
      s' = {| world := line (MError position total author e)
                         (manifest_residue p m'
                            (set_ticks S (set_ticks S (set_images <[filepath := buffer]> w2))));
              manifest := m'; tally := failed author e (tally s) |} →
      batch_item s s'
  | batch_succeeded data buffer w2 :
      images (world s) !! filepath = None →
      Batch.generateAvatar p author (line (MGenerating position total author) (world s))
        = (Ok data, w2) →
      Buffer_from_base64 p data = inr buffer →
      Batch.saveAvatar p author data w2
        = (Ok (normalizeFilename p author), set_images <[filepath := buffer]> w2) →
      fs_fault p (MANIFEST_FILE p) = None →
      let m' := stamped_manifest (Date_now p (S (ticks w2)))
                  (put_avatar author
                     {| filename := normalizeFilename p author;
                        generated_at := Date_now p (ticks w2); regenerated := false |}
                     (manifest s)) in
      s' = {| world :=
                (if bool_decide (i < len - 1)%nat
                 then set_sleeps (λ l, l ++ [Batch.delay a]) else id)
                  (line (MSuccess position total author (normalizeFilename p author))
                     (set_manifest_json (Some (inr m'))
                        (set_ticks S (set_ticks S (set_images <[filepath := buffer]> w2)))));
              manifest := m'; tally := succeeded (tally s) |} →
      batch_item s s'.
End BatchItem.

(** ** What one pass of the targeted driver's loop does, the run log being
    writable: the item fails (in the client, in the persister, or when the
    manifest is written), or it succeeds. *)

Section RegenerateItem.
Context (p : Platform) (n i : nat) (author : jsstring).

Let position := of_nat (i + 1).
Let line (message : Msg) := logged p (Regenerate.LOG_FILE p) false message.

Inductive regenerate_item (s s' : State) : Prop :=
  | regenerate_generation_failed e w2 :
      Regenerate.generateAvatar p author (line (MRegenerating position n author) (world s))
        = (Throw e, w2) →
      s' = {| world := line (MError position n author e) w2;
              manifest := manifest s; tally := failed author e (tally s) |} →
      regenerate_item s s'
  | regenerate_save_failed data e w2 w3 :
      Regenerate.generateAvatar p author (line (MRegenerating position n author) (world s))
        = (Ok data, w2) →
      Regenerate.saveAvatar p author data w2 = (Throw e, w3) →
      s' = {| world := line (MError position n author e) w3;
              manifest := manifest s; tally := failed author e (tally s) |} →
      regenerate_item s s'
  | regenerate_manifest_failed data e w2 w3 :
      Regenerate.generateAvatar p author (line (MRegenerating position n author) (world s))
        = (Ok data, w2) →
      Regenerate.saveAvatar p author data w2 = (Ok (normalizeFilename p author), w3) →
      fs_fault p (MANIFEST_FILE p) = Some e →
      let m' := stamped_manifest (Date_now p (S (ticks w3)))
                  (put_avatar author
                     {| filename := normalizeFilename p author;
                        generated_at := Date_now p (ticks w3); regenerated := true |}
                     (manifest s)) in
      s' = {| world := line (MError position n author e)
                         (manifest_residue p m' (set_ticks S (set_ticks S w3)));
              manifest := m'; tally := failed author e (tally s) |} →
      regenerate_item s s'
  | regenerate_succeeded data w2 w3 :
      Regenerate.generateAvatar p author (line (MRegenerating position n author) (world s))
        = (Ok data, w2) →
      Regenerate.saveAvatar p author data w2 = (Ok (normalizeFilename p author), w3) →
      fs_fault p (MANIFEST_FILE p) = None →
      let m' := stamped_manifest (Date_now p (S (ticks w3)))
                  (put_avatar author
                     {| filename := normalizeFilename p author;
                        generated_at := Date_now p (ticks w3); regenerated := true |}
                     (manifest s)) in
      s' = {| world :=
                (if bool_decide (i < n - 1)%nat
                 then λ w, set_sleeps (λ l, l ++ [Some 1000]) (line MWaiting w) else id)
                  (line (MSuccess position n author (normalizeFilename p author))
                     (set_manifest_json (Some (inr m'))
                        (set_ticks S (set_ticks S w3))));
              manifest := m'; tally := succeeded (tally s) |} →
      regenerate_item s s'.
End RegenerateItem.

(** ** What becomes of an item, and the passes of a loop *)

Inductive Fate : Type :=
  | Skipped
  | Completed
  | Failed (message : jsstring).

(** The counters after an item met its fate. *)
Definition tally_after (author : jsstring) (fate : Fate) (t : Tally) : Tally :=
  match fate with
  | Skipped => skipped t
  | Completed => succeeded t
  | Failed message => failed author message t
  end.

(** The calls of a pass that can fail its item: the client, the persister,
    the write of the manifest ([flag]: the [regenerated] field of the
    record). *)
Definition attempt (p : Platform) (generateAvatar : jsstring → M World JsVal)
    (saveAvatar : jsstring → JsVal → M World jsstring) (flag : bool) (author : jsstring)
    : M State unit :=
  let! base64Data := inW (generateAvatar author) in
  let! savedFilename := inW (saveAvatar author base64Data) in
  let! generated := inW (now p) in
  set_avatar author
    {| filename := savedFilename; generated_at := generated; regenerated := flag |} >>
  saveManifest p.

(** An item fails when one of these calls throws; the error is the one
    thrown. *)
Definition fate_of {A} (r : Outcome A) : Fate :=
  match r with
  | Throw message => Failed message
  | _ => Completed
  end.

(** The fate of the [i]-th item of the catalog driver, in the state its
    pass finds: skipped when its file is there, else as its calls decide,
    made after the line that opens the item. *)
Definition batch_fate (p : Platform) (a : Batch.Args) (total i : nat) (author : jsstring)
    (s : State) : Fate :=
  let position := num_add (num_add (Batch.startIndex a) (of_nat i)) (Some 1) in
  let filepath := path_join (AVATARS_DIR p) (normalizeFilename p author) in
  if bool_decide (is_Some (images (world s) !! filepath)) then Skipped
  else fate_of (fst (attempt p (Batch.generateAvatar p) (Batch.saveAvatar p) false author
                       {| world := logged p (Batch.LOG_FILE p) true
                                     (MGenerating position total author) (world s);
                          manifest := manifest s; tally := tally s |})).

(** The fate of the [i]-th item of the targeted driver. *)
Definition regenerate_fate (p : Platform) (n i : nat) (author : jsstring) (s : State) : Fate :=
  fate_of (fst (attempt p (Regenerate.generateAvatar p) (Regenerate.saveAvatar p) true author
                  {| world := logged p (Regenerate.LOG_FILE p) false
                                (MRegenerating (of_nat (i + 1)) n author) (world s);
                     manifest := manifest s; tally := tally s |})).

(** The passes of a loop over [items], numbered from [i], from the state
    [s] to the state [s']: each pass is run on the state the one before it
    left, ends normally, and counts its item by its fate. *)
Inductive passes (pass : nat → jsstring → M State unit)
    (fate : nat → jsstring → State → Fate)
    : nat → list jsstring → State → list Fate → State → Prop :=
  | passes_done i s : passes pass fate i [] s [] s
  | passes_next i author rest s s1 fates s' :
      pass i author s = (Ok tt, s1) →
      tally s1 = tally_after author (fate i author s) (tally s) →
      passes pass fate (S i) rest s1 fates s' →
      passes pass fate i (author :: rest) s (fate i author s :: fates) s'.

(** The entries of [errors] for items that met the given fates: one per
    failed item, in order, with the error thrown. *)
Definition failures (items : list jsstring) (fates : list Fate) : list (jsstring * jsstring) :=
  omap (λ x : jsstring * Fate,
          match x.2 with Failed message => Some (x.1, message) | _ => None end)
       (zip items fates).

Definition completed (fate : Fate) : bool :=
  match fate with Completed => true | _ => false end.

Definition was_skipped (fate : Fate) : bool :=
  match fate with Skipped => true | _ => false end.

(** ** A concrete platform

    Used to run the scripts on concrete inputs.  [toLowerCase] is the ASCII
    conversion, which is what ECMAScript computes on ASCII names;
    [Buffer.from(v, 'base64')] decodes a string in the standard alphabet up
    to its padding, and rejects a number, a boolean, [null] and [undefined]
    with a [TypeError], as Node does. *)

Module Fixture.
Definition sextet (c : N) : option N :=
  if ((65 <=? c) && (c <=? 90))%N then Some (c - 65)%N
  else if ((97 <=? c) && (c <=? 122))%N then Some (c - 71)%N
  else if ((48 <=? c) && (c <=? 57))%N then Some (c + 4)%N
  else if (c =? 43)%N then Some 62%N
  else if (c =? 47)%N then Some 63%N
  else None.

Fixpoint sextets (s : jsstring) : list N :=
  match s with
  | [] => []
  | c :: s' => match sextet c with
               | Some v => v :: sextets s'
               | None => []
               end
  end.

Fixpoint octets (l : list N) : list N :=
  match l with
  | a :: b :: c :: d :: rest =>
      (a * 4 + b / 16)%N :: ((b mod 16) * 16 + c / 4)%N :: ((c mod 4) * 64 + d)%N
      :: octets rest
  | [a; b; c] => [(a * 4 + b / 16)%N; ((b mod 16) * 16 + c / 4)%N]
  | [a; b] => [(a * 4 + b / 16)%N]
  | _ => []
  end.

Definition base64_decode (s : jsstring) : list N := octets (sextets s).

Definition buffer_from (v : JsVal) : jsstring + list N :=
  match v with
  | VStr s => inr (base64_decode s)
  | _ => inl (lit "The first argument must be of type string or an instance of Buffer, ArrayBuffer, or Array or an Array-like Object.")
  end.

(** A platform installed in [/srv/avatars-repo], with the given key,
    answers of the service and failing paths, the failing writes being
    refused at the open; the clock reads [1000, 1001, ...]. *)
Definition platform (key : option jsstring) (answers : nat → Request → FetchResult)
    (faults : jsstring → option jsstring) : Platform :=
  {| dirname := lit "/srv/avatars-repo";
     GEMINI_API_KEY := key;
     toLowerCase := fmap ascii_lower;
     Buffer_from_base64 := buffer_from;
     Date_now := λ n, (1000 + N.of_nat n)%N;
     fetch := answers;
     fs_fault := faults;
     fs_point := λ _, AtOpen;
     JSON_cut := λ _ _, lit "Unexpected end of JSON input" |}.

(** The same platform installed elsewhere. *)
Definition installed_in (dir : jsstring) (p : Platform) : Platform :=
  {| dirname := dir;
     GEMINI_API_KEY := GEMINI_API_KEY p;
     toLowerCase := toLowerCase p;
     Buffer_from_base64 := Buffer_from_base64 p;
     Date_now := Date_now p;
     fetch := fetch p;
     fs_fault := fs_fault p;
     fs_point := fs_point p;
     JSON_cut := JSON_cut p |}.

(** The same platform, its failing writes failing at the given points. *)
Definition failing_at (points : jsstring → FailurePoint) (p : Platform) : Platform :=
  {| dirname := dirname p;
     GEMINI_API_KEY := GEMINI_API_KEY p;
     toLowerCase := toLowerCase p;
     Buffer_from_base64 := Buffer_from_base64 p;
     Date_now := Date_now p;
     fetch := fetch p;
     fs_fault := fs_fault p;
     fs_point := points;
     JSON_cut := JSON_cut p |}.

(** A success response whose single part carries [data] inline. *)
Definition image_response (data : jsstring) : Response :=
  {| status := 200; text := [];
     json := inr (VObj [(lit "candidates",
               VArr [VObj [(lit "content",
                 VObj [(lit "parts",
                   VArr [VObj [(lit "inlineData",
                     VObj [(lit "mimeType", VStr (lit "image/png"));
                           (lit "data", VStr data)])]])])]])]) |}.

(** A success response with two parts: the first has an [inlineData]
    without [data], the second carries [data] inline. *)
Definition two_part_response (data : jsstring) : Response :=
  {| status := 200; text := [];
     json := inr (VObj [(lit "candidates",
               VArr [VObj [(lit "content",
                 VObj [(lit "parts",
                   VArr [VObj [(lit "inlineData", VObj [])];
                         VObj [(lit "inlineData",
                           VObj [(lit "data", VStr data)])]])])]])]) |}.

Definition error_response (code : N) (body : jsstring) : Response :=
  {| status := code; text := body; json := inl (lit "Unexpected token") |}.

(** A service that fails the listed requests (numbered from 0) with a
    500 and answers the others with an image. *)
Definition flaky (failing : list nat) (n : nat) (_ : Request) : FetchResult :=
  if bool_decide (n ∈ failing)
  then Responded (error_response 500 (lit "Internal error"))
  else Responded (image_response (lit "aGk=")).

Definition no_fault (_ : jsstring) : option jsstring := None.

Definition all_authors : Batch.Args :=
  {| Batch.startIndex := Some 0; Batch.limit := Some 0; Batch.delay := Some 1000 |}.

Definition empty_world : World :=
  {| images := ∅; authors_json := None; manifest_json := None; logs := ∅;
     requests := []; ticks := 0; console := []; sleeps := [] |}.

Definition with_images (files : gmap jsstring (list N)) : World :=
  {| images := files; authors_json := None; manifest_json := None; logs := ∅;
     requests := []; ticks := 0; console := []; sleeps := [] |}.

Definition with_catalog (authors : list jsstring) : World :=
  {| images := ∅; authors_json := Some (inr authors); manifest_json := None;
     logs := ∅; requests := []; ticks := 0; console := []; sleeps := [] |}.
End Fixture.

(** * The rest of the scripts: notions for further properties *)

(** ** The command line of the catalog driver *)

(** The code units that [parseInt] skips at the start of its argument:
    the white space and line terminators of ECMAScript. *)
Definition is_space (c : N) : bool :=
  bool_decide (c ∈ [9; 10; 11; 12; 13; 32; 160; 5760; 8232; 8233; 8239; 8287; 12288; 65279]%N)
  || ((8192 <=? c) && (c <=? 8202))%N.

Fixpoint trim_start (s : jsstring) : jsstring :=
  match s with
  | c :: s' => if is_space c then trim_start s' else s
  | [] => []
  end.

(** The value of a code unit as a digit of the given radix. *)
Definition digit_value (radix : Z) (c : N) : option Z :=
  let v := if ((48 <=? c) && (c <=? 57))%N then Z.of_N c - 48
           else if ((97 <=? c) && (c <=? 122))%N then Z.of_N c - 87
           else if ((65 <=? c) && (c <=? 90))%N then Z.of_N c - 55
           else radix in
  if v <? radix then Some v else None.

(** The digits at the start of a string, up to the first code unit that is
    no digit. *)
Fixpoint read_digits (radix : Z) (s : jsstring) : list Z :=
  match s with
  | c :: s' => match digit_value radix c with
               | Some d => d :: read_digits radix s'
               | None => []
               end
  | [] => []
  end.

(** [parseInt(s)], no radix given: leading white space is skipped, then a
    sign is read, then [0x] or [0X] selects radix 16 (radix 10 otherwise),
    then the digits up to the first code unit that is none; [NaN] when there
    is no digit.  The result here is the integer the digits denote; JS
    returns the nearest double, which is that integer up to [2^53]. *)
Definition parseInt (s : jsstring) : number :=
  let s1 := trim_start s in
  let '(negative, s2) := match s1 with
                         | 45%N :: rest => (true, rest)
                         | 43%N :: rest => (false, rest)
                         | _ => (false, s1)
                         end in
  let '(radix, s3) := match s2 with
                      | 48%N :: 120%N :: rest | 48%N :: 88%N :: rest => (16, rest)
                      | _ => (10, s2)
                      end in
  match read_digits radix s3 with
  | [] => None
  | digits =>
      let value := fold_left (λ acc d, acc * radix + d) digits 0 in
      Some (if negative then - value else value)
  end.

(** [s.split(sep)] for a separator of one code unit. *)
Fixpoint js_split (sep : N) (s : jsstring) : list jsstring :=
  match s with
  | [] => [[]]
  | c :: s' =>
      if bool_decide (c = sep) then [] :: js_split sep s'
      else match js_split sep s' with
           | piece :: rest => (c :: piece) :: rest
           | [] => [[c]]
           end
  end.

(** [args.find(arg => arg.startsWith(flag))?.split('=')[1] || fallback]:
    the text between the first and the second [=] of the first argument that
    starts with [flag]; the fallback when there is no such argument, no [=]
    in it, or nothing after it. *)
Definition option_text (flag fallback : jsstring) (args : list jsstring) : jsstring :=
  match List.find (starts_with flag) args with
  | Some arg =>
      match js_split 61%N arg !! 1%nat with
      | Some (c :: value) => c :: value
      | _ => fallback
      end
  | None => fallback
  end.

(** [startIndex], [limit] and [delay], from [args = process.argv.slice(2)]. *)
Definition parse_args (args : list jsstring) : Batch.Args :=
  {| Batch.startIndex := parseInt (option_text (lit "--start") (lit "0") args);
     Batch.limit := parseInt (option_text (lit "--limit") (lit "0") args);
     Batch.delay := parseInt (option_text (lit "--delay") (lit "1000") args) |}.

(** A decimal digit. *)
Definition is_decimal (c : N) : Prop := (48 ≤ c ≤ 57)%N.

(** ** Frames of a run *)

(** A step that relates the state it finds to the state it leaves by [R],
    whatever its outcome, and does not end the process. *)
Definition step_in {S A} (R : relation S) (m : M S A) : Prop :=
  ∀ s r s', m s = (r, s') → R s s' ∧ ∀ c, r ≠ Exit c.

(** A relation between worlds, as a relation between driver states. *)
Definition on_world (R : relation World) : relation State :=
  λ s s', R (world s) (world s').

(** What only grows in a run whose log is [own]: lines are appended to
    that log, to the console, to the requests sent and to the delays waited;
    every other log file and the catalog stay as they are. *)
Definition grows (own : jsstring) (w w' : World) : Prop :=
  log_lines own w `prefix_of` log_lines own w' ∧
  (∀ file, file ≠ own → logs w' !! file = logs w !! file) ∧
  console w `prefix_of` console w' ∧
  requests w `prefix_of` requests w' ∧
  sleeps w `prefix_of` sleeps w' ∧
  (ticks w ≤ ticks w')%nat ∧
  authors_json w' = authors_json w.

(** The image file at [path], or its absence, is as it was. *)
Definition untouched (path : jsstring) (w w' : World) : Prop :=
  images w' !! path = images w !! path.

(** The image file at [path], if there was one, is there unchanged. *)
Definition kept (path : jsstring) (w w' : World) : Prop :=
  ∀ content, images w !! path = Some content → images w' !! path = Some content.

(** The console shows the lines appended to the log [own], one for one;
    [stamped]: with their timestamps. *)
Definition mirrored (own : jsstring) (stamped : bool) (w w' : World) : Prop :=
  ∃ new, log_lines own w' = log_lines own w ++ new ∧
         console w' = console w ++
           ((λ line, ConsoleLog (if stamped then Some (fst line) else None) (snd line)) <$> new).

(** Two worlds that differ at most by the clock, the console and the
    logs. *)
Definition idle (w w' : World) : Prop :=
  same_store w w' ∧ sleeps w' = sleeps w.

(** ** The records of the manifest *)

(** A record as a driver writes it for [name]; [flag] tells the targeted
    driver's records from the catalog driver's. *)
Definition fresh_record (p : Platform) (flag : bool) (name : jsstring)
    (record : AvatarRecord) : Prop :=
  filename record = normalizeFilename p name ∧ regenerated record = flag.

(** [m] has the creation stamp of [m0], and each of its records is the one
    [m0] has under that name or a record written for that name; it has a
    record wherever [m0] has one. *)
Definition descends (p : Platform) (flag : bool) (m0 m : Manifest) : Prop :=
  manifest_generated_at m = manifest_generated_at m0 ∧
  ∀ name, avatars m !! name = avatars m0 !! name ∨
          ∃ record, avatars m !! name = Some record ∧ fresh_record p flag name record.

(** The manifest file holds the document [m], or what a write of [m]
    that was interrupted left of it: the start of its text. *)
Definition holds_or_cut (p : Platform) (m : Manifest) (w : World) : Prop :=
  manifest_json w = Some (inr m) ∨
  ∃ written, fs_fault p (MANIFEST_FILE p) ≠ None ∧
             fs_point p (MANIFEST_FILE p) = AtWrite written ∧
             manifest_json w = Some (inl (JSON_cut p m written)).

(** The manifest object descends from what it was, and the manifest file
    is as it was or holds (whole, or cut by an interrupted write) a document
    that descends from that object. *)
Definition manifest_descends (p : Platform) (flag : bool) : relation State := λ s s',
  descends p flag (manifest s) (manifest s') ∧
  (manifest_json (world s') = manifest_json (world s) ∨
   ∃ m, holds_or_cut p m (world s') ∧ descends p flag (manifest s) m).

(** The manifest file is as it was, or holds (whole, or cut by an
    interrupted write) a document that descends from the one it held (from
    the empty one, when there was no file). *)
Definition file_descends (p : Platform) (flag : bool) : relation World := λ w w',
  manifest_json w' = manifest_json w ∨
  ∃ m, holds_or_cut p m w' ∧
       match manifest_json w with
       | Some (inr m0) => descends p flag m0 m
       | Some (inl _) => False
       | None => ∀ name record, avatars m !! name = Some record →
                                fresh_record p flag name record
       end.

(** The manifest file was not damaged: a document is followed by a
    document that descends from it, a text that does not parse stays, and
    where there was no file there is none or a document of records written
    for their names. *)
Definition file_sound (p : Platform) (flag : bool) : relation World := λ w w',
  match manifest_json w with
  | Some (inr m0) => ∃ m', manifest_json w' = Some (inr m') ∧ descends p flag m0 m'
  | Some (inl e) => manifest_json w' = Some (inl e)
  | None => manifest_json w' = None ∨
            ∃ m', manifest_json w' = Some (inr m') ∧
                  ∀ name record, avatars m' !! name = Some record →
                                 fresh_record p flag name record
  end.

(** ** Failing at startup *)

(** A step that throws from [w] and leaves the store as it is. *)
Definition fails_quietly {A} (m : M World A) (w : World) : Prop :=
  ∃ e w', m w = (Throw e, w') ∧ same_store w w'.

(** ** What a step writes to a log *)

(** A step that ends normally and appends the lines [lines], each with the
    stamp of its clock reading, to the log [file]. *)
Definition writes (file : jsstring) (lines : list Msg) (m : M World unit) : Prop :=
  ∀ w, ∃ w' new, m w = (Ok tt, w') ∧ log_lines file w' = log_lines file w ++ new ∧
                 snd <$> new = lines.

(** * Properties *)

(** ** Strings and slices *)

Lemma lookup_slice_from {A} (l : list A) (k n j : nat) :
  take n (drop k l) !! j = if bool_decide (j < n)%nat then l !! (k + j)%nat else None.
Proof.
  case_bool_decide.
  - by rewrite lookup_take_lt, lookup_drop.
  - apply lookup_take_ge. lia.
Qed.

(** C4. [normalizeFilename] is a function of the name alone (it is no step
    of the monad: it neither reads nor changes the world, and equal names
    give equal results); its result is the lowercased name, code unit by
    code unit, with every code unit outside [a-z0-9] replaced by [-],
    followed by [.png]; and, [toLowerCase] being the ASCII conversion on
    ASCII names, "Marcus Aurelius" gives "marcus-aurelius.png". *)
Theorem normalizeFilename_spec (p : Platform) (name : jsstring) :
  normalizeFilename p name = stem p name ++ lit ".png" ∧
  length (stem p name) = length (toLowerCase p name) ∧
  (∀ i c, toLowerCase p name !! i = Some c →
          stem p name !! i = Some (if is_lower_alnum c then c else 45%N)) ∧
  Forall (λ c, is_lower_alnum c = true ∨ c = 45%N) (stem p name) ∧
  (∀ other, other = name → normalizeFilename p other = normalizeFilename p name) ∧
  ((∀ s, Forall (λ c, (c < 128)%N) s → toLowerCase p s = ascii_lower <$> s) →
   normalizeFilename p (lit "Marcus Aurelius") = lit "marcus-aurelius.png").
Proof.
  split; [done|]. split; [by unfold stem; rewrite length_fmap|].
  split; [|split; [|split]].
  - intros i c Hc. unfold stem. by rewrite list_lookup_fmap, Hc.
  - apply Forall_fmap, Forall_forall. intros c _. simpl.
    destruct (is_lower_alnum c) eqn:E; auto.
  - by intros ? ->.
  - intros Hascii. unfold normalizeFilename. rewrite Hascii; [reflexivity|].
    repeat constructor.
Qed.

Lemma normalizeFilename_spec_witness :
  normalizeFilename (Fixture.platform None (λ _ _, NetworkError []) (λ _, None))
    (lit "Marcus Aurelius") = lit "marcus-aurelius.png".
Proof.
  refine (proj2 (proj2 (proj2 (proj2 (proj2 (normalizeFilename_spec
    (Fixture.platform None (λ _ _, NetworkError []) (λ _, None))
    (lit "Marcus Aurelius")))))) _).
  intros s _. reflexivity.
Defined.

(** ** The effects, one by one *)

Section Steps.
Context (p : Platform).

Lemma same_store_refl w : same_store w w.
Proof. by repeat split. Qed.

Lemma same_store_trans w1 w2 w3 :
  same_store w1 w2 → same_store w2 w3 → same_store w1 w3.
Proof.
  intros (? & ? & ? & ?) (? & ? & ? & ?). repeat split; congruence.
Qed.

Lemma same_store_logged file stamped message w :
  same_store w (logged p file stamped message w).
Proof. by repeat split. Qed.

Lemma log_to_ok file stamped message w :
  fs_fault p file = None →
  log_to p file stamped message w = (Ok tt, logged p file stamped message w).
Proof.
  intros H. unfold log_to, bind, now, console_log, appendFileSync, modify. simpl.
  by rewrite H.
Qed.

(** A log line ends normally or throws; it never touches the store. *)
Lemma log_to_cases file stamped message w :
  ∃ r w', log_to p file stamped message w = (r, w') ∧ same_store w w' ∧
          ((r = Ok tt ∧ w' = logged p file stamped message w)
           ∨ ∃ e, r = Throw e).
Proof.
  unfold log_to, bind, now, console_log, appendFileSync, modify. simpl.
  destruct (fs_fault p file) as [e|]; simpl.
  - eexists _, _. split; [reflexivity|]. split; [by repeat split|]. right. by eexists.
  - eexists _, _. split; [reflexivity|]. split; [by repeat split|]. by left.
Qed.

Lemma pure_ret {S A} (a : A) : pure_step (S := S) (ret a).
Proof. intros s. by eexists. Qed.

Lemma pure_throw {S A} e : pure_step (S := S) (A := A) (throw e).
Proof. intros s. by eexists. Qed.

Lemma pure_bind {S A B} (m : M S A) (k : A → M S B) :
  pure_step m → (∀ a, pure_step (k a)) → pure_step (bind m k).
Proof.
  intros Hm Hk s. unfold bind. destruct (Hm s) as (r & -> & Hr).
  destruct r as [a|e|c]; [apply Hk| by eexists | by destruct (Hr c)].
Qed.

Lemma pure_try_catch {S A} (m : M S A) (h : jsstring → M S A) :
  pure_step m → (∀ e, pure_step (h e)) → pure_step (try_catch m h).
Proof.
  intros Hm Hh s. unfold try_catch. destruct (Hm s) as (r & -> & Hr).
  destruct r as [a|e|c]; [by eexists | apply Hh | by destruct (Hr c)].
Qed.

Lemma pure_when {S} c (m : M S unit) : pure_step m → pure_step (when c m).
Proof. destruct c; [done|]. intros _. apply pure_ret. Qed.

Lemma pure_lift_sum {S A} (r : jsstring + A) : pure_step (S := S) (lift_sum r).
Proof. destruct r; [apply pure_throw | apply pure_ret]. Qed.

Lemma pure_prop {S} k v : pure_step (S := S) (prop k v).
Proof. destruct v; simpl; first [apply pure_throw | apply pure_ret]. Qed.

Lemma pure_opt_prop {S} k v : pure_step (S := S) (opt_prop k v).
Proof. destruct v; simpl; first [apply pure_ret | apply pure_prop]. Qed.

Lemma pure_find_inline {S} elems : pure_step (S := S) (find_inline elems).
Proof.
  induction elems as [|part rest IH]; simpl; [apply pure_ret|].
  apply pure_bind; [apply pure_prop|]. intros v. by destruct (truthy v); [apply pure_ret|].
Qed.

(** The client sends exactly one request, changes nothing else, and ends
    normally or throws. *)
Lemma generateAvatar_with_frame prompt w :
  ∃ r, generateAvatar_with p prompt w
       = (r, set_requests (λ l, l ++ [request_for p prompt]) w)
       ∧ ∀ c, r ≠ Exit c.
Proof.
  unfold generateAvatar_with, try_catch.
  match goal with |- context [bind (do_fetch _ _) ?k] => set (K := k) end.
  assert (HK : ∀ r, pure_step (K r)).
  { intros r. subst K. simpl.
    repeat first
      [ apply pure_bind; [|intros ?] | apply pure_when | apply pure_throw
      | apply pure_ret | apply pure_lift_sum | apply pure_prop
      | apply pure_opt_prop | apply pure_find_inline
      | match goal with |- pure_step (match ?x with _ => _ end) => destruct x end
      | match goal with |- pure_step (if ?x then _ else _) => destruct x end ]. }
  unfold bind at 1. unfold do_fetch. fold (request_for p prompt).
  destruct (fetch p _ _) as [e|r].
  - by eexists.
  - destruct (HK r (set_requests (λ l, l ++ [request_for p prompt]) w)) as (r' & -> & Hr').
    destruct r' as [d|e|c]; [by eexists | by eexists | by destruct (Hr' c)].
Qed.
End Steps.

Arguments log_to : simpl never.
Arguments generateAvatar_with : simpl never.
Arguments normalizeFilename : simpl never.
Arguments path_join : simpl never.
Arguments AVATARS_DIR : simpl never.
Arguments MANIFEST_FILE : simpl never.

Section Persist.
Context (p : Platform).

Lemma saveManifest_eq s :
  let m' := stamped_manifest (Date_now p (ticks (world s))) (manifest s) in
  saveManifest p s =
    match fs_fault p (MANIFEST_FILE p) with
    | None => (Ok tt, {| world := set_manifest_json (Some (inr m')) (set_ticks S (world s));
                         manifest := m'; tally := tally s |})
    | Some e => (Throw e, {| world := manifest_residue p m' (set_ticks S (world s));
                             manifest := m'; tally := tally s |})
    end.
Proof.
  unfold saveManifest, bind, inW, now, modify, gets, write_manifest, manifest_residue. simpl.
  destruct (fs_fault p (MANIFEST_FILE p)); [|done].
  by destruct (fs_point p (MANIFEST_FILE p)).
Qed.

(** A write to an image path: it goes through, or it throws and leaves what
    [image_residue] says. *)
Lemma writeFileSync_eq path buffer w :
  writeFileSync p path buffer w =
    match fs_fault p path with
    | None => (Ok tt, set_images <[path := buffer]> w)
    | Some e => (Throw e, image_residue p path buffer w)
    end.
Proof.
  unfold writeFileSync, image_residue, bind, modify, throw.
  destruct (fs_fault p path); [|done]. by destruct (fs_point p path).
Qed.

(** The catalog driver's persister: the payload cannot be decoded and the
    world is as it was; or the write of the decoded payload fails and leaves
    its residue; or the decoded payload is written at the item's path. *)
Lemma Batch_saveAvatar_cases author data w :
  let filepath := path_join (AVATARS_DIR p) (normalizeFilename p author) in
  (∃ e, Buffer_from_base64 p data = inl e ∧
        Batch.saveAvatar p author data w = (Throw e, w)) ∨
  (∃ buffer e, Buffer_from_base64 p data = inr buffer ∧ fs_fault p filepath = Some e ∧
        Batch.saveAvatar p author data w = (Throw e, image_residue p filepath buffer w)) ∨
  (∃ buffer, Buffer_from_base64 p data = inr buffer ∧
     Batch.saveAvatar p author data w =
       (Ok (normalizeFilename p author), set_images <[filepath := buffer]> w)).
Proof.
  intros filepath. unfold Batch.saveAvatar, lift_sum. fold filepath.
  destruct (Buffer_from_base64 p data) as [e|buffer]; simpl.
  - left. by eexists.
  - right. unfold bind, ret. rewrite writeFileSync_eq.
    destruct (fs_fault p filepath) as [e|]; simpl; [left; by eexists _, _|right; by eexists].
Qed.
End Persist.

(** ** One pass of the loop *)

Ltac case_log :=
  match goal with
  | |- context [log_to ?p ?f ?st ?m ?w] =>
      let r := fresh "r" in let w' := fresh "w" in
      let E := fresh "E" in let F := fresh "F" in let C := fresh "C" in
      destruct (log_to_cases p f st m w) as (r & w' & E & F & C); rewrite E;
      destruct C as [[-> ->] | [? ->]]; simpl in *
  end.

Ltac case_generate :=
  match goal with
  | |- context [generateAvatar_with ?p ?pr ?w] =>
      let r := fresh "r" in let E := fresh "G" in let N := fresh "N" in
      destruct (generateAvatar_with_frame p pr w) as (r & E & N); rewrite E;
      destruct r as [?|?|?]; [ | | by edestruct N]; simpl in *
  end.

Ltac case_batch_save :=
  match goal with
  | |- context [Batch.saveAvatar ?p ?a ?d ?w] =>
      let E := fresh "V" in
      destruct (Batch_saveAvatar_cases p a d w)
        as [(? & ? & E) | [(? & ? & ? & ? & E) | (? & ? & E)]]; rewrite E; simpl in *
  end.

Ltac case_save_manifest :=
  match goal with
  | |- context [saveManifest ?p ?s] =>
      rewrite (saveManifest_eq p s);
      let F := fresh "W" in
      destruct (fs_fault p (MANIFEST_FILE p)) eqn:F; simpl in *
  end.

Ltac open_residues :=
  unfold image_residue, manifest_residue in *;
  repeat match goal with
  | |- context [match fs_point ?p ?f with AtOpen => _ | AtWrite _ => _ | AtClose => _ end] =>
      let E := fresh "Hpoint" in destruct (fs_point p f) eqn:E; rewrite ?E in *
  | H : context [match fs_point ?p ?f with AtOpen => _ | AtWrite _ => _ | AtClose => _ end]
    |- _ =>
      let E := fresh "Hpoint" in destruct (fs_point p f) eqn:E; rewrite ?E in *
  end;
  simpl in *.

Ltac open_stores :=
  repeat match goal with H : same_store _ _ |- _ => destruct H as (? & ? & ? & ?) end;
  simpl in *.

Section BatchPass.
Context (p : Platform).

Lemma image_residue_rest path buffer w :
  manifest_json (image_residue p path buffer w) = manifest_json w ∧
  authors_json (image_residue p path buffer w) = authors_json w ∧
  requests (image_residue p path buffer w) = requests w ∧
  logs (image_residue p path buffer w) = logs w ∧
  ticks (image_residue p path buffer w) = ticks w ∧
  console (image_residue p path buffer w) = console w ∧
  sleeps (image_residue p path buffer w) = sleeps w.
Proof. unfold image_residue. by destruct (fs_point p path). Qed.

Lemma manifest_residue_rest m w :
  images (manifest_residue p m w) = images w ∧
  authors_json (manifest_residue p m w) = authors_json w ∧
  requests (manifest_residue p m w) = requests w ∧
  logs (manifest_residue p m w) = logs w ∧
  ticks (manifest_residue p m w) = ticks w ∧
  console (manifest_residue p m w) = console w ∧
  sleeps (manifest_residue p m w) = sleeps w.
Proof. unfold manifest_residue. by destruct (fs_point p (MANIFEST_FILE p)). Qed.

(** Whatever happens to the log: either the pass leaves the manifest
    object and the manifest file as they were (and counts no success), or
    the client returned a payload and the persister saved it, and the
    manifest object has the item's record and the stamp of [saveManifest];
    the file then holds that very object, unless its write failed (and then
    no success is counted, and the file is what the failed write left). *)
Lemma Batch_iteration_manifest a total len i author s r s' :
  Batch.iteration p a total len i author s = (r, s') →
  (manifest s' = manifest s ∧ manifest_json (world s') = manifest_json (world s) ∧
   successCount (tally s') = successCount (tally s)) ∨
  (∃ w1 data w2 w3 generated stamp,
      same_store (world s) w1 ∧
      Batch.generateAvatar p author w1 = (Ok data, w2) ∧
      Batch.saveAvatar p author data w2 = (Ok (normalizeFilename p author), w3) ∧
      manifest s' = stamped_manifest stamp
        (put_avatar author {| filename := normalizeFilename p author;
                              generated_at := generated; regenerated := false |}
           (manifest s)) ∧
      match fs_fault p (MANIFEST_FILE p) with
      | None => manifest_json (world s') = Some (inr (manifest s'))
      | Some _ => successCount (tally s') = successCount (tally s) ∧
                  manifest_json (world s')
                  = match fs_point p (MANIFEST_FILE p) with
                    | AtOpen => manifest_json (world s)
                    | AtWrite written => Some (inl (JSON_cut p (manifest s') written))
                    | AtClose => Some (inr (manifest s'))
                    end
      end).
Proof.
  unfold Batch.iteration, bind, try_catch, inW, Batch.log, Batch.generateAvatar,
    existsSync, gets.
  simpl.
  match goal with |- _ = _ → ?C => assert (Hleft : ∀ (r0 : Outcome ()) s0,
    manifest s0 = manifest s → manifest_json (world s0) = manifest_json (world s) →
    successCount (tally s0) = successCount (tally s) →
    (r0, s0) = (r, s') → C) by (intros r0 s0 ? ? ? [= <- <-]; left; eauto) end.
  case_bool_decide.
  - case_log; apply Hleft; simpl; open_stores; congruence.
  - case_log.
    2: { case_log; apply Hleft; simpl; open_stores; congruence. }
    case_generate.
    2: { case_log; apply Hleft; simpl; open_stores; congruence. }
    case_batch_save.
    { case_log; apply Hleft; simpl; open_stores; congruence. }
    { match goal with |- context [image_residue p ?f ?b ?w] =>
        pose proof (image_residue_rest f b w) as (Hj & _) end.
      case_log; apply Hleft; simpl; open_stores; congruence. }
    match goal with |- _ = _ → ?C => assert (Hright : ∀ (r0 : Outcome ()) s0,
      manifest s0 = stamped_manifest (Date_now p (S (S (ticks (world s)))))
        (put_avatar author {| filename := normalizeFilename p author;
                              generated_at := Date_now p (S (ticks (world s)));
                              regenerated := false |} (manifest s)) →
      match fs_fault p (MANIFEST_FILE p) with
      | None => manifest_json (world s0) = Some (inr (manifest s0))
      | Some _ => successCount (tally s0) = successCount (tally s) ∧
                  manifest_json (world s0)
                  = match fs_point p (MANIFEST_FILE p) with
                    | AtOpen => manifest_json (world s)
                    | AtWrite written => Some (inl (JSON_cut p (manifest s0) written))
                    | AtClose => Some (inr (manifest s0))
                    end
      end →
      (r0, s0) = (r, s') → C) end.
    { intros r0 s0 Hm Hj [= <- <-]. right. eexists _, _, _, _, _, _.
      split; [exact F|]. split; [exact G|]. split; [exact V|]. split; [exact Hm|]. exact Hj. }
    case_save_manifest.
    + case_log; apply Hright; rewrite ?W; simpl; open_residues; open_stores;
        split; congruence.
    + case_log.
      * destruct (bool_decide (i < len - 1)%nat); simpl; apply Hright; rewrite ?W; simpl; done.
      * case_log; apply Hright; rewrite ?W; simpl; open_stores; congruence.
Qed.

(** With a writable run log, the pass ends normally, in one of the six
    ways of [batch_item]. *)
Lemma Batch_iteration_outcome a total len i author s :
  fs_fault p (Batch.LOG_FILE p) = None →
  ∃ s', Batch.iteration p a total len i author s = (Ok tt, s') ∧
        batch_item p a total len i author s s'.
Proof.
  intros Hlog.
  unfold Batch.iteration, bind, try_catch, inW, Batch.log, existsSync, gets.
  simpl.
  destruct (images (world s) !! _) as [content|] eqn:Hfile.
  - rewrite bool_decide_eq_true_2 by by eexists.
    rewrite log_to_ok by done. simpl.
    eexists. split; [reflexivity|]. by eapply batch_skipped.
  - rewrite bool_decide_eq_false_2 by by intros [? [=]].
    rewrite log_to_ok by done. simpl.
    destruct (Batch.generateAvatar p author _) as [[data|e|c] w2] eqn:G.
    3: { unfold Batch.generateAvatar in G.
         destruct (generateAvatar_with_frame p (Batch.prompt author)
           (logged p (Batch.LOG_FILE p) true
              (MGenerating (num_add (num_add (Batch.startIndex a) (of_nat i)) (Some 1))
                 total author) (world s))) as (r & G' & N).
         rewrite G' in G. injection G as -> _. by destruct (N c). }
    2: { simpl. rewrite log_to_ok by done. simpl.
         eexists. split; [reflexivity|]. by eapply batch_generation_failed. }
    simpl.
    destruct (Batch_saveAvatar_cases p author data w2)
      as [(e & Hb & V) | [(buffer & e & Hb & Hw & V) | (buffer & Hb & V)]];
      rewrite V; simpl.
    { rewrite log_to_ok by done. simpl.
      eexists. split; [reflexivity|]. by eapply batch_decode_failed. }
    { rewrite log_to_ok by done. simpl.
      eexists. split; [reflexivity|]. by eapply batch_write_failed. }
    case_save_manifest.
    + rewrite log_to_ok by done. simpl.
      eexists. split; [reflexivity|]. by eapply batch_manifest_failed.
    + rewrite log_to_ok by done. simpl.
      eexists. split.
      2: { by eapply batch_succeeded. }
      by destruct (bool_decide (i < len - 1)%nat).
Qed.
End BatchPass.

Lemma item_lines_app l1 l2 : item_lines (l1 ++ l2) = item_lines l1 ++ item_lines l2.
Proof. apply omap_app. Qed.

Lemma log_lines_logged p file stamped message w :
  log_lines file (logged p file stamped message w)
  = log_lines file w ++ [(Date_now p (ticks w), message)].
Proof. unfold log_lines at 1, logged. simpl. by rewrite lookup_insert_eq. Qed.

Lemma log_lines_logged_ne p file file' stamped message w :
  file ≠ file' →
  log_lines file' (logged p file stamped message w) = log_lines file' w.
Proof. intros. unfold log_lines at 1, logged. simpl. by rewrite lookup_insert_ne. Qed.

Lemma log_lines_set_requests file f w : log_lines file (set_requests f w) = log_lines file w.
Proof. reflexivity. Qed.
Lemma log_lines_set_ticks file f w : log_lines file (set_ticks f w) = log_lines file w.
Proof. reflexivity. Qed.
Lemma log_lines_set_images file f w : log_lines file (set_images f w) = log_lines file w.
Proof. reflexivity. Qed.
Lemma log_lines_set_manifest_json file v w :
  log_lines file (set_manifest_json v w) = log_lines file w.
Proof. reflexivity. Qed.
Lemma log_lines_set_sleeps file f w : log_lines file (set_sleeps f w) = log_lines file w.
Proof. reflexivity. Qed.
Lemma log_lines_set_console file f w : log_lines file (set_console f w) = log_lines file w.
Proof. reflexivity. Qed.

Create Rewrite HintDb log_lines.
#[local] Hint Rewrite log_lines_logged log_lines_set_requests log_lines_set_ticks
  log_lines_set_images log_lines_set_manifest_json log_lines_set_sleeps
  log_lines_set_console item_lines_app : log_lines.

(** Where the client leaves the world, whatever it returns. *)
Lemma generateAvatar_with_world p prompt w r w' :
  generateAvatar_with p prompt w = (r, w') →
  w' = set_requests (λ l, l ++ [request_for p prompt]) w.
Proof.
  intros H. destruct (generateAvatar_with_frame p prompt w) as (r' & H' & _). congruence.
Qed.

Ltac client_world :=
  repeat match goal with
  | G : Batch.generateAvatar _ _ _ = (_, ?w) |- _ =>
      unfold Batch.generateAvatar in G;
      let H := fresh in
      pose proof (generateAvatar_with_world _ _ _ _ _ G) as H; subst w; clear G
  | G : Regenerate.generateAvatar _ _ _ = (_, ?w) |- _ =>
      unfold Regenerate.generateAvatar in G;
      let H := fresh in
      pose proof (generateAvatar_with_world _ _ _ _ _ G) as H; subst w; clear G
  end.

Section BatchItemFacts.
Context (p : Platform) (a : Batch.Args) (total len i : nat) (author : jsstring).
Context (s s' : State) (H : batch_item p a total len i author s s').

Let filepath := path_join (AVATARS_DIR p) (normalizeFilename p author).

(** Exactly one counter moves, by one; a failure adds one entry, which
    names the item, to [errors]. *)
Lemma batch_item_tally :
  tally s' = skipped (tally s) ∨ tally s' = succeeded (tally s) ∨
  ∃ e, tally s' = failed author e (tally s).
Proof. destruct H; subst; simpl; eauto. Qed.

Lemma batch_item_store :
  authors_json (world s') = authors_json (world s) ∧
  dom (images (world s)) ⊆ dom (images (world s')) ∧
  (errorCount (tally s') = errorCount (tally s) →
   filepath ∈ dom (images (world s')) ∧
   (manifest_json (world s') = manifest_json (world s) ∨
    manifest_json (world s') = Some (inr (manifest s')) ∧
    total_avatars (manifest s') = Z.of_nat (size (avatars (manifest s'))))) ∧
  (∃ more, requests (world s') = requests (world s) ++ more).
Proof.
  destruct H; client_world; subst; simpl.
  - split; [done|]. split; [done|]. split.
    + intros _. split; [|by left]. apply elem_of_dom. by eexists.
    + exists []. by rewrite app_nil_r.
  - split; [done|]. split; [done|]. split; [intros; lia|]. by eexists.
  - split; [done|]. split; [done|]. split; [intros; lia|]. by eexists.
  - unfold image_residue. destruct (fs_point p _); simpl;
      (split; [done|]; split; [try done; rewrite dom_insert; set_solver|];
       split; [intros; lia|]; by eexists).
  - unfold manifest_residue. destruct (fs_point p _); simpl;
      (split; [done|]; split; [rewrite dom_insert; set_solver|];
       split; [intros; lia|]; by eexists).
  - destruct (bool_decide (i < len - 1)%nat); simpl;
      (split; [done|]; split; [rewrite dom_insert; set_solver|]; split; [|by eexists];
       intros _; split; [rewrite dom_insert; set_solver|by right]).
Qed.

(** An item whose file is there is skipped: no request, no write. *)
Lemma batch_item_present :
  is_Some (images (world s) !! filepath) →
  tally s' = skipped (tally s) ∧ manifest s' = manifest s ∧
  requests (world s') = requests (world s) ∧ images (world s') = images (world s) ∧
  manifest_json (world s') = manifest_json (world s).
Proof.
  intros [c Hc]. subst filepath.
  destruct H; subst; simpl; try done; congruence.
Qed.

(** An item whose file is not there is attempted: one request is sent,
    for its prompt. *)
Lemma batch_item_absent :
  images (world s) !! filepath = None →
  requests (world s') = requests (world s) ++ [request_for p (Batch.prompt author)].
Proof.
  intros Hc. subst filepath.
  destruct H; client_world; subst; simpl; try congruence.
  - unfold image_residue. by destruct (fs_point p _).
  - unfold manifest_residue. by destruct (fs_point p _).
  - by destruct (bool_decide (i < len - 1)%nat).
Qed.

Lemma batch_item_lines :
  item_lines (log_lines (Batch.LOG_FILE p) (world s'))
  = item_lines (log_lines (Batch.LOG_FILE p) (world s))
    ++ [(num_add (num_add (Batch.startIndex a) (of_nat i)) (Some 1), author)].
Proof.
  destruct H; client_world; subst; simpl;
    try destruct (bool_decide (i < len - 1)%nat); simpl;
    unfold image_residue, manifest_residue; try destruct (fs_point p _); simpl;
    autorewrite with log_lines; simpl; rewrite <- ?app_assoc, ?app_nil_r; done.
Qed.
End BatchItemFacts.

(** ** The loop of the catalog driver, the run log being writable *)

Section BatchLoop.
Context (p : Platform) (Hlog : fs_fault p (Batch.LOG_FILE p) = None).
Context (a : Batch.Args) (total len : nat).

Let filepath (author : jsstring) := path_join (AVATARS_DIR p) (normalizeFilename p author).
Let position (i : nat) := num_add (num_add (Batch.startIndex a) (of_nat i)) (Some 1).

Lemma Batch_loop_step i author rest s :
  ∃ s1, batch_item p a total len i author s s1 ∧
        Batch.loop p a total len i (author :: rest) s
        = Batch.loop p a total len (S i) rest s1.
Proof.
  destruct (Batch_iteration_outcome p a total len i author s Hlog) as (s1 & E & Hitem).
  exists s1. split; [done|]. simpl. unfold bind. by rewrite E.
Qed.

(** No item aborts the loop. *)
Lemma Batch_loop_total items : ∀ i s, ∃ s', Batch.loop p a total len i items s = (Ok tt, s').
Proof.
  induction items as [|author rest IH]; intros i s; [by eexists|].
  destruct (Batch_loop_step i author rest s) as (s1 & _ & ->). apply IH.
Qed.

Lemma Batch_loop_tally items : ∀ i s s',
  Batch.loop p a total len i items s = (Ok tt, s') →
  (successCount (tally s') + skipCount (tally s') + errorCount (tally s')
   = successCount (tally s) + skipCount (tally s) + errorCount (tally s) + length items)%nat ∧
  ∃ new, errors (tally s') = errors (tally s) ++ new ∧
         errorCount (tally s') = (errorCount (tally s) + length new)%nat ∧
         Forall (λ entry, entry.1 ∈ items) new.
Proof.
  induction items as [|author rest IH]; intros i s s'.
  - intros [= <-]. split; [simpl; lia|]. exists []. rewrite app_nil_r. simpl. auto.
  - destruct (Batch_loop_step i author rest s) as (s1 & Hitem & ->). intros Hrest.
    destruct (IH _ _ _ Hrest) as (Hsum & new & Herr & Hcount & Hnames).
    assert (Hin : Forall (λ entry : jsstring * jsstring, entry.1 ∈ author :: rest) new).
    { eapply Forall_impl; [exact Hnames|]. intros. apply elem_of_cons. by right. }
    destruct (batch_item_tally _ _ _ _ _ _ _ _ Hitem) as [Ht | [Ht | [e Ht]]];
      rewrite Ht in *; simpl in *.
    + split; [lia|]. by exists new.
    + split; [lia|]. by exists new.
    + split; [lia|]. exists ((author, e) :: new). rewrite Herr, <- app_assoc. simpl.
      split; [done|]. split; [lia|]. constructor; [apply elem_of_cons; by left|done].
Qed.

(** The loop touches neither the catalog nor the files that are there; it
    only adds requests; and when it counts no error, the file of every item
    is there at the end and the manifest file is as it was or holds a
    document. *)
Lemma Batch_loop_store items : ∀ i s s',
  Batch.loop p a total len i items s = (Ok tt, s') →
  authors_json (world s') = authors_json (world s) ∧
  dom (images (world s)) ⊆ dom (images (world s')) ∧
  (errorCount (tally s') = errorCount (tally s) →
   (∀ author, author ∈ items → filepath author ∈ dom (images (world s'))) ∧
   (manifest_json (world s') = manifest_json (world s) ∨
    ∃ m, manifest_json (world s') = Some (inr m) ∧
         total_avatars m = Z.of_nat (size (avatars m)))) ∧
  (∃ more, requests (world s') = requests (world s) ++ more).
Proof.
  induction items as [|author rest IH]; intros i s s'.
  - intros [= <-]. split; [done|]. split; [done|]. split.
    + intros _. split; [|by left]. intros author Hin. by apply elem_of_nil in Hin.
    + exists []. by rewrite app_nil_r.
  - destruct (Batch_loop_step i author rest s) as (s1 & Hitem & ->). intros Hrest.
    destruct (IH _ _ _ Hrest) as (Ha & Hd & Hf & more & Hr).
    destruct (batch_item_store _ _ _ _ _ _ _ _ Hitem) as (Ha1 & Hd1 & Hf1 & more1 & Hr1).
    destruct (Batch_loop_tally _ _ _ _ Hrest) as (_ & new & _ & Hcount & _).
    split; [congruence|]. split; [by etrans|]. split.
    + intros Hno.
      assert (Hno1 : errorCount (tally s1) = errorCount (tally s)).
      { destruct (batch_item_tally _ _ _ _ _ _ _ _ Hitem) as [Ht | [Ht | [e Ht]]];
          rewrite Ht in *; simpl in *; lia. }
      destruct (Hf1 Hno1) as [Hfile1 Hm1].
      destruct (Hf ltac:(congruence)) as [Hfiles Hm]. split.
      * intros author' Hin. apply elem_of_cons in Hin as [->|Hin]; [by apply Hd|by apply Hfiles].
      * destruct Hm as [Hm|Hm]; [|by right]. rewrite Hm.
        destruct Hm1 as [Hm1|[Hm1 Hsize]]; [by left|]. right. by eexists.
    + exists (more1 ++ more). by rewrite Hr, Hr1, app_assoc.
Qed.

(** Each item opens exactly one line of the run log, in order. *)
Lemma Batch_loop_lines items : ∀ i s s',
  Batch.loop p a total len i items s = (Ok tt, s') →
  item_lines (log_lines (Batch.LOG_FILE p) (world s'))
  = item_lines (log_lines (Batch.LOG_FILE p) (world s))
    ++ imap (λ j author, (position (i + j), author)) items.
Proof.
  induction items as [|author rest IH]; intros i s s'.
  - intros [= <-]. by rewrite app_nil_r.
  - destruct (Batch_loop_step i author rest s) as (s1 & Hitem & ->). intros Hrest.
    rewrite (IH _ _ _ Hrest), (batch_item_lines _ _ _ _ _ _ _ _ Hitem), <- app_assoc.
    simpl. f_equal. f_equal; [by rewrite Nat.add_0_r|].
    apply imap_ext. intros j x _. simpl. by rewrite Nat.add_succ_r.
Qed.

(** When the file of every item is there, the loop skips them all: it
    sends no request and writes nothing. *)
Lemma Batch_loop_all_present items : ∀ i s s',
  (∀ author, author ∈ items → filepath author ∈ dom (images (world s))) →
  Batch.loop p a total len i items s = (Ok tt, s') →
  requests (world s') = requests (world s) ∧ images (world s') = images (world s) ∧
  manifest s' = manifest s ∧ manifest_json (world s') = manifest_json (world s) ∧
  skipCount (tally s') = (skipCount (tally s) + length items)%nat ∧
  successCount (tally s') = successCount (tally s) ∧
  errorCount (tally s') = errorCount (tally s) ∧
  errors (tally s') = errors (tally s).
Proof.
  induction items as [|author rest IH]; intros i s s' Hall.
  - intros [= <-]. repeat split; auto.
  - destruct (Batch_loop_step i author rest s) as (s1 & Hitem & ->). intros Hrest.
    assert (Hhere : is_Some (images (world s) !! filepath author)).
    { apply elem_of_dom, Hall. by left. }
    destruct (batch_item_present _ _ _ _ _ _ _ _ Hitem Hhere) as (Ht & Hm & Hr & Hi & Hj).
    destruct (IH _ _ _ ltac:(intros x Hx; rewrite Hi; apply Hall; by right) Hrest)
      as (? & ? & ? & ? & ? & ? & ? & ?).
    rewrite Ht in *. simpl in *. repeat split; try congruence. lia.
Qed.

(** What the loop sends: one request per item whose file is missing when
    its turn comes, and such an item had no file when the loop began; so the
    loop sends nothing exactly when the file of every item is there. *)
Lemma Batch_loop_attempts items : ∀ i s s',
  Batch.loop p a total len i items s = (Ok tt, s') →
  (∃ sent, requests (world s')
           = requests (world s) ++ (request_for p ∘ Batch.prompt <$> sent) ∧
           sent `sublist_of` items ∧
           Forall (λ author, images (world s) !! filepath author = None) sent) ∧
  (requests (world s') = requests (world s) ↔
   ∀ author, author ∈ items → filepath author ∈ dom (images (world s))).
Proof.
  induction items as [|author rest IH]; intros i s s'.
  - intros [= <-]. split.
    + exists []. simpl. by rewrite app_nil_r.
    + split; [|done]. intros _ author Hin. by apply elem_of_nil in Hin.
  - destruct (Batch_loop_step i author rest s) as (s1 & Hitem & ->). intros Hrest.
    destruct (IH _ _ _ Hrest) as ((sent & Hr & Hsub & Hnone) & Hiff).
    destruct (batch_item_store _ _ _ _ _ _ _ _ Hitem) as (_ & Hd1 & _ & _).
    assert (Hback : Forall (λ x, images (world s) !! filepath x = None) sent).
    { eapply Forall_impl; [exact Hnone|]. intros x Hx. simpl in Hx.
      apply not_elem_of_dom. intros Hin. apply Hd1 in Hin.
      by apply not_elem_of_dom in Hx. }
    destruct (images (world s) !! filepath author) as [content|] eqn:Hfile.
    + destruct (batch_item_present _ _ _ _ _ _ _ _ Hitem ltac:(by eexists))
        as (_ & _ & Hr1 & Hi1 & _).
      split.
      * exists sent. rewrite Hr, Hr1. split; [done|]. split; [by apply sublist_cons|done].
      * rewrite <- Hr1, Hiff, Hi1. split.
        -- intros Hall x Hx. apply elem_of_cons in Hx as [->|Hx]; [|by apply Hall].
           apply elem_of_dom. by eexists.
        -- intros Hall x Hx. apply Hall. by right.
    + pose proof (batch_item_absent _ _ _ _ _ _ _ _ Hitem Hfile) as Hr1.
      split.
      * exists (author :: sent). rewrite Hr, Hr1, <- app_assoc. split; [done|].
        split; [by apply sublist_skip|]. by constructor.
      * split.
        -- intros Heq. rewrite Hr, Hr1, <- app_assoc in Heq.
           apply (f_equal length) in Heq. rewrite length_app in Heq. simpl in Heq. lia.
        -- intros Hall. exfalso. specialize (Hall author ltac:(by left)).
           apply elem_of_dom in Hall as [? Hall]. by rewrite Hfile in Hall.
Qed.
End BatchLoop.

(** ** [main] of the catalog driver *)

Section Quiet.
Context (p : Platform) (file : jsstring).

Lemma quiet_ret {A} (x : A) : quiet file (ret x).
Proof. intros w. eexists _, _. split; [reflexivity|]. split; [apply same_store_refl|done]. Qed.

Lemma quiet_bind {A B} (m : M World A) (k : A → M World B) :
  quiet file m → (∀ x, quiet file (k x)) → quiet file (bind m k).
Proof.
  intros Hm Hk w. destruct (Hm w) as (x & w1 & E & F & L).
  destruct (Hk x w1) as (y & w2 & E' & F' & L').
  exists y, w2. unfold bind. rewrite E, E'. split; [done|].
  split; [by eapply same_store_trans|congruence].
Qed.

Lemma quiet_when c (m : M World unit) : quiet file m → quiet file (when c m).
Proof. destruct c; [done|]. intros _. apply quiet_ret. Qed.

Lemma quiet_log stamped message :
  fs_fault p file = None → item_lines [(0%N, message)] = [] →
  quiet file (log_to p file stamped message).
Proof.
  intros Hlog Hmsg w. eexists _, _. split; [by apply log_to_ok|].
  split; [apply same_store_logged|].
  rewrite log_lines_logged, item_lines_app.
  replace (item_lines [(Date_now p (ticks w), message)]) with (item_lines [(0%N, message)])
    by done.
  by rewrite Hmsg, app_nil_r.
Qed.

Lemma bind_ok {S A B} (m : M S A) (k : A → M S B) s x s1 :
  m s = (Ok x, s1) → bind m k s = k x s1.
Proof. intros E. unfold bind. by rewrite E. Qed.

Lemma quiet_now : quiet file (now p).
Proof. intros w. eexists _, _. split; [reflexivity|]. by repeat split. Qed.
End Quiet.

Ltac quiet_steps :=
  repeat first
    [ apply quiet_log; [assumption | reflexivity] | apply quiet_when | apply quiet_ret
    | apply quiet_bind; [|intros ?] ].

Lemma inW_ok {A} (m : M World A) s x w' :
  m (world s) = (Ok x, w') →
  inW m s = (Ok x, {| world := w'; manifest := manifest s; tally := tally s |}).
Proof. intros E. unfold inW. by rewrite E. Qed.

Section BatchMain.
Context (p : Platform) (Hlog : fs_fault p (Batch.LOG_FILE p) = None).

Lemma Batch_log_errors_quiet l : quiet (Batch.LOG_FILE p) (Batch.log_errors p l).
Proof.
  induction l as [|[author e] rest IH]; simpl; [apply quiet_ret|].
  unfold Batch.log. quiet_steps. exact IH.
Qed.

(** [loadManifest] on a manifest file that is absent or parses. *)
Lemma loadManifest_quiet w :
  (∀ e, manifest_json w ≠ Some (inl e)) →
  ∃ m w', loadManifest p w = (Ok m, w') ∧ same_store w w' ∧
          item_lines (log_lines (Batch.LOG_FILE p) w')
          = item_lines (log_lines (Batch.LOG_FILE p) w) ∧
          item_lines (log_lines (Regenerate.LOG_FILE p) w')
          = item_lines (log_lines (Regenerate.LOG_FILE p) w).
Proof.
  intros Hm. unfold loadManifest, bind, gets. simpl.
  destruct (manifest_json w) as [[e|m]|] eqn:E; [by destruct (Hm e)| |]; simpl.
  - eexists _, _. split; [reflexivity|]. by repeat split.
  - eexists _, _. split; [reflexivity|]. by repeat split.
Qed.

(** A run of [main] with its credential, a readable catalog and a manifest
    that loads: the lines before the loop, the loop on the selected range,
    the summary; [main] returns normally. *)
Lemma Batch_main_run a w authors :
  key_missing p = false →
  authors_json w = Some (inr authors) →
  (∀ e, manifest_json w ≠ Some (inl e)) →
  let items := Batch.authorsToProcess a authors in
  ∃ m w0 s1 w',
    same_store w w0 ∧
    item_lines (log_lines (Batch.LOG_FILE p) w0)
    = item_lines (log_lines (Batch.LOG_FILE p) w) ∧
    Batch.loop p a (length authors) (length items) 0 items
      {| world := w0; manifest := m; tally := no_tally |} = (Ok tt, s1) ∧
    Batch.main p a w = (Ok (tally s1), w') ∧
    same_store (world s1) w' ∧
    item_lines (log_lines (Batch.LOG_FILE p) w')
    = item_lines (log_lines (Batch.LOG_FILE p) (world s1)).
Proof.
  intros Hkey Hauth Hman items.
  unfold Batch.main. rewrite Hkey.
  erewrite bind_ok by (unfold Batch.read_authors, bind, gets; rewrite Hauth; reflexivity).
  unfold Batch.log.
  do 5 (erewrite bind_ok by (by apply log_to_ok)).
  match goal with |- context [bind (loadManifest p) _ ?x] => set (w5 := x) end.
  destruct (loadManifest_quiet w5 Hman) as (m & w6 & Eload & Fload & Lload & _).
  erewrite bind_ok by exact Eload.
  unfold with_locals.
  erewrite bind_ok by (apply inW_ok; by apply log_to_ok).
  simpl world. simpl manifest. simpl tally.
  match goal with |- context [bind (Batch.loop p a ?t ?l 0 ?it) _ ?s0] =>
    destruct (Batch_loop_total p Hlog a t l it 0 s0) as (s1 & Eloop) end.
  erewrite bind_ok by exact Eloop.
  erewrite bind_ok by reflexivity.
  erewrite bind_ok by reflexivity.
  match goal with |- context [bind (inW ?e) _ _] =>
    assert (Hq : quiet (Batch.LOG_FILE p) e) end.
  { quiet_steps. apply Batch_log_errors_quiet; done. }
  destruct (Hq (world s1)) as ([] & w' & Eq & Fq & Lq).
  erewrite bind_ok by (apply inW_ok; exact Eq).
  eexists m, _, s1, w'. split; [|split; [|split; [exact Eloop|]]].
  - eapply same_store_trans; [|apply same_store_logged].
    eapply same_store_trans; [|exact Fload]. subst w5. by repeat split.
  - rewrite log_lines_logged, item_lines_app. simpl. rewrite app_nil_r, Lload.
    subst w5. autorewrite with log_lines. simpl. by rewrite ?app_nil_r.
  - done.
Qed.
End BatchMain.

(** ** The targeted driver *)

Section RegeneratePass.
Context (p : Platform).

Lemma store_ret {A} (x : A) : store_step (ret x).
Proof. intros w. eexists _, _. split; [reflexivity|]. by repeat split. Qed.

Lemma store_throw {A} e : store_step (A := A) (throw e).
Proof. intros w. eexists _, _. split; [reflexivity|]. by repeat split. Qed.

Lemma store_bind {A B} (m : M World A) (k : A → M World B) :
  store_step m → (∀ x, store_step (k x)) → store_step (bind m k).
Proof.
  intros Hm Hk w. unfold bind. destruct (Hm w) as (r & w1 & -> & Hr & ? & ? & ?).
  destruct r as [x|e|c]; [|by eexists _, _; repeat split|by destruct (Hr c)].
  destruct (Hk x w1) as (r' & w2 & -> & Hr' & ? & ? & ?).
  eexists _, _. split; [reflexivity|]. repeat split; [done|congruence..].
Qed.

Lemma store_when c (m : M World unit) : store_step m → store_step (when c m).
Proof. destruct c; [done|]. intros _. apply store_ret. Qed.

Lemma store_lift_sum {A} (r : jsstring + A) : store_step (lift_sum r).
Proof. destruct r; [apply store_throw|apply store_ret]. Qed.

Lemma store_existsSync path : store_step (existsSync path).
Proof. intros w. eexists _, _. split; [reflexivity|]. by repeat split. Qed.

Lemma store_writeFileSync path buffer : store_step (writeFileSync p path buffer).
Proof.
  intros w. unfold writeFileSync. destruct (fs_fault p path).
  - destruct (fs_point p path); [apply store_throw|..];
      (eexists _, _; split; [reflexivity|]; by repeat split).
  - eexists _, _. split; [reflexivity|]. by repeat split.
Qed.

Lemma store_copyFileSync src dest : store_step (copyFileSync p src dest).
Proof.
  intros w. unfold copyFileSync, bind, gets. simpl.
  destruct (images w !! src); [|apply store_throw].
  destruct (fs_fault p dest).
  - destruct (fs_point p dest); [apply store_throw|..];
      (eexists _, _; split; [reflexivity|]; by repeat split).
  - eexists _, _. split; [reflexivity|]. by repeat split.
Qed.

Lemma store_log_to file stamped message : store_step (log_to p file stamped message).
Proof.
  intros w. destruct (log_to_cases p file stamped message w)
    as (r & w' & -> & (? & ? & ? & ?) & Hr).
  eexists _, _. split; [reflexivity|]. repeat split; try done.
  intros c ->. by destruct Hr as [[[=] _]|[? [=]]].
Qed.

Lemma returns_ret {S A} (x : A) : returns (S := S) x (ret x).
Proof. by intros s r s' [= <- _]. Qed.

Lemma returns_bind {S A B} (x : B) (m : M S A) (k : A → M S B) :
  (∀ a, returns x (k a)) → returns x (bind m k).
Proof.
  intros Hk s r s'. unfold bind. destruct (m s) as [[a|e|c] s1]; [apply Hk|done..].
Qed.

(** The targeted driver's persister ends normally or throws, returns the
    normalized name, and touches neither the manifest file nor the
    network. *)
Lemma Regenerate_saveAvatar_frame author data w :
  ∃ r w', Regenerate.saveAvatar p author data w = (r, w') ∧
          (∀ c, r ≠ Exit c) ∧
          (∀ file, r = Ok file → file = normalizeFilename p author) ∧
          manifest_json w' = manifest_json w ∧ authors_json w' = authors_json w ∧
          requests w' = requests w.
Proof.
  assert (Hs : store_step (Regenerate.saveAvatar p author data)).
  { unfold Regenerate.saveAvatar, Regenerate.log.
    repeat first
      [ apply store_log_to | apply store_existsSync | apply store_writeFileSync
      | apply store_copyFileSync | apply store_lift_sum | apply store_when
      | apply store_ret | apply store_bind; [|intros ?] ]. }
  assert (Hr : returns (normalizeFilename p author) (Regenerate.saveAvatar p author data)).
  { unfold Regenerate.saveAvatar. repeat (apply returns_bind; intros ?). apply returns_ret. }
  destruct (Hs w) as (r & w' & E & Hne & ? & ? & ?).
  exists r, w'. repeat split; try done.
  intros file ->. by apply Hr in E.
Qed.
End RegeneratePass.

Ltac case_regenerate_save :=
  match goal with
  | |- context [Regenerate.saveAvatar ?p ?a ?d ?w] =>
      let r := fresh "r" in let w' := fresh "w" in let E := fresh "V" in
      let N := fresh "N" in let Hf := fresh "Hfile" in
      destruct (Regenerate_saveAvatar_frame p a d w) as (r & w' & E & N & Hf & ? & ? & ?);
      rewrite E;
      destruct r as [?|?|?];
        [ rewrite (Hf _ eq_refl) in *; clear Hf | | by edestruct N ]; simpl in *
  end.

Section RegenerateLoop.
Context (p : Platform).

(** As for the catalog driver: the manifest object and file either stay
    as they were, or the client and the persister both succeeded. *)
Lemma Regenerate_iteration_manifest n i author s r s' :
  Regenerate.iteration p n i author s = (r, s') →
  (manifest s' = manifest s ∧ manifest_json (world s') = manifest_json (world s) ∧
   successCount (tally s') = successCount (tally s)) ∨
  (∃ w1 data w2 w3 generated stamp,
      same_store (world s) w1 ∧
      Regenerate.generateAvatar p author w1 = (Ok data, w2) ∧
      Regenerate.saveAvatar p author data w2 = (Ok (normalizeFilename p author), w3) ∧
      manifest s' = stamped_manifest stamp
        (put_avatar author {| filename := normalizeFilename p author;
                              generated_at := generated; regenerated := true |}
           (manifest s)) ∧
      match fs_fault p (MANIFEST_FILE p) with
      | None => manifest_json (world s') = Some (inr (manifest s'))
      | Some _ => successCount (tally s') = successCount (tally s) ∧
                  manifest_json (world s')
                  = match fs_point p (MANIFEST_FILE p) with
                    | AtOpen => manifest_json (world s)
                    | AtWrite written => Some (inl (JSON_cut p (manifest s') written))
                    | AtClose => Some (inr (manifest s'))
                    end
      end).
Proof.
  unfold Regenerate.iteration, bind, try_catch, inW, Regenerate.log,
    Regenerate.generateAvatar.
  simpl.
  match goal with |- _ = _ → ?C => assert (Hleft : ∀ (r0 : Outcome ()) s0,
    manifest s0 = manifest s → manifest_json (world s0) = manifest_json (world s) →
    successCount (tally s0) = successCount (tally s) →
    (r0, s0) = (r, s') → C) by (intros r0 s0 ? ? ? [= <- <-]; left; eauto) end.
  case_log.
  2: { case_log; apply Hleft; simpl; open_stores; congruence. }
  case_generate.
  2: { case_log; apply Hleft; simpl; open_stores; congruence. }
  case_regenerate_save.
  2: { case_log; apply Hleft; simpl; open_stores; congruence. }
  match goal with |- _ = _ → ?C => assert (Hright : ∀ (r0 : Outcome ()) s0,
    manifest s0 = stamped_manifest (Date_now p (S (ticks w)))
      (put_avatar author {| filename := normalizeFilename p author;
                            generated_at := Date_now p (ticks w);
                            regenerated := true |} (manifest s)) →
    match fs_fault p (MANIFEST_FILE p) with
    | None => manifest_json (world s0) = Some (inr (manifest s0))
    | Some _ => successCount (tally s0) = successCount (tally s) ∧
                manifest_json (world s0)
                = match fs_point p (MANIFEST_FILE p) with
                  | AtOpen => manifest_json (world s)
                  | AtWrite written => Some (inl (JSON_cut p (manifest s0) written))
                  | AtClose => Some (inr (manifest s0))
                  end
    end →
    (r0, s0) = (r, s') → C) end.
  { intros r0 s0 Hm Hj [= <- <-]. right. eexists _, _, _, _, _, _.
    split; [exact F|]. split; [exact G|]. split; [exact V|]. split; [exact Hm|]. exact Hj. }
  case_save_manifest.
  + case_log; apply Hright; rewrite ?W; simpl; open_residues; open_stores;
      split; congruence.
  + case_log.
    * destruct (bool_decide (i < n - 1)%nat); simpl.
      -- case_log; [apply Hright; rewrite ?W; simpl; done|].
         case_log; apply Hright; rewrite ?W; simpl; open_stores; congruence.
      -- apply Hright; rewrite ?W; simpl; done.
    * case_log; apply Hright; rewrite ?W; simpl; open_stores; congruence.
Qed.

Context (Hlog : fs_fault p (Regenerate.LOG_FILE p) = None).

(** With a writable run log, the pass ends normally, in one of the four
    ways of [regenerate_item]. *)
Lemma Regenerate_iteration_outcome n i author s :
  ∃ s', Regenerate.iteration p n i author s = (Ok tt, s') ∧
        regenerate_item p n i author s s'.
Proof.
  unfold Regenerate.iteration, bind, try_catch, inW, Regenerate.log.
  simpl. rewrite log_to_ok by done. simpl.
  destruct (Regenerate.generateAvatar p author _) as [[data|e|c] w2] eqn:G.
  3: { unfold Regenerate.generateAvatar in G.
       destruct (generateAvatar_with_frame p (Regenerate.prompt author)
         (logged p (Regenerate.LOG_FILE p) false
            (MRegenerating (of_nat (i + 1)) n author) (world s))) as (r & G' & N).
       rewrite G' in G. injection G as -> _. by destruct (N c). }
  2: { simpl. rewrite log_to_ok by done. simpl.
       eexists. split; [reflexivity|]. by eapply regenerate_generation_failed. }
  simpl.
  destruct (Regenerate_saveAvatar_frame p author data w2)
    as (r & w3 & V & N & Hfile & _); rewrite V.
  destruct r as [file|e|c]; [rewrite (Hfile _ eq_refl) in *| |by destruct (N c)]; simpl.
  2: { rewrite log_to_ok by done. simpl.
       eexists. split; [reflexivity|]. by eapply regenerate_save_failed. }
  case_save_manifest.
  - rewrite log_to_ok by done. simpl.
    eexists. split; [reflexivity|]. by eapply regenerate_manifest_failed.
  - rewrite log_to_ok by done. simpl.
    destruct (bool_decide (i < n - 1)%nat) eqn:Hlast; simpl.
    + rewrite log_to_ok by done. simpl.
      eexists. split; [reflexivity|].
      eapply regenerate_succeeded; [done..|]. by rewrite Hlast.
    + eexists. split; [reflexivity|].
      eapply regenerate_succeeded; [done..|]. by rewrite Hlast.
Qed.

Lemma regenerate_item_tally n i author s s' :
  regenerate_item p n i author s s' →
  tally s' = succeeded (tally s) ∨ ∃ e, tally s' = failed author e (tally s).
Proof. intros H. destruct H; subst; simpl; eauto. Qed.

Lemma Regenerate_loop_step n i author rest s :
  ∃ s1, regenerate_item p n i author s s1 ∧
        Regenerate.loop p n i (author :: rest) s = Regenerate.loop p n (S i) rest s1.
Proof.
  destruct (Regenerate_iteration_outcome n i author s) as (s1 & E & Hitem).
  exists s1. split; [done|]. simpl. unfold bind. by rewrite E.
Qed.

Lemma Regenerate_loop_total n items :
  ∀ i s, ∃ s', Regenerate.loop p n i items s = (Ok tt, s').
Proof.
  induction items as [|author rest IH]; intros i s; [by eexists|].
  destruct (Regenerate_loop_step n i author rest s) as (s1 & _ & ->). apply IH.
Qed.

Lemma Regenerate_loop_tally n items : ∀ i s s',
  Regenerate.loop p n i items s = (Ok tt, s') →
  (successCount (tally s') + errorCount (tally s')
   = successCount (tally s) + errorCount (tally s) + length items)%nat ∧
  skipCount (tally s') = skipCount (tally s) ∧
  ∃ new, errors (tally s') = errors (tally s) ++ new ∧
         errorCount (tally s') = (errorCount (tally s) + length new)%nat ∧
         Forall (λ entry, entry.1 ∈ items) new.
Proof.
  induction items as [|author rest IH]; intros i s s'.
  - intros [= <-]. split; [simpl; lia|]. split; [done|].
    exists []. rewrite app_nil_r. simpl. auto.
  - destruct (Regenerate_loop_step n i author rest s) as (s1 & Hitem & ->). intros Hrest.
    destruct (IH _ _ _ Hrest) as (Hsum & Hskip & new & Herr & Hcount & Hnames).
    assert (Hin : Forall (λ entry : jsstring * jsstring, entry.1 ∈ author :: rest) new).
    { eapply Forall_impl; [exact Hnames|]. intros. apply elem_of_cons. by right. }
    destruct (regenerate_item_tally _ _ _ _ _ Hitem) as [Ht | [e Ht]];
      rewrite Ht in *; simpl in *.
    + split; [lia|]. split; [done|]. by exists new.
    + split; [lia|]. split; [done|].
      exists ((author, e) :: new). rewrite Herr, <- app_assoc. simpl.
      split; [done|]. split; [lia|]. constructor; [apply elem_of_cons; by left|done].
Qed.

Lemma Regenerate_log_errors_quiet l :
  quiet (Regenerate.LOG_FILE p) (Regenerate.log_errors p l).
Proof.
  induction l as [|[author e] rest IH]; simpl; [apply quiet_ret|].
  unfold Regenerate.log. quiet_steps. exact IH.
Qed.

Lemma Regenerate_log_numbered_quiet l :
  ∀ i, quiet (Regenerate.LOG_FILE p) (Regenerate.log_numbered p i l).
Proof.
  induction l as [|author rest IH]; intros i; simpl; [apply quiet_ret|].
  unfold Regenerate.log. quiet_steps. apply IH.
Qed.

(** A run of [main] with its credential and a manifest that loads. *)
Lemma Regenerate_main_run names w :
  key_missing p = false →
  (∀ e, manifest_json w ≠ Some (inl e)) →
  ∃ m w0 s1 w',
    same_store w w0 ∧
    Regenerate.loop p (length names) 0 names
      {| world := w0; manifest := m; tally := no_tally |} = (Ok tt, s1) ∧
    Regenerate.main p names w = (Ok (tally s1), w') ∧
    same_store (world s1) w'.
Proof.
  intros Hkey Hman.
  unfold Regenerate.main. rewrite Hkey.
  assert (Hq0 : quiet (Regenerate.LOG_FILE p)
    (Regenerate.log p MRegenStarted >>
     Regenerate.log p (MAuthorsToRegenerate (length names)) >>
     Regenerate.log_numbered p 0 names >>
     Regenerate.log p MBlank)).
  { unfold Regenerate.log. quiet_steps. apply Regenerate_log_numbered_quiet. }
  destruct (Hq0 w) as ([] & w4 & E0 & F0 & _).
  unfold bind in E0 |- *.
  destruct (Regenerate.log p MRegenStarted w) as [[[]|?|?] ?]; [|done..].
  destruct (Regenerate.log p (MAuthorsToRegenerate (length names)) _) as [[[]|?|?] ?];
    [|done..].
  destruct (Regenerate.log_numbered p 0 names _) as [[[]|?|?] ?]; [|done..].
  rewrite E0.
  destruct (loadManifest_quiet p w4) as (m & w5 & -> & Fload & _).
  { destruct F0 as (_ & -> & _). done. }
  unfold with_locals.
  match goal with |- context [Regenerate.loop p ?n 0 ?it ?s0] =>
    destruct (Regenerate_loop_total n it 0 s0) as (s1 & Eloop) end.
  rewrite Eloop. unfold gets. simpl.
  match goal with |- context [inW ?e] =>
    assert (Hq : quiet (Regenerate.LOG_FILE p) e) end.
  { unfold Regenerate.log. quiet_steps. apply Regenerate_log_errors_quiet. }
  destruct (Hq (world s1)) as ([] & w' & Eq & Fq & _).
  erewrite inW_ok by exact Eq. simpl.
  eexists m, _, s1, w'. split; [|split; [exact Eloop|done]].
  by eapply same_store_trans.
Qed.
End RegenerateLoop.

(** ** The passes of the loops *)

Section Passes.
Context (pass : nat → jsstring → M State unit) (fate : nat → jsstring → State → Fate).

(** The counters after the passes: one fate per item; [errors] gets the
    failures, in order; each counter grows by the number of items of its
    fate. *)
Lemma failures_cons author f rest fates :
  failures (author :: rest) (f :: fates)
  = match f with Failed message => [(author, message)] | _ => [] end ++ failures rest fates.
Proof. by destruct f. Qed.

Lemma passes_tally i items s fates s' :
  passes pass fate i items s fates s' →
  length fates = length items ∧
  errors (tally s') = errors (tally s) ++ failures items fates ∧
  errorCount (tally s') = (errorCount (tally s) + length (failures items fates))%nat ∧
  successCount (tally s') = (successCount (tally s) + length (List.filter completed fates))%nat ∧
  skipCount (tally s') = (skipCount (tally s) + length (List.filter was_skipped fates))%nat.
Proof.
  induction 1 as [i s|i author rest s s1 fates s' E Ht _ (Hl & He & Hc & Hs & Hk)].
  - unfold failures. simpl. rewrite app_nil_r. repeat split; lia.
  - rewrite failures_cons, He, Hc, Hs, Hk, Ht.
    destruct (fate i author s); cbn [tally_after List.filter completed was_skipped];
      rewrite ?length_app; simpl; rewrite <- ?app_assoc; repeat split; simpl; lia.
Qed.

(** Every item has its pass, which ends normally. *)
Lemma passes_each i items s fates s' :
  passes pass fate i items s fates s' →
  ∀ j author, items !! j = Some author →
    ∃ sj sj', pass (i + j)%nat author sj = (Ok tt, sj') ∧
              fates !! j = Some (fate (i + j)%nat author sj) ∧
              tally sj' = tally_after author (fate (i + j)%nat author sj) (tally sj).
Proof.
  induction 1 as [i s|i author rest s s1 fates s' E Ht _ IH]; intros j x Hj; [done|].
  destruct j as [|j]; simpl in Hj.
  - injection Hj as <-. rewrite Nat.add_0_r. by eexists _, _.
  - destruct (IH j x Hj) as (sj & sj' & ? & ? & ?).
    rewrite Nat.add_succ_r. by eexists _, _.
Qed.
End Passes.

Section BatchPasses.
Context (p : Platform) (Hlog : fs_fault p (Batch.LOG_FILE p) = None).
Context (a : Batch.Args) (total len : nat).

(** A pass ends normally and counts its item by its fate. *)
Lemma Batch_iteration_fate i author s :
  ∃ s', Batch.iteration p a total len i author s = (Ok tt, s') ∧
        tally s' = tally_after author (batch_fate p a total i author s) (tally s).
Proof.
  destruct (Batch_iteration_outcome p a total len i author s Hlog) as (s' & E & Hitem).
  exists s'. split; [done|]. unfold batch_fate, attempt, bind, inW.
  destruct Hitem as [c Hc -> | e w2 Hc G -> | d e w2 Hc G _ V ->
                    | d b e w2 Hc G _ _ V -> | d b e w2 Hc G _ V W m' ->
                    | d b w2 Hc G _ V W m' ->]; cbn [world manifest tally];
    [by rewrite bool_decide_eq_true_2 by by eexists|..];
    rewrite bool_decide_eq_false_2 by (rewrite Hc; by intros [? [=]]);
    repeat first [progress cbn [world manifest tally] | rewrite G | rewrite V]; try done;
    unfold now, set_avatar, modify; cbn [world manifest tally];
    by rewrite saveManifest_eq, W.
Qed.

(** The loop runs the pass on every item, in order, whatever the fates of
    the items before. *)
Lemma Batch_loop_passes items : ∀ i s,
  ∃ s' fates, Batch.loop p a total len i items s = (Ok tt, s') ∧
              passes (Batch.iteration p a total len) (batch_fate p a total) i items s fates s'.
Proof.
  induction items as [|author rest IH]; intros i s.
  - eexists _, _. split; [reflexivity|]. constructor.
  - destruct (Batch_iteration_fate i author s) as (s1 & E & Ht).
    destruct (IH (S i) s1) as (s' & fates & Eloop & Hp).
    exists s', (batch_fate p a total i author s :: fates). split.
    + simpl. unfold bind. by rewrite E.
    + by econstructor.
Qed.
End BatchPasses.

Section RegeneratePasses.
Context (p : Platform) (Hlog : fs_fault p (Regenerate.LOG_FILE p) = None).
Context (n : nat).

Lemma Regenerate_iteration_fate i author s :
  ∃ s', Regenerate.iteration p n i author s = (Ok tt, s') ∧
        tally s' = tally_after author (regenerate_fate p n i author s) (tally s).
Proof.
  destruct (Regenerate_iteration_outcome p Hlog n i author s) as (s' & E & Hitem).
  exists s'. split; [done|]. unfold regenerate_fate, attempt, bind, inW.
  destruct Hitem as [e w2 G -> | d e w2 w3 G V ->
                    | d e w2 w3 G V W m' -> | d w2 w3 G V W m' ->]; cbn [world manifest tally];
    repeat first [progress cbn [world manifest tally] | rewrite G | rewrite V]; try done;
    unfold now, set_avatar, modify; cbn [world manifest tally];
    by rewrite saveManifest_eq, W.
Qed.

Lemma Regenerate_loop_passes items : ∀ i s,
  ∃ s' fates, Regenerate.loop p n i items s = (Ok tt, s') ∧
              passes (Regenerate.iteration p n) (regenerate_fate p n) i items s fates s'.
Proof.
  induction items as [|author rest IH]; intros i s.
  - eexists _, _. split; [reflexivity|]. constructor.
  - destruct (Regenerate_iteration_fate i author s) as (s1 & E & Ht).
    destruct (IH (S i) s1) as (s' & fates & Eloop & Hp).
    exists s', (regenerate_fate p n i author s :: fates). split.
    + simpl. unfold bind. by rewrite E.
    + by econstructor.
Qed.

(** The targeted driver skips no item. *)
Lemma regenerate_fates_not_skipped i items s fates s' :
  passes (Regenerate.iteration p n) (regenerate_fate p n) i items s fates s' →
  List.filter was_skipped fates = [].
Proof.
  induction 1 as [|i author rest s s1 fates s' _ _ _ IH]; [done|].
  simpl. unfold regenerate_fate at 1. by destruct (fst _).
Qed.
End RegeneratePasses.

(** * The claims *)

(** ** Fatal conditions at startup *)

(** C9. With no API credential configured ([GEMINI_API_KEY] unset or
    empty), either script exits with code 1 and sends no request: the world
    it leaves differs from the one it found by the console only. *)
Theorem credential_absence_is_fatal (p : Platform) :
  key_missing p = true →
  (∀ a w, ∃ w', Batch.script p a w = (1, w') ∧
                requests w' = requests w ∧ images w' = images w ∧
                manifest_json w' = manifest_json w ∧ logs w' = logs w) ∧
  (∀ names w, ∃ w', Regenerate.script p names w = (1, w') ∧
                    requests w' = requests w ∧ images w' = images w ∧
                    manifest_json w' = manifest_json w ∧ logs w' = logs w).
Proof.
  intros Hkey. split.
  - intros a w. unfold Batch.script, Batch.main. rewrite Hkey.
    eexists. split; [reflexivity|]. by repeat split.
  - intros names w. unfold Regenerate.script, Regenerate.main. rewrite Hkey.
    destruct names; (eexists; split; [reflexivity|]; by repeat split).
Qed.

Lemma credential_absence_is_fatal_witness :
  fst (Batch.script (Fixture.platform None (λ _ _, Responded (Fixture.image_response (lit "aGk=")))
                       (λ _, None))
         {| Batch.startIndex := Some 0; Batch.limit := Some 0; Batch.delay := Some 1000 |}
         (Fixture.with_catalog [lit "Plato"; lit "Kant"])) = 1.
Proof.
  destruct (credential_absence_is_fatal
    (Fixture.platform None (λ _ _, Responded (Fixture.image_response (lit "aGk=")))
       (λ _, None)) eq_refl) as [Hbatch _].
  destruct (Hbatch {| Batch.startIndex := Some 0; Batch.limit := Some 0;
                      Batch.delay := Some 1000 |}
              (Fixture.with_catalog [lit "Plato"; lit "Kant"])) as (w' & -> & _).
  reflexivity.
Defined.

(** C8, as the code has it.  The targeted script given no name exits with
    code 1 before any work.  The catalog script has no such check: on an
    empty selected range its loop runs zero times, no request is sent, no
    file is written, and [main] returns, so the exit code is 0. *)
Theorem empty_work_set (p : Platform) :
  (∀ w, ∃ w', Regenerate.script p [] w = (1, w') ∧
              requests w' = requests w ∧ images w' = images w ∧
              manifest_json w' = manifest_json w ∧ logs w' = logs w) ∧
  (∀ a w authors,
      key_missing p = false → fs_fault p (Batch.LOG_FILE p) = None →
      authors_json w = Some (inr authors) → (∀ e, manifest_json w ≠ Some (inl e)) →
      Batch.authorsToProcess a authors = [] →
      ∃ w', Batch.script p a w = (0, w') ∧
            requests w' = requests w ∧ images w' = images w ∧
            manifest_json w' = manifest_json w).
Proof.
  split.
  - intros w. eexists. split; [reflexivity|]. by repeat split.
  - intros a w authors Hkey Hlog Hauth Hman Hempty.
    destruct (Batch_main_run p Hlog a w authors Hkey Hauth Hman)
      as (m & w0 & s1 & w' & F0 & _ & Eloop & Emain & F1 & _).
    rewrite Hempty in Eloop. injection Eloop as <-. simpl in F1.
    exists w'. unfold Batch.script. rewrite Emain. split; [done|].
    destruct (same_store_trans _ _ _ F0 F1) as (? & ? & ? & ?). by repeat split.
Qed.

Lemma empty_work_set_witness :
  fst (Batch.script (Fixture.platform (Some (lit "key")) (λ _ _, NetworkError []) (λ _, None))
         {| Batch.startIndex := Some 5; Batch.limit := Some 0; Batch.delay := Some 1000 |}
         (Fixture.with_catalog [lit "Plato"])) = 0.
Proof.
  destruct (empty_work_set
    (Fixture.platform (Some (lit "key")) (λ _ _, NetworkError []) (λ _, None)))
    as [_ Hbatch].
  destruct (Hbatch {| Batch.startIndex := Some 5; Batch.limit := Some 0;
                      Batch.delay := Some 1000 |}
              (Fixture.with_catalog [lit "Plato"]) [lit "Plato"]
              eq_refl eq_refl eq_refl ltac:(done) eq_refl) as (w' & -> & _).
  reflexivity.
Defined.

(** C8 as stated fails for the catalog script: with the one-name catalog
    and [--start=5] no item is selected, and the exit code is 0. *)
Lemma empty_range_exits_zero :
  let p := Fixture.platform (Some (lit "key")) (λ _ _, NetworkError []) (λ _, None) in
  let a := {| Batch.startIndex := Some 5; Batch.limit := Some 0; Batch.delay := Some 1000 |} in
  Batch.authorsToProcess a [lit "Plato"] = [] ∧
  fst (Batch.script p a (Fixture.with_catalog [lit "Plato"])) = 0 ∧
  ¬ (fst (Batch.script p a (Fixture.with_catalog [lit "Plato"])) ≠ 0).
Proof. vm_compute. split; [done|]. split; [done|]. intros H. by apply H. Qed.

(** ** The loop and its counters *)



(** The counters of that run: two successes and one error, the second
    name's; and the fates of the three items. *)
Example one_failure_in_three :
  let p := Fixture.platform (Some (lit "key")) (Fixture.flaky [1%nat]) Fixture.no_fault in
  let names := [lit "Plato"; lit "Kant"; lit "Hume"] in
  fst (Batch.main p Fixture.all_authors (Fixture.with_catalog names))
  = Ok {| successCount := 2; skipCount := 0; errorCount := 1;
          errors := [(lit "Kant",
                      lit "Generation failed: API error: 500 - Internal error")] |}.
Proof. vm_compute. reflexivity. Qed.

(** C2, as the code has it, the run log being writable.  (1) An item whose
    file is there when its turn comes is skipped: the pass counts one skip,
    sends no request and writes nothing; an item whose file is missing is
    attempted: the pass sends one request, for its prompt.  (2) So a run
    from any state sends requests only for items whose file is missing when
    it starts, and sends none exactly when the file of every item of the
    range is there; it then skips every item and writes nothing.  (3) With
    no change between two runs over the same range, the second run sends no
    request and skips every item provided no item failed in the first run.
    (4) An item that failed had no file; its failure leaves none when the
    generation call threw, the payload could not be decoded or the file
    could not be opened (a later run attempts it again), and leaves one when
    the write failed after the file was opened or when the manifest could not
    be written (a later run skips it). *)
Theorem skip_if_exists (p : Platform) :
  fs_fault p (Batch.LOG_FILE p) = None →
  let filepath author := path_join (AVATARS_DIR p) (normalizeFilename p author) in
  (∀ a total len i author s,
      (is_Some (images (world s) !! filepath author) →
       ∃ s', Batch.iteration p a total len i author s = (Ok tt, s') ∧
             tally s' = skipped (tally s) ∧
             requests (world s') = requests (world s) ∧
             images (world s') = images (world s) ∧
             manifest s' = manifest s ∧
             manifest_json (world s') = manifest_json (world s)) ∧
      (images (world s) !! filepath author = None →
       ∃ s', Batch.iteration p a total len i author s = (Ok tt, s') ∧
             skipCount (tally s') = skipCount (tally s) ∧
             requests (world s')
             = requests (world s) ++ [request_for p (Batch.prompt author)])) ∧
  (∀ a w authors,
      key_missing p = false → authors_json w = Some (inr authors) →
      (∀ e, manifest_json w ≠ Some (inl e)) →
      let items := Batch.authorsToProcess a authors in
      ∃ t w', Batch.main p a w = (Ok t, w') ∧
        (∃ sent, requests w' = requests w ++ (request_for p ∘ Batch.prompt <$> sent) ∧
                 sent `sublist_of` items ∧
                 Forall (λ author, images w !! filepath author = None) sent) ∧
        (requests w' = requests w ↔
         ∀ author, author ∈ items → is_Some (images w !! filepath author)) ∧
        ((∀ author, author ∈ items → is_Some (images w !! filepath author)) →
         images w' = images w ∧ manifest_json w' = manifest_json w ∧
         skipCount t = length items ∧ successCount t = 0%nat ∧ errorCount t = 0%nat)) ∧
  (∀ a w authors,
      key_missing p = false → authors_json w = Some (inr authors) →
      (∀ e, manifest_json w ≠ Some (inl e)) →
      let items := Batch.authorsToProcess a authors in
      ∃ t1 w1, Batch.main p a w = (Ok t1, w1) ∧
        (errorCount t1 = 0%nat →
         (∀ author, author ∈ items → is_Some (images w1 !! filepath author)) ∧
         ∃ t2 w2, Batch.main p a w1 = (Ok t2, w2) ∧
                  requests w2 = requests w1 ∧ images w2 = images w1 ∧
                  manifest_json w2 = manifest_json w1 ∧
                  skipCount t2 = length items ∧
                  successCount t2 = 0%nat ∧ errorCount t2 = 0%nat)) ∧
  (∀ a total len i author s s',
      Batch.iteration p a total len i author s = (Ok tt, s') →
      errorCount (tally s') ≠ errorCount (tally s) →
      images (world s) !! filepath author = None ∧
      ∃ e, tally s' = failed author e (tally s) ∧
        ((images (world s') = images (world s) ∧
          ((∃ w1 w2, Batch.generateAvatar p author w1 = (Throw e, w2)) ∨
           (∃ data, Buffer_from_base64 p data = inl e) ∨
           (fs_fault p (filepath author) = Some e ∧ fs_point p (filepath author) = AtOpen))) ∨
         (is_Some (images (world s') !! filepath author) ∧
          ((fs_fault p (filepath author) = Some e ∧ fs_point p (filepath author) ≠ AtOpen) ∨
           fs_fault p (MANIFEST_FILE p) = Some e)))).
Proof.
  intros Hlog filepath. split; [|split; [|split]].
  - intros a total len i author s.
    destruct (Batch_iteration_outcome p a total len i author s Hlog) as (s' & E & Hitem).
    split.
    + intros Hpresent. exists s'. split; [done|].
      destruct (batch_item_present _ _ _ _ _ _ _ _ Hitem Hpresent) as (? & ? & ? & ? & ?).
      by repeat split.
    + intros Habsent. exists s'. split; [done|].
      split; [|exact (batch_item_absent _ _ _ _ _ _ _ _ Hitem Habsent)].
      destruct Hitem; subst; simpl; try done. subst filepath. simpl in *. congruence.
  - intros a w authors Hkey Hauth Hman items.
    destruct (Batch_main_run p Hlog a w authors Hkey Hauth Hman)
      as (m & w0 & s1 & w' & (F0i & F0m & F0a & F0r) & _ & Eloop & Emain
          & (F1i & F1m & F1a & F1r) & _).
    fold items in Eloop.
    destruct (Batch_loop_attempts p Hlog _ _ _ _ _ _ _ Eloop)
      as ((sent & Hr & Hsub & Hnone) & Hiff).
    simpl in Hr, Hnone, Hiff.
    assert (Hdom : (∀ author, author ∈ items → filepath author ∈ dom (images w0)) ↔
                   (∀ author, author ∈ items → is_Some (images w !! filepath author))).
    { rewrite F0i. split; intros Hall x Hx; by apply elem_of_dom, Hall. }
    exists (tally s1), w'. split; [done|]. split; [|split].
    + exists sent. rewrite F1r, Hr, F0r. split; [done|]. split; [done|].
      eapply Forall_impl; [exact Hnone|]. intros x Hx. simpl in Hx. by rewrite <- F0i.
    + rewrite F1r, <- F0r, <- Hdom. exact Hiff.
    + intros Hall0. pose proof (proj2 Hdom Hall0) as Hall.
      destruct (Batch_loop_all_present p Hlog _ _ _ _ _
                  {| world := w0; manifest := m; tally := no_tally |} _ Hall Eloop)
        as (_ & Hi & _ & Hj & Hskip & Hsucc & Herr & _).
      simpl in *. repeat split; congruence.
  - intros a w authors Hkey Hauth Hman items.
    destruct (Batch_main_run p Hlog a w authors Hkey Hauth Hman)
      as (m & w0 & s1 & w1 & F0 & _ & Eloop & Emain & F1 & _).
    fold items in Eloop.
    exists (tally s1), w1. split; [done|]. intros Hclean.
    destruct (Batch_loop_store p Hlog _ _ _ _ _ _ _ Eloop) as (Ha & _ & Hfiles & _).
    destruct (Hfiles Hclean) as [Hall Hm]. simpl in Ha, Hm.
    destruct F0 as (F0i & F0m & F0a & F0r). destruct F1 as (F1i & F1m & F1a & F1r).
    assert (Hall1 : ∀ author, author ∈ items → is_Some (images w1 !! filepath author)).
    { intros x Hx. rewrite F1i. by apply elem_of_dom, Hall. }
    split; [done|].
    assert (Hauth1 : authors_json w1 = Some (inr authors)) by congruence.
    assert (Hman1 : ∀ e, manifest_json w1 ≠ Some (inl e)).
    { intros e. rewrite F1m. destruct Hm as [->|(m' & -> & _)]; [|done].
      rewrite F0m. apply Hman. }
    destruct (Batch_main_run p Hlog a w1 authors Hkey Hauth1 Hman1)
      as (m2 & w02 & s2 & w2 & (G0i & G0m & G0a & G0r) & _ & Eloop2 & Emain2
          & (G1i & G1m & G1a & G1r) & _).
    fold items in Eloop2.
    assert (Hall2 : ∀ author, author ∈ items →
      filepath author
      ∈ dom (images (world {| world := w02; manifest := m2; tally := no_tally |}))).
    { intros x Hx. simpl. rewrite G0i. by apply elem_of_dom, Hall1. }
    destruct (Batch_loop_all_present p Hlog _ _ _ _ _ _ _ Hall2 Eloop2)
      as (Hr & Hi & _ & Hj & Hskip & Hsucc & Herr & _).
    simpl in *. exists (tally s2), w2. split; [done|].
    repeat split; congruence.
  - intros a total len i author s s' E Hcount.
    destruct (Batch_iteration_outcome p a total len i author s Hlog) as (s'' & E' & Hitem).
    rewrite E in E'. injection E' as <-.
    destruct Hitem as [c Hc -> | e w2 Hc G -> | d e w2 Hc G Hb V -> | d b e w2 Hc G Hb Hw V ->
                      | d b e w2 Hc G Hb V W m' -> | d b w2 Hc G Hb V W m' ->]; simpl in *;
      [by destruct Hcount| | | | |by destruct Hcount];
      (split; [done|]); exists e; (split; [done|]).
    + left. split; [by client_world|]. left. by eexists _, _.
    + left. client_world. split; [done|]. right. left. by eexists.
    + client_world. unfold image_residue. fold (filepath author) in *.
      destruct (fs_point p (filepath author)) eqn:Hpoint; simpl.
      * left. split; [done|]. right. right. done.
      * right. rewrite lookup_insert_eq. split; [by eexists|]. by left.
      * right. rewrite lookup_insert_eq. split; [by eexists|]. by left.
    + right. client_world. split; [|by right].
      destruct (manifest_residue_rest p m'
        (set_ticks S (set_ticks S (set_images <[filepath author := b]>
           (set_requests (λ l, l ++ [request_for p (Batch.prompt author)])
              (logged p (Batch.LOG_FILE p) true
                 (MGenerating (num_add (num_add (Batch.startIndex a) (of_nat i)) (Some 1))
                    total author) (world s))))))) as (Hi & _).
      fold (filepath author). rewrite Hi. simpl. rewrite lookup_insert_eq. by eexists.
Qed.

Lemma skip_if_exists_witness :
  let p := Fixture.platform (Some (lit "key")) (Fixture.flaky []) Fixture.no_fault in
  let names := [lit "Plato"; lit "Kant"] in
  ∃ t1 w1, Batch.main p Fixture.all_authors (Fixture.with_catalog names) = (Ok t1, w1) ∧
    (errorCount t1 = 0%nat →
     ∃ t2 w2, Batch.main p Fixture.all_authors w1 = (Ok t2, w2) ∧
              requests w2 = requests w1 ∧ images w2 = images w1 ∧
              manifest_json w2 = manifest_json w1 ∧
              skipCount t2 = 2%nat ∧ successCount t2 = 0%nat ∧ errorCount t2 = 0%nat).
Proof.
  intros p names.
  destruct (skip_if_exists p eq_refl) as (_ & _ & Hruns & _).
  destruct (Hruns Fixture.all_authors (Fixture.with_catalog names) names
              eq_refl eq_refl ltac:(done)) as (t1 & w1 & Hmain & Hsecond).
  exists t1, w1. split; [exact Hmain|]. intros Hclean.
  exact (proj2 (Hsecond Hclean)).
Defined.

(** C2 as stated fails: when the first run's only item fails (the service
    answers 500), nothing changes on disk, and the second run over the same
    range sends a request of its own instead of skipping the item. *)
Lemma failed_item_is_retried :
  let p := Fixture.platform (Some (lit "key")) (Fixture.flaky [0%nat; 1%nat]) Fixture.no_fault in
  let w0 := Fixture.with_catalog [lit "Plato"] in
  let w1 := snd (Batch.script p Fixture.all_authors w0) in
  let w2 := snd (Batch.script p Fixture.all_authors w1) in
  images w1 = images w0 ∧ manifest_json w1 = manifest_json w0 ∧
  length (requests w1) = 1%nat ∧ length (requests w2) = 2%nat ∧
  fst (Batch.main p Fixture.all_authors w1)
  = Ok {| successCount := 0; skipCount := 0; errorCount := 1;
          errors := [(lit "Plato",
                      lit "Generation failed: API error: 500 - Internal error")] |} ∧
  ¬ (length (requests w2) - length (requests w1) = 0)%nat.
Proof. vm_compute. repeat split; try done. Qed.

(** A failure that leaves a file: the image is saved, then the manifest
    cannot be written; the item is counted as failed, and the second run
    skips it without a request. *)
Example failed_after_the_write_is_skipped :
  let p := Fixture.platform (Some (lit "key")) (Fixture.flaky [])
             (λ path, if bool_decide (path = lit "/srv/avatars-repo/manifest.json")
                      then Some (lit "EACCES: permission denied, open") else None) in
  let w0 := Fixture.with_catalog [lit "Plato"] in
  let w1 := snd (Batch.main p Fixture.all_authors w0) in
  let w2 := snd (Batch.main p Fixture.all_authors w1) in
  fst (Batch.main p Fixture.all_authors w0)
  = Ok {| successCount := 0; skipCount := 0; errorCount := 1;
          errors := [(lit "Plato", lit "EACCES: permission denied, open")] |} ∧
  images w1 !! lit "/srv/avatars-repo/avatars/plato.png" = Some (lit "hi") ∧
  fst (Batch.main p Fixture.all_authors w1)
  = Ok {| successCount := 0; skipCount := 1; errorCount := 0; errors := [] |} ∧
  requests w2 = requests w1.
Proof. vm_compute. repeat split; try done. Qed.

(** ** The selected range *)

(** C5, as the code has it.  For a catalog of [total] names: a limit is
    given when [limit > 0] ([0], its default, means none) and then
    [endIndex] is [min (start + limit) total]; otherwise it is [total].  The
    items of the driver are [authors.slice(start, endIndex)]: for a start
    offset [start >= 0] the names of indices [start .. endIndex - 1] in
    catalog order, as claimed; a start offset below [0] counts from the end
    of the catalog, so that the first index is [max (total + start) 0],
    [endIndex] still being computed from [start] itself (and counting from
    the end too when it is negative); a start offset that is no number
    selects the whole catalog without a limit and nothing with one.  A run of
    [main] opens, in the run log, exactly one line per such item, in that
    order, numbered [start + j + 1] for the [j]-th of them. *)
Theorem catalog_range (a : Batch.Args) (authors : list jsstring) :
  let total := Z.of_nat (length authors) in
  (∀ start, Batch.startIndex a = Some start →
     let stop := match Batch.limit a with
                 | Some l => if 0 <? l then Z.min (start + l) total else total
                 | None => total
                 end in
     let first := if start <? 0 then Z.max (total + start) 0 else start in
     let last := if stop <? 0 then Z.max (total + stop) 0 else stop in
     Batch.endIndex a (length authors) = Some stop ∧
     (∀ j, Batch.authorsToProcess a authors !! j =
           if bool_decide (first + Z.of_nat j < last)
           then authors !! (Z.to_nat first + j)%nat else None) ∧
     (0 ≤ start →
      ∀ j, Batch.authorsToProcess a authors !! j =
           if bool_decide (start + Z.of_nat j < stop)
           then authors !! (Z.to_nat start + j)%nat else None)) ∧
  (Batch.startIndex a = None →
   Batch.authorsToProcess a authors = if num_pos (Batch.limit a) then [] else authors) ∧
  (∀ p w,
      key_missing p = false → fs_fault p (Batch.LOG_FILE p) = None →
      authors_json w = Some (inr authors) → (∀ e, manifest_json w ≠ Some (inl e)) →
      ∃ t w', Batch.main p a w = (Ok t, w') ∧
              item_lines (log_lines (Batch.LOG_FILE p) w')
              = item_lines (log_lines (Batch.LOG_FILE p) w)
                ++ imap (λ j author,
                           (num_add (num_add (Batch.startIndex a) (of_nat j)) (Some 1), author))
                     (Batch.authorsToProcess a authors)).
Proof.
  intros total. split; [|split].
  - intros start Hs stop first last.
    assert (He : Batch.endIndex a (length authors) = Some stop).
    { unfold Batch.endIndex, num_pos. subst stop. rewrite Hs.
      destruct (Batch.limit a) as [l|]; simpl; [|done]. by destruct (0 <? l). }
    assert (Hstop : stop ≤ total).
    { subst stop. destruct (Batch.limit a) as [l|]; [destruct (0 <? l)|]; lia. }
    assert (Hnn : 0 ≤ start → 0 ≤ stop).
    { subst stop. destruct (Batch.limit a) as [l|]; [destruct (Z.ltb_spec 0 l)|]; lia. }
    assert (Hj : ∀ j, Batch.authorsToProcess a authors !! j =
                      if bool_decide (first + Z.of_nat j < last)
                      then authors !! (Z.to_nat first + j)%nat else None).
    { intros j. unfold Batch.authorsToProcess, slice. rewrite He, Hs.
      rewrite lookup_slice_from. unfold relative_index. subst first last. fold total.
      destruct (Z.ltb_spec start 0), (Z.ltb_spec stop 0).
      - repeat case_bool_decide; try done; lia.
      - repeat case_bool_decide; try done; lia.
      - repeat case_bool_decide; try done; lia.
      - destruct (decide (total ≤ start)) as [Hge|Hlt].
        + rewrite (bool_decide_eq_false_2 (start + _ < _)) by lia.
          case_bool_decide; [|done]. apply lookup_ge_None. lia.
        + replace (Z.to_nat (Z.min start total)) with (Z.to_nat start) by lia.
          repeat case_bool_decide; try done; lia. }
    split; [done|]. split; [done|].
    intros Hpos j. rewrite Hj. subst first last.
    destruct (Z.ltb_spec start 0); [lia|].
    destruct (Z.ltb_spec stop 0); [lia|]. done.
  - intros Hs. unfold Batch.authorsToProcess, Batch.endIndex, slice. rewrite Hs.
    destruct (num_pos (Batch.limit a)) eqn:Hl.
    + destruct (Batch.limit a); simpl; by rewrite ?take_0.
    + simpl. destruct (Z.ltb_spec (Z.of_nat (length authors)) 0); [lia|].
      rewrite Z.min_id, Nat2Z.id, Nat.sub_0_r. by apply take_ge.
  - intros p w Hkey Hlog Hauth Hman.
    destruct (Batch_main_run p Hlog a w authors Hkey Hauth Hman)
      as (m & w0 & s1 & w' & _ & L0 & Eloop & Emain & _ & L1).
    exists (tally s1), w'. split; [done|].
    rewrite L1, (Batch_loop_lines p Hlog _ _ _ _ _ _ _ Eloop). simpl. by rewrite L0.
Qed.

Lemma catalog_range_witness :
  let p := Fixture.platform (Some (lit "key")) (Fixture.flaky []) Fixture.no_fault in
  let a := {| Batch.startIndex := Some 1; Batch.limit := Some 2; Batch.delay := Some 1000 |} in
  let names := [lit "Plato"; lit "Kant"; lit "Hume"; lit "Locke"] in
  Batch.endIndex a 4 = Some 3 ∧
  Batch.authorsToProcess a names = [lit "Kant"; lit "Hume"] ∧
  item_lines (log_lines (Batch.LOG_FILE p) (snd (Batch.main p a (Fixture.with_catalog names))))
  = [(Some 2, lit "Kant"); (Some 3, lit "Hume")].
Proof.
  intros p a names.
  destruct (catalog_range a names) as (Hrange & _ & Hmain).
  destruct (Hrange 1 eq_refl) as (He & _ & _).
  destruct (Hmain p (Fixture.with_catalog names) eq_refl eq_refl eq_refl ltac:(done))
    as (t & w' & Emain & Hlines).
  split; [exact He|]. split; [reflexivity|].
  rewrite Emain. exact Hlines.
Defined.

(** C5 as stated fails below [0]: on a catalog of three names, with start
    offset [-1] and limit [2] the claim selects the indices [-1 .. 0], that
    is the first name, and the code selects nothing; with start offset [-1]
    and no limit the claim selects the whole catalog and the code selects the
    last name only. *)
Lemma negative_start_counts_from_the_end :
  let names := [lit "Plato"; lit "Kant"; lit "Hume"] in
  let limited := {| Batch.startIndex := Some (-1); Batch.limit := Some 2;
                    Batch.delay := Some 1000 |} in
  let unlimited := {| Batch.startIndex := Some (-1); Batch.limit := Some 0;
                      Batch.delay := Some 1000 |} in
  claimed_range (-1) (Some 2) names = [lit "Plato"] ∧
  Batch.authorsToProcess limited names = [] ∧
  claimed_range (-1) None names = names ∧
  Batch.authorsToProcess unlimited names = [lit "Hume"] ∧
  Batch.authorsToProcess limited names ≠ claimed_range (-1) (Some 2) names ∧
  Batch.authorsToProcess unlimited names ≠ claimed_range (-1) None names.
Proof. vm_compute. repeat split; done. Qed.

(** ** The manifest *)

(** C6. (1) Every call of [saveManifest] leaves the manifest object with
    [total_avatars] equal to the number of keys of [avatars] at that moment
    and [updated_at] equal to the clock reading of the call, the mapping
    itself untouched; and, the write going through, the manifest file then
    holds that whole object, whatever it held before.  (2, 3) In either
    driver, after a pass that counts a success the manifest file holds the
    manifest object, whose [total_avatars] is the size of its [avatars], the
    mapping being the previous one with the item's record assigned. *)
Theorem manifest_save_invariant (p : Platform) :
  (∀ s, let m' := stamped_manifest (Date_now p (ticks (world s))) (manifest s) in
        manifest (snd (saveManifest p s)) = m' ∧
        total_avatars m' = Z.of_nat (size (avatars (manifest s))) ∧
        updated_at m' = Some (Date_now p (ticks (world s))) ∧
        avatars m' = avatars (manifest s) ∧
        (fs_fault p (MANIFEST_FILE p) = None →
         fst (saveManifest p s) = Ok tt ∧
         manifest_json (world (snd (saveManifest p s))) = Some (inr m'))) ∧
  (∀ a total len i author s r s',
      Batch.iteration p a total len i author s = (r, s') →
      successCount (tally s') = S (successCount (tally s)) →
      manifest_json (world s') = Some (inr (manifest s')) ∧
      total_avatars (manifest s') = Z.of_nat (size (avatars (manifest s'))) ∧
      is_Some (updated_at (manifest s')) ∧
      ∃ generated,
        avatars (manifest s')
        = assign_key author {| filename := normalizeFilename p author;
                               generated_at := generated; regenerated := false |}
            (avatars (manifest s))) ∧
  (∀ n i author s r s',
      Regenerate.iteration p n i author s = (r, s') →
      successCount (tally s') = S (successCount (tally s)) →
      manifest_json (world s') = Some (inr (manifest s')) ∧
      total_avatars (manifest s') = Z.of_nat (size (avatars (manifest s'))) ∧
      is_Some (updated_at (manifest s')) ∧
      ∃ generated,
        avatars (manifest s')
        = assign_key author {| filename := normalizeFilename p author;
                               generated_at := generated; regenerated := true |}
            (avatars (manifest s))).
Proof.
  split; [|split].
  - intros s m'. rewrite saveManifest_eq.
    destruct (fs_fault p (MANIFEST_FILE p)); simpl; repeat split; done.
  - intros a total len i author s r s' E Hsuccess.
    destruct (Batch_iteration_manifest p _ _ _ _ _ _ _ _ E)
      as [(_ & _ & Hsame) | (w1 & d & w2 & w3 & generated & stamp & _ & _ & _ & Hm & Hfile)];
      [lia|].
    destruct (fs_fault p (MANIFEST_FILE p)); [lia|].
    rewrite Hfile, Hm. simpl. repeat split; eauto.
  - intros n i author s r s' E Hsuccess.
    destruct (Regenerate_iteration_manifest p _ _ _ _ _ _ E)
      as [(_ & _ & Hsame) | (w1 & d & w2 & w3 & generated & stamp & _ & _ & _ & Hm & Hfile)];
      [lia|].
    destruct (fs_fault p (MANIFEST_FILE p)); [lia|].
    rewrite Hfile, Hm. simpl. repeat split; eauto.
Qed.

Lemma manifest_save_invariant_witness :
  let p := Fixture.platform (Some (lit "key")) (Fixture.flaky []) Fixture.no_fault in
  let s := {| world := Fixture.with_catalog [lit "Plato"];
              manifest := {| manifest_generated_at := Some 7%N; updated_at := None;
                             total_avatars := 0; avatars := ∅ |};
              tally := no_tally |} in
  let s' := snd (Batch.iteration p Fixture.all_authors 1 1 0 (lit "Plato") s) in
  manifest_json (world s') = Some (inr (manifest s')) ∧
  total_avatars (manifest s') = Z.of_nat (size (avatars (manifest s'))) ∧
  manifest_json (world (snd (saveManifest p s)))
  = Some (inr (stamped_manifest 1000%N (manifest s))).
Proof.
  intros p s s'.
  destruct (manifest_save_invariant p) as (Hsave & Hbatch & _).
  destruct (Hbatch Fixture.all_authors 1%nat 1%nat 0%nat (lit "Plato") s
              (fst (Batch.iteration p Fixture.all_authors 1 1 0 (lit "Plato") s)) s')
    as (Hfile & Htotal & _).
  { apply surjective_pairing. }
  { vm_compute. reflexivity. }
  split; [exact Hfile|]. split; [exact Htotal|].
  destruct (Hsave s) as (_ & _ & _ & _ & Hwrite).
  exact (proj2 (Hwrite eq_refl)).
Defined.

(** C10. In either driver, for every pass: if the manifest object or the
    manifest file is not what it was before the pass, then the generation
    call returned a payload and the persister saved it (no manifest record
    and no manifest write without both).  And, the run log being writable,
    a pass whose generation call throws, or whose generation call returns
    and whose persister throws, ends with the manifest object and the
    manifest file as they were, the error recorded. *)
Theorem manifest_untouched_on_failure (p : Platform) :
  (∀ a total len i author s r s',
      Batch.iteration p a total len i author s = (r, s') →
      manifest s' ≠ manifest s ∨ manifest_json (world s') ≠ manifest_json (world s) →
      ∃ w1 data w2 w3,
        same_store (world s) w1 ∧
        Batch.generateAvatar p author w1 = (Ok data, w2) ∧
        Batch.saveAvatar p author data w2 = (Ok (normalizeFilename p author), w3)) ∧
  (∀ n i author s r s',
      Regenerate.iteration p n i author s = (r, s') →
      manifest s' ≠ manifest s ∨ manifest_json (world s') ≠ manifest_json (world s) →
      ∃ w1 data w2 w3,
        same_store (world s) w1 ∧
        Regenerate.generateAvatar p author w1 = (Ok data, w2) ∧
        Regenerate.saveAvatar p author data w2 = (Ok (normalizeFilename p author), w3)) ∧
  (fs_fault p (Batch.LOG_FILE p) = None →
   ∀ a total len i author s e,
     images (world s) !! path_join (AVATARS_DIR p) (normalizeFilename p author) = None →
     let w1 := logged p (Batch.LOG_FILE p) true
                 (MGenerating (num_add (num_add (Batch.startIndex a) (of_nat i)) (Some 1))
                    total author) (world s) in
     (fst (Batch.generateAvatar p author w1) = Throw e ∨
      ∃ data w2, Batch.generateAvatar p author w1 = (Ok data, w2) ∧
                 fst (Batch.saveAvatar p author data w2) = Throw e) →
     ∃ s', Batch.iteration p a total len i author s = (Ok tt, s') ∧
           manifest s' = manifest s ∧
           manifest_json (world s') = manifest_json (world s) ∧
           tally s' = failed author e (tally s)) ∧
  (fs_fault p (Regenerate.LOG_FILE p) = None →
   ∀ n i author s e,
     let w1 := logged p (Regenerate.LOG_FILE p) false
                 (MRegenerating (of_nat (i + 1)) n author) (world s) in
     (fst (Regenerate.generateAvatar p author w1) = Throw e ∨
      ∃ data w2, Regenerate.generateAvatar p author w1 = (Ok data, w2) ∧
                 fst (Regenerate.saveAvatar p author data w2) = Throw e) →
     ∃ s', Regenerate.iteration p n i author s = (Ok tt, s') ∧
           manifest s' = manifest s ∧
           manifest_json (world s') = manifest_json (world s) ∧
           tally s' = failed author e (tally s)).
Proof.
  split; [|split; [|split]].
  - intros a total len i author s r s' E Hchanged.
    destruct (Batch_iteration_manifest p _ _ _ _ _ _ _ _ E)
      as [(? & ? & _) | (w1 & d & w2 & w3 & _ & _ & ? & ? & ? & _)].
    + by destruct Hchanged.
    + by eexists _, _, _, _.
  - intros n i author s r s' E Hchanged.
    destruct (Regenerate_iteration_manifest p _ _ _ _ _ _ E)
      as [(? & ? & _) | (w1 & d & w2 & w3 & _ & _ & ? & ? & ? & _)].
    + by destruct Hchanged.
    + by eexists _, _, _, _.
  - intros Hlog a total len i author s e Hfile w1 Hfails.
    destruct (Batch_iteration_outcome p a total len i author s Hlog) as (s' & E & Hitem).
    exists s'. split; [done|]. subst w1.
    destruct Hitem as [c Hc _ | e' w2' _ G' -> | d e' w2' _ G' _ V' ->
                      | d b e' w2' _ G' _ _ V' ->
                      | d b e' w2' _ G' _ V' _ _ _ | d b w2' _ G' _ V' _ _ _].
    + congruence.
    + destruct Hfails as [G | (d & w2 & G & _)]; rewrite G' in G; [|done].
      simpl in G. injection G as ->. client_world. by repeat split.
    + destruct Hfails as [G | (d' & w2 & G & V)]; rewrite G' in G; [done|].
      injection G as <- <-. rewrite V' in V. simpl in V. injection V as ->.
      client_world. by repeat split.
    + destruct Hfails as [G | (d' & w2 & G & V)]; rewrite G' in G; [done|].
      injection G as <- <-. rewrite V' in V. simpl in V. injection V as ->.
      client_world. simpl.
      match goal with |- context [image_residue p ?f ?b ?w] =>
        destruct (image_residue_rest p f b w) as (Hj & _) end.
      by repeat split.
    + destruct Hfails as [G | (d' & w2 & G & V)]; rewrite G' in G; [done|].
      injection G as <- <-. by rewrite V' in V.
    + destruct Hfails as [G | (d' & w2 & G & V)]; rewrite G' in G; [done|].
      injection G as <- <-. by rewrite V' in V.
  - intros Hlog n i author s e w1 Hfails.
    destruct (Regenerate_iteration_outcome p Hlog n i author s) as (s' & E & Hitem).
    exists s'. split; [done|]. subst w1.
    destruct Hitem as [e' w2' G' -> | d e' w2' w3 G' V' ->
                      | d e' w2' w3 G' V' _ _ _ | d w2' w3 G' V' _ _ _].
    + destruct Hfails as [G | (d & w2 & G & _)]; rewrite G' in G; [|done].
      simpl in G. injection G as ->. client_world. by repeat split.
    + destruct Hfails as [G | (d' & w2 & G & V)]; rewrite G' in G; [done|].
      injection G as <- <-. rewrite V' in V. simpl in V. injection V as ->.
      destruct (Regenerate_saveAvatar_frame p author d w2')
        as (r0 & w0 & V0 & _ & _ & Hj & _). rewrite V' in V0. injection V0 as <- <-.
      client_world. by repeat split.
    + destruct Hfails as [G | (d' & w2 & G & V)]; rewrite G' in G; [done|].
      injection G as <- <-. by rewrite V' in V.
    + destruct Hfails as [G | (d' & w2 & G & V)]; rewrite G' in G; [done|].
      injection G as <- <-. by rewrite V' in V.
Qed.

Lemma manifest_untouched_on_failure_witness :
  let good := Fixture.platform (Some (lit "key")) (Fixture.flaky []) Fixture.no_fault in
  let bad := Fixture.platform (Some (lit "key")) (Fixture.flaky [0%nat]) Fixture.no_fault in
  let full := Fixture.failing_at (λ _, AtWrite 0)
                (Fixture.platform (Some (lit "key")) (Fixture.flaky [])
                   (λ path, if bool_decide (path = lit "/srv/avatars-repo/avatars/plato.png")
                            then Some (lit "ENOSPC: no space left on device, write")
                            else None)) in
  let s := {| world := Fixture.empty_world;
              manifest := {| manifest_generated_at := Some 7%N; updated_at := None;
                             total_avatars := 0; avatars := ∅ |};
              tally := no_tally |} in
  (∃ w1 data w2 w3,
      same_store (world s) w1 ∧
      Batch.generateAvatar good (lit "Plato") w1 = (Ok data, w2) ∧
      Batch.saveAvatar good (lit "Plato") data w2 = (Ok (lit "plato.png"), w3)) ∧
  (∃ w1 data w2 w3,
      same_store (world s) w1 ∧
      Regenerate.generateAvatar good (lit "Plato") w1 = (Ok data, w2) ∧
      Regenerate.saveAvatar good (lit "Plato") data w2 = (Ok (lit "plato.png"), w3)) ∧
  (∃ s', Batch.iteration bad Fixture.all_authors 1 1 0 (lit "Plato") s = (Ok tt, s') ∧
         manifest s' = manifest s ∧
         manifest_json (world s') = manifest_json (world s) ∧
         tally s' = failed (lit "Plato")
                      (lit "Generation failed: API error: 500 - Internal error") (tally s)) ∧
  (∃ s', Regenerate.iteration full 1 0 (lit "Plato") s = (Ok tt, s') ∧
         manifest s' = manifest s ∧
         manifest_json (world s') = manifest_json (world s) ∧
         tally s' = failed (lit "Plato") (lit "ENOSPC: no space left on device, write")
                      (tally s)).
Proof.
  intros good bad full s.
  split; [|split; [|split]].
  - destruct (manifest_untouched_on_failure good) as (Hbatch & _).
    refine (Hbatch Fixture.all_authors 1%nat 1%nat 0%nat (lit "Plato") s
              (fst (Batch.iteration good Fixture.all_authors 1 1 0 (lit "Plato") s))
              (snd (Batch.iteration good Fixture.all_authors 1 1 0 (lit "Plato") s)) _ _).
    + apply surjective_pairing.
    + left. intros H. apply (f_equal total_avatars) in H. vm_compute in H. discriminate H.
  - destruct (manifest_untouched_on_failure good) as (_ & Hregenerate & _).
    refine (Hregenerate 1%nat 0%nat (lit "Plato") s
              (fst (Regenerate.iteration good 1 0 (lit "Plato") s))
              (snd (Regenerate.iteration good 1 0 (lit "Plato") s)) _ _).
    + apply surjective_pairing.
    + left. intros H. apply (f_equal total_avatars) in H. vm_compute in H. discriminate H.
  - destruct (manifest_untouched_on_failure bad) as (_ & _ & Hbatch & _).
    refine (Hbatch eq_refl Fixture.all_authors 1%nat 1%nat 0%nat (lit "Plato") s _ _ _).
    + reflexivity.
    + left. vm_compute. reflexivity.
  - destruct (manifest_untouched_on_failure full) as (_ & _ & _ & Hregenerate).
    refine (Hregenerate eq_refl 1%nat 0%nat (lit "Plato") s _ _).
    right. eexists _, _. split.
    + vm_compute. reflexivity.
    + vm_compute. reflexivity.
Defined.

(** ** The generator client *)

Section Client.
Context (p : Platform).

Lemma find_inline_scan {S} parts (s : S) : find_inline parts s = (scan parts, s).
Proof.
  induction parts as [|part rest IH]; [done|].
  simpl. unfold bind.
  destruct part; simpl; try done; try apply IH.
  unfold carries_inline. simpl. by destruct (truthy _).
Qed.

Lemma carries_inline_not_nullish part : carries_inline part = true → nullish part = false.
Proof. by destruct part. Qed.

Lemma scan_cons part rest :
  nullish part = false →
  scan (part :: rest) = if carries_inline part then Ok part else scan rest.
Proof. by destruct part. Qed.

Lemma scan_found before part after :
  Forall passed_over before → carries_inline part = true →
  scan (before ++ part :: after) = Ok part.
Proof.
  intros Hb Hp. induction Hb as [|x before [Hx Hc] _ IH].
  - simpl app. rewrite scan_cons by by apply carries_inline_not_nullish. by rewrite Hp.
  - simpl app. rewrite scan_cons by done. by rewrite Hc.
Qed.

Lemma scan_none parts : Forall passed_over parts → scan parts = Ok VUndef.
Proof.
  intros H. induction H as [|x parts [Hx Hc] _ IH]; [done|].
  rewrite scan_cons by done. by rewrite Hc.
Qed.

Lemma scan_inv parts v :
  scan parts = Ok v →
  (v = VUndef ∧ Forall passed_over parts) ∨
  (∃ before after, parts = before ++ v :: after ∧ Forall passed_over before ∧
                   carries_inline v = true).
Proof.
  induction parts as [|part rest IH].
  - intros [= <-]. by left.
  - destruct (nullish part) eqn:Hn; [by destruct part|].
    rewrite scan_cons by done.
    destruct (carries_inline part) eqn:Hc.
    + intros [= <-]. right. exists [], rest. by repeat split.
    + intros Hrest.
      destruct (IH Hrest) as [[-> Hall] | (before & after & -> & Hb & Hv')].
      * left. split; [done|]. by constructor.
      * right. exists (part :: before), after. repeat split; [|done]. by constructor.
Qed.

(** The client sends one request and returns what [client_result] makes
    of the answer, a failure being wrapped by the [catch]. *)
Lemma generateAvatar_with_eq prompt w :
  generateAvatar_with p prompt w
  = (generation_failed (client_result (fetch p (length (requests w)) (request_for p prompt))),
     set_requests (λ l, l ++ [request_for p prompt]) w).
Proof.
  unfold generateAvatar_with, try_catch.
  match goal with |- context [bind (do_fetch _ _) ?k] => set (K := k) end.
  assert (HK : ∀ r w', K r w' = (client_result (Responded r), w')).
  { intros r w'. subst K. cbv beta.
    unfold client_result.
    unfold bind at 1, when. destruct (ok r); simpl; [|done].
    unfold bind at 1. destruct (json r) as [e|data]; simpl; [done|].
    assert (Hopt : ∀ k v, opt_prop (S := World) k v = ret (field k v)) by (by intros k []).
    destruct (nullish data) eqn:Hn; [by destruct data|].
    assert (Hcand : prop (S := World) "candidates" data = ret (field "candidates" data))
      by (by destruct data).
    assert (Hret : ∀ A B (x : A) (k : A → M World B), bind (ret x) k = k x) by done.
    rewrite Hcand, Hret, Hopt, Hret, Hopt, Hret.
    fold (response_parts data).
    replace (match data with VUndef => Throw (type_error_read "undefined" "candidates")
             | VNull => Throw (type_error_read "null" "candidates")
             | _ => if negb (truthy (response_parts data)) then Throw (lit "No parts in response")
                    else match response_parts data with VArr elems =>
                           match scan elems with
                           | Ok part => if truthy part && truthy (inline_data part)
                                        then Ok (inline_data part)
                                        else Throw (lit "No image data in response")
                           | other => other end
                         | _ => Throw (lit "parts.find is not a function") end
             end)
      with (if negb (truthy (response_parts data)) then Throw (lit "No parts in response")
                    else match response_parts data with VArr elems =>
                           match scan elems with
                           | Ok part => if truthy part && truthy (inline_data part)
                                        then Ok (inline_data part)
                                        else Throw (lit "No image data in response")
                           | other => other end
                         | _ => Throw (lit "parts.find is not a function") end)
      by (by destruct data).
    generalize (response_parts data). intros parts.
    unfold bind at 1, when.
    destruct (truthy parts) eqn:Hparts; simpl; [|done].
    unfold bind at 1.
    destruct parts as [| | | | |elems|]; try done.
    rewrite find_inline_scan.
    destruct (scan elems) as [part|e|c] eqn:Hscan; try done.
    destruct (scan_inv _ _ Hscan) as [[-> _]|(before & after & _ & _ & Hc)]; [done|].
    pose proof (carries_inline_not_nullish _ Hc) as Hnp.
    assert (Htp : truthy part = true) by (by destruct part).
    rewrite Htp. simpl.
    assert (Hin : prop (S := World) "inlineData" part = ret (field "inlineData" part))
      by (by destruct part).
    unfold carries_inline in Hc.
    rewrite Hin, Hret, Hc. simpl.
    assert (Hd : prop (S := World) "data" (field "inlineData" part) = ret (inline_data part)).
    { unfold inline_data. by destruct (field "inlineData" part). }
    rewrite Hd, Hret. unfold bind at 1. simpl.
    destruct (truthy (inline_data part)); simpl; [|done].
    by rewrite !Hret, Hd. }
  unfold bind at 1, do_fetch. fold (request_for p prompt).
  destruct (fetch p _ _) as [e|r]; [done|].
  rewrite HK. by destruct (client_result (Responded r)).
Qed.
End Client.

(** C7, as the code has it.  The client sends one request and never ends
    the process; every error it throws is a "Generation failed: " error
    carrying the message of its cause; the causes named by the
    specification have the messages given here (non-success status, with the
    status code and the body; no parts list; parts none of which has inline
    data).  It returns a payload exactly when the status is a success, the
    body parses, its parts list is an array in which the first part with a
    truthy [inlineData] comes before any [null] part, and that part's
    [data] is truthy; what it returns is that [data] value as received, not
    decoded (the persister decodes it: [saveAvatar] writes
    [Buffer.from(data, 'base64')]).  In particular, when the first part
    with [inlineData] has no [data] the client fails, whatever the later
    parts hold. *)
Theorem generator_client_contract (p : Platform) (prompt : jsstring) (w : World) :
  let answer := fetch p (length (requests w)) (request_for p prompt) in
  let result := fst (generateAvatar_with p prompt w) in
  snd (generateAvatar_with p prompt w) = set_requests (λ l, l ++ [request_for p prompt]) w ∧
  (∀ c, result ≠ Exit c) ∧
  (∀ e, result = Throw e → ∃ cause, e = lit "Generation failed: " ++ cause) ∧
  (∀ r, answer = Responded r → ok r = false →
        result = Throw (lit "Generation failed: " ++ lit "API error: "
                        ++ lit (pretty (status r)) ++ lit " - " ++ text r)) ∧
  (∀ r data, answer = Responded r → ok r = true → json r = inr data →
             nullish data = false → truthy (response_parts data) = false →
             result = Throw (lit "Generation failed: No parts in response")) ∧
  (∀ r data parts, answer = Responded r → ok r = true → json r = inr data →
                   response_parts data = VArr parts → Forall passed_over parts →
                   result = Throw (lit "Generation failed: No image data in response")) ∧
  (∀ r data before part after,
      answer = Responded r → ok r = true → json r = inr data →
      response_parts data = VArr (before ++ part :: after) →
      Forall passed_over before → carries_inline part = true →
      truthy (inline_data part) = false →
      result = Throw (lit "Generation failed: No image data in response")) ∧
  (∀ d, result = Ok d ↔
        ∃ r data before part after,
          answer = Responded r ∧ ok r = true ∧ json r = inr data ∧
          response_parts data = VArr (before ++ part :: after) ∧
          Forall passed_over before ∧ carries_inline part = true ∧
          inline_data part = d ∧ truthy d = true) ∧
  (∀ author d buffer w0,
      Buffer_from_base64 p d = inr buffer →
      fs_fault p (path_join (AVATARS_DIR p) (normalizeFilename p author)) = None →
      Batch.saveAvatar p author d w0
      = (Ok (normalizeFilename p author),
         set_images <[path_join (AVATARS_DIR p) (normalizeFilename p author) := buffer]> w0)).
Proof.
  intros answer result. subst result.
  assert (Hne : ∀ c, fst (generateAvatar_with p prompt w) ≠ Exit c).
  { destruct (generateAvatar_with_frame p prompt w) as (r & -> & H). exact H. }
  rewrite generateAvatar_with_eq in *. fold answer in Hne |- *. simpl in *.
  assert (Hshape : ∀ r data elems,
    answer = Responded r → ok r = true → json r = inr data →
    response_parts data = VArr elems →
    client_result answer =
      match scan elems with
      | Ok part => if truthy part && truthy (inline_data part)
                   then Ok (inline_data part)
                   else Throw (lit "No image data in response")
      | other => other
      end).
  { intros r data elems -> Hok Hjson Hparts. unfold client_result.
    rewrite Hok, Hjson. simpl. destruct data; try done; by rewrite Hparts. }
  split; [done|]. split; [|split; [|split; [|split; [|split; [|split; [|split]]]]]].
  - exact Hne.
  - intros e. destruct (client_result answer); try done. intros [= <-]. by eexists.
  - intros r -> Hok. unfold client_result. by rewrite Hok.
  - intros r data -> Hok Hjson Hn Hparts. unfold client_result.
    rewrite Hok, Hjson. simpl. destruct data; try done; by rewrite Hparts.
  - intros r data parts Ha Hok Hjson Hparts Hall.
    rewrite (Hshape _ _ _ Ha Hok Hjson Hparts), (scan_none _ Hall). done.
  - intros r data before part after Ha Hok Hjson Hparts Hb Hc Hd.
    rewrite (Hshape _ _ _ Ha Hok Hjson Hparts), (scan_found _ _ _ Hb Hc), Hd.
    by rewrite andb_false_r.
  - intros d. split.
    + unfold client_result. destruct answer as [e|r] eqn:Ha; [done|].
      destruct (ok r) eqn:Hok; [|done]. simpl.
      destruct (json r) as [e|data] eqn:Hjson; [done|].
      destruct (nullish data) eqn:Hn; [by destruct data|].
      assert (Hd : ∀ X : Outcome JsVal,
        match data with
        | VUndef => Throw (type_error_read "undefined" "candidates")
        | VNull => Throw (type_error_read "null" "candidates")
        | _ => X
        end = X) by (intros X; by destruct data).
      rewrite Hd. destruct (truthy (response_parts data)); [|done]. simpl.
      destruct (response_parts data) as [| | | | |elems|] eqn:Hparts; try done.
      destruct (scan elems) as [part|e|c] eqn:Hscan; try done.
      destruct (truthy part && truthy (inline_data part)) eqn:Ht; [|done].
      intros [= <-]. apply andb_true_iff in Ht as [Htp Htd].
      destruct (scan_inv _ _ Hscan) as [[-> _]|(before & after & -> & Hb & Hc)]; [done|].
      by exists r, data, before, part, after.
    + intros (r & data & before & part & after & Ha & Hok & Hjson & Hparts & Hb & Hc
              & <- & Ht).
      rewrite (Hshape _ _ _ Ha Hok Hjson Hparts), (scan_found _ _ _ Hb Hc), Ht.
      assert (truthy part = true) as -> by (by destruct part). done.
  - intros author d buffer w0 Hb Hf.
    unfold Batch.saveAvatar, bind, lift_sum, writeFileSync, modify.
    rewrite Hb. simpl. by rewrite Hf.
Qed.

Lemma generator_client_contract_witness :
  let p := Fixture.platform (Some (lit "key")) (Fixture.flaky [1%nat]) Fixture.no_fault in
  let w := Fixture.empty_world in
  let w1 := set_requests (λ l, l ++ [request_for p (lit "again")]) w in
  fst (generateAvatar_with p (Batch.prompt (lit "Plato")) w) = Ok (VStr (lit "aGk=")) ∧
  fst (generateAvatar_with p (Batch.prompt (lit "Plato")) w1)
  = Throw (lit "Generation failed: API error: 500 - Internal error").
Proof.
  intros p w w1. split.
  - destruct (generator_client_contract p (Batch.prompt (lit "Plato")) w)
      as (_ & _ & _ & _ & _ & _ & _ & Hok & _).
    apply Hok.
    exists (Fixture.image_response (lit "aGk=")).
    eexists _, [], _, [].
    split; [reflexivity|]. split; [reflexivity|]. split; [reflexivity|].
    split; [reflexivity|]. split; [constructor|]. split; [reflexivity|].
    split; reflexivity.
  - destruct (generator_client_contract p (Batch.prompt (lit "Plato")) w1)
      as (_ & _ & _ & Hstatus & _).
    exact (Hstatus (Fixture.error_response 500 (lit "Internal error")) eq_refl eq_refl).
Defined.

(** C7 as stated fails twice.  The parts of this success response contain
    inline image data (in the second part), and yet the client fails,
    because the first part with [inlineData] has no [data].  And on a
    success response whose part carries the base64 text [aGk=], the client
    returns that text, not its decoding (the two bytes of [hi]). *)
Lemma client_contract_counterexample :
  let two := Fixture.platform (Some (lit "key"))
               (λ _ _, Responded (Fixture.two_part_response (lit "aGk="))) Fixture.no_fault in
  let one := Fixture.platform (Some (lit "key"))
               (λ _ _, Responded (Fixture.image_response (lit "aGk="))) Fixture.no_fault in
  let prompt := Batch.prompt (lit "Plato") in
  (ok (Fixture.two_part_response (lit "aGk=")) = true ∧
   ∃ data parts part,
     json (Fixture.two_part_response (lit "aGk=")) = inr data ∧
     response_parts data = VArr parts ∧
     part ∈ parts ∧ inline_data part = VStr (lit "aGk=") ∧
     fst (generateAvatar_with two prompt Fixture.empty_world)
     = Throw (lit "Generation failed: No image data in response")) ∧
  (fst (generateAvatar_with one prompt Fixture.empty_world) = Ok (VStr (lit "aGk=")) ∧
   Fixture.base64_decode (lit "aGk=") = lit "hi" ∧
   fst (generateAvatar_with one prompt Fixture.empty_world)
   ≠ Ok (VStr (Fixture.base64_decode (lit "aGk=")))).
Proof.
  split.
  - split; [reflexivity|]. eexists _, _, _. split; [reflexivity|]. split; [reflexivity|].
    split; [apply elem_of_cons; right; apply elem_of_cons; left; reflexivity|].
    split; [reflexivity|]. vm_compute. reflexivity.
  - split; [vm_compute; reflexivity|]. split; [reflexivity|].
    vm_compute. discriminate.
Qed.

(** ** The backup path *)

Section BackupPath.
Lemma starts_with_app_l pat X rest :
  starts_with pat X = true → starts_with pat (X ++ rest) = true.
Proof.
  revert X. induction pat as [|a pat IH]; intros [|b X]; simpl; try done.
  intros [Hab HX]%andb_true_iff. rewrite Hab. simpl. by apply IH.
Qed.

Lemma starts_with_app_inv pat X rest :
  starts_with pat (X ++ rest) = true →
  starts_with pat X = true ∨
  ∃ t tail, pat = X ++ t :: tail ∧ starts_with (t :: tail) rest = true.
Proof.
  revert X. induction pat as [|a pat IH]; intros X; [by destruct X; left|].
  destruct X as [|b X].
  - intros H. right. by exists a, pat.
  - simpl. intros [Hab HX]%andb_true_iff. rewrite Hab. simpl.
    destruct (IH X HX) as [H | (t & tail & -> & H)]; [by left|].
    right. exists t, tail. split; [|done].
    apply bool_decide_eq_true in Hab. by rewrite Hab.
Qed.

Lemma includes_suffix pat Y X : includes pat (Y ++ X) = false → starts_with pat X = false.
Proof.
  induction Y as [|c Y IH]; simpl.
  - destruct X; simpl; by intros [? _]%orb_false_iff.
  - intros [_ H]%orb_false_iff. by apply IH.
Qed.

Lemma replace_first_cons pat rep c s :
  replace_first pat rep (c :: s)
  = if starts_with pat (c :: s) then rep ++ drop (length pat) (c :: s)
    else c :: replace_first pat rep s.
Proof. done. Qed.

(** No occurrence of [.png] starts in a stretch that ends at a separator
    and in which the pattern does not occur. *)
Lemma replace_first_directory rep D rest :
  (∀ Y X, D = Y ++ X → starts_with (lit ".png") X = false) →
  replace_first (lit ".png") rep (D ++ 47%N :: rest)
  = D ++ 47%N :: replace_first (lit ".png") rep rest.
Proof.
  induction D as [|c D IH]; intros Hclean.
  - done.
  - simpl app. rewrite replace_first_cons.
    destruct (starts_with (lit ".png") (c :: D ++ 47%N :: rest)) eqn:Hs.
    + apply (starts_with_app_inv _ (c :: D)) in Hs as [Hs | (t & tail & Hpat & Hs)].
      * by rewrite (Hclean [] (c :: D)) in Hs.
      * simpl in Hs. apply andb_true_iff in Hs as [Ht%bool_decide_eq_true _]. subst t.
        exfalso. assert (Hin : 47%N ∈ lit ".png").
        { rewrite Hpat. apply elem_of_app. right. by left. }
        vm_compute in Hin. by repeat (apply elem_of_cons in Hin as [|Hin]; [done|]);
          apply elem_of_nil in Hin.
    + f_equal. apply IH. intros Y X ->. by apply (Hclean (c :: Y) X).
Qed.

Lemma replace_first_stem rep s :
  46%N ∉ s → replace_first (lit ".png") rep (s ++ lit ".png") = s ++ rep.
Proof.
  induction s as [|c s IH]; intros Hdot.
  - vm_compute drop. simpl. by rewrite app_nil_r.
  - simpl app. rewrite replace_first_cons.
    assert (Hc : c ≠ 46%N) by (intros ->; apply Hdot; by left).
    replace (starts_with (lit ".png") (c :: s ++ lit ".png")) with false.
    + f_equal. apply IH. intros H. apply Hdot. by right.
    + simpl. by rewrite bool_decide_eq_false_2.
Qed.

Lemma stem_no_dot p author : 46%N ∉ stem p author.
Proof.
  unfold stem. intros (c & Hc & _)%list_elem_of_fmap.
  destruct (is_lower_alnum c) eqn:E; [|done]. subst c. done.
Qed.

(** The backup of a target in a directory whose path has no [.png] is
    its sibling [<stem>.backup.png]. *)
Lemma backup_path_sibling p author :
  includes (lit ".png") (AVATARS_DIR p) = false →
  Regenerate.backup_path (path_join (AVATARS_DIR p) (normalizeFilename p author))
  = path_join (AVATARS_DIR p) (stem p author ++ lit ".backup.png").
Proof.
  intros Hdir. unfold Regenerate.backup_path, normalizeFilename. fold (stem p author).
  assert (Hrest : replace_first (lit ".png") (lit ".backup.png") (stem p author ++ lit ".png")
                  = stem p author ++ lit ".backup.png")
    by apply replace_first_stem, stem_no_dot.
  unfold path_join.
  destruct (last (AVATARS_DIR p)) as [c|] eqn:Hlast.
  - destruct (decide (c = 47%N)) as [->|Hc].
    + apply last_Some in Hlast as [D HD]. rewrite HD in *.
      rewrite <- !app_assoc. simpl.
      rewrite replace_first_directory, Hrest; [done|].
      intros Y X ->. rewrite <- app_assoc in Hdir.
      apply includes_suffix in Hdir.
      destruct (starts_with (lit ".png") X) eqn:HX; [|done].
      by rewrite (starts_with_app_l _ _ _ HX) in Hdir.
    + replace (match c with 47%N => AVATARS_DIR p ++ (stem p author ++ lit ".png")
               | _ => AVATARS_DIR p ++ lit "/" ++ stem p author ++ lit ".png" end)
        with (AVATARS_DIR p ++ 47%N :: (stem p author ++ lit ".png")).
      2: { destruct c as [|c]; [done|]. do 6 (destruct c as [c|c|]; try done). }
      replace (match c with 47%N => AVATARS_DIR p ++ (stem p author ++ lit ".backup.png")
               | _ => AVATARS_DIR p ++ lit "/" ++ stem p author ++ lit ".backup.png" end)
        with (AVATARS_DIR p ++ 47%N :: (stem p author ++ lit ".backup.png")).
      2: { destruct c as [|c]; [done|]. do 6 (destruct c as [c|c|]; try done). }
      rewrite replace_first_directory, Hrest; [done|].
      intros Y X HX. rewrite HX in Hdir. by apply includes_suffix in Hdir.
  - change (lit "/" ++ ?x) with (47%N :: x).
    rewrite replace_first_directory, Hrest; [done|].
    intros Y X HX. rewrite HX in Hdir. by apply includes_suffix in Hdir.
Qed.
End BackupPath.

(** ** The targeted persister *)

Section Backup.
Context (p : Platform) (author : jsstring).
Context (Hlog : fs_fault p (Regenerate.LOG_FILE p) = None).

Let target := path_join (AVATARS_DIR p) (normalizeFilename p author).

Lemma Regenerate_saveAvatar_present w old data buffer :
  fs_fault p target = None → fs_fault p (Regenerate.backup_path target) = None →
  images w !! target = Some old → Buffer_from_base64 p data = inr buffer →
  Regenerate.saveAvatar p author data w
  = (Ok (normalizeFilename p author),
     set_images <[target := buffer]>
       (logged p (Regenerate.LOG_FILE p) false
          (MBackedUp (basename (Regenerate.backup_path target)))
          (set_images <[Regenerate.backup_path target := old]> w))).
Proof.
  intros Ht Hb Hold Hbuf.
  unfold Regenerate.saveAvatar, copyFileSync, Regenerate.log, writeFileSync, when, existsSync,
    lift_sum, modify, bind, gets.
  fold target. simpl.
  rewrite (bool_decide_eq_true_2 (is_Some (images w !! target))) by by (rewrite Hold; eexists).
  rewrite Hold. simpl.
  rewrite Hb. simpl. rewrite log_to_ok by done. rewrite Hbuf. simpl. by rewrite Ht.
Qed.

Lemma Regenerate_saveAvatar_absent w data buffer :
  fs_fault p target = None →
  images w !! target = None → Buffer_from_base64 p data = inr buffer →
  Regenerate.saveAvatar p author data w
  = (Ok (normalizeFilename p author), set_images <[target := buffer]> w).
Proof.
  intros Ht Hnone Hbuf.
  unfold Regenerate.saveAvatar, bind, existsSync, gets, when, writeFileSync, modify, lift_sum.
  fold target. simpl.
  rewrite (bool_decide_eq_false_2 (is_Some (images w !! target)))
    by (rewrite Hnone; by intros [? [=]]).
  simpl.
  rewrite Hbuf. simpl. by rewrite Ht.
Qed.

(** Whatever fails in it, a call that finds a file at the target leaves
    the target as it was or has first copied it to the backup path. *)
Lemma Regenerate_saveAvatar_keeps w old data r w' :
  Regenerate.backup_path target ≠ target →
  images w !! target = Some old →
  Regenerate.saveAvatar p author data w = (r, w') →
  images w' !! target = Some old ∨
  images w' !! Regenerate.backup_path target = Some old.
Proof.
  intros Hne Hold.
  unfold Regenerate.saveAvatar, copyFileSync, Regenerate.log, when, existsSync,
    lift_sum, modify, bind, gets.
  fold target. simpl.
  rewrite (bool_decide_eq_true_2 (is_Some (images w !! target))) by by (rewrite Hold; eexists).
  rewrite Hold. simpl.
  destruct (fs_fault p (Regenerate.backup_path target)); simpl.
  { destruct (fs_point p (Regenerate.backup_path target)); simpl;
      intros [= _ <-]; left; simpl; [done|by rewrite lookup_delete_ne..]. }
  case_log.
  - destruct (Buffer_from_base64 p data); simpl.
    + intros [= _ <-]. right. simpl. by rewrite lookup_insert_eq.
    + rewrite writeFileSync_eq. unfold image_residue.
      destruct (fs_fault p target); [destruct (fs_point p target)|]; simpl;
        intros [= _ <-]; right; simpl;
        rewrite ?(lookup_insert_ne _ target) by done; by rewrite lookup_insert_eq.
  - intros [= _ <-]. right. destruct F as (-> & _). simpl. by rewrite lookup_insert_eq.
Qed.

Lemma path_join_inj dir x y : path_join dir x = path_join dir y → x = y.
Proof.
  unfold path_join. destruct (last dir) as [c|]; [destruct (decide (c = 47%N)) as [->|Hc]|].
  - by intros ?%app_inv_head.
  - replace (match c with 47%N => dir ++ x | _ => dir ++ lit "/" ++ x end)
      with (dir ++ lit "/" ++ x).
    2: { destruct c as [|c]; [done|]. do 6 (destruct c as [c|c|]; try done). }
    replace (match c with 47%N => dir ++ y | _ => dir ++ lit "/" ++ y end)
      with (dir ++ lit "/" ++ y).
    2: { destruct c as [|c]; [done|]. do 6 (destruct c as [c|c|]; try done). }
    by intros ?%app_inv_head%app_inv_head.
  - by intros ?%app_inv_head%app_inv_head.
Qed.
End Backup.

(** The backup policy of the targeted driver, where the code keeps it:
    for an output directory whose path does not contain [.png], and the run
    log, the target and the backup being writable, the backup path is the
    sibling [<stem>.backup.png], distinct from the target.  A call of
    [saveAvatar] that finds a file at the target leaves its content at the
    backup path and the new payload at the target, and changes no other
    file (and if anything fails in it, the target is as it was or its
    content is at the backup path); one that finds none writes the target
    only.  After [N >= 1] calls on the same name, the first finding a file:
    the target holds the payload of call [N], the backup holds what the
    target held just before call [N] (the payload of call [N - 1], or the
    original file when [N = 1]), and the directory has gained the one backup
    file and nothing else. *)
Theorem targeted_backup_policy (p : Platform) (author : jsstring) :
  includes (lit ".png") (AVATARS_DIR p) = false →
  fs_fault p (Regenerate.LOG_FILE p) = None →
  let target := path_join (AVATARS_DIR p) (normalizeFilename p author) in
  let backup := path_join (AVATARS_DIR p) (stem p author ++ lit ".backup.png") in
  fs_fault p target = None → fs_fault p backup = None →
  Regenerate.backup_path target = backup ∧ backup ≠ target ∧
  (∀ w old data r w',
      images w !! target = Some old →
      Regenerate.saveAvatar p author data w = (r, w') →
      images w' !! target = Some old ∨ images w' !! backup = Some old) ∧
  (∀ w old data buffer,
      images w !! target = Some old → Buffer_from_base64 p data = inr buffer →
      ∃ w', Regenerate.saveAvatar p author data w = (Ok (normalizeFilename p author), w') ∧
            images w' = <[target := buffer]> (<[backup := old]> (images w))) ∧
  (∀ w data buffer,
      images w !! target = None → Buffer_from_base64 p data = inr buffer →
      ∃ w', Regenerate.saveAvatar p author data w = (Ok (normalizeFilename p author), w') ∧
            images w' = <[target := buffer]> (images w)) ∧
  (∀ payloads buffers old w,
      images w !! target = Some old →
      Forall2 (λ data buffer, Buffer_from_base64 p data = inr buffer) payloads buffers →
      payloads ≠ [] →
      ∃ w', save_each p author payloads w = (Ok tt, w') ∧
            images w' !! target = (old :: buffers) !! length payloads ∧
            images w' !! backup = (old :: buffers) !! (length payloads - 1)%nat ∧
            dom (images w') = dom (images w) ∪ {[backup]} ∧
            ∀ path, path ≠ target → path ≠ backup → images w' !! path = images w !! path).
Proof.
  intros Hdir Hlog target backup Ht Hb.
  assert (Hsibling : Regenerate.backup_path target = backup)
    by by apply backup_path_sibling.
  assert (Hne : backup ≠ target).
  { intros H. apply path_join_inj in H. unfold normalizeFilename in H. fold (stem p author) in H.
    by apply app_inv_head in H. }
  assert (Hone : ∀ w old data buffer,
    images w !! target = Some old → Buffer_from_base64 p data = inr buffer →
    ∃ w', Regenerate.saveAvatar p author data w = (Ok (normalizeFilename p author), w') ∧
          images w' = <[target := buffer]> (<[backup := old]> (images w))).
  { intros w old data buffer Hold Hbuf. eexists. split.
    - apply Regenerate_saveAvatar_present; try done. fold target. by rewrite Hsibling.
    - simpl. fold target. by rewrite Hsibling. }
  split; [done|]. split; [done|]. split; [|split; [done|split]].
  - intros w old data r w' Hold E. rewrite <- Hsibling.
    apply (Regenerate_saveAvatar_keeps p author w old data r w'); try done.
    fold target. by rewrite Hsibling.
  - intros w data buffer Hnone Hbuf. eexists. split.
    + by apply Regenerate_saveAvatar_absent.
    + done.
  - intros payloads buffers old w Hold Hall. revert old w Hold.
    induction Hall as [|data buffer payloads buffers Hbuf Hall IH]; [done|].
    intros old w Hold _.
    destruct (Hone w old data buffer Hold Hbuf) as (w1 & E1 & Hw1).
    simpl save_each. unfold bind. rewrite E1.
    destruct payloads as [|data' payloads].
    + inversion Hall; subst. exists w1. split; [done|]. rewrite Hw1. simpl.
      split; [by rewrite lookup_insert_eq|].
      split; [by rewrite lookup_insert_ne, lookup_insert_eq|].
      split.
      * rewrite !dom_insert_L. assert (target ∈ dom (images w)) by (apply elem_of_dom; eauto).
        set_solver.
      * intros path ? ?. by rewrite !lookup_insert_ne.
    + destruct (IH buffer w1) as (w' & E & Htarget & Hbackup & Hdom & Hother); [|done|].
      { rewrite Hw1. by rewrite lookup_insert_eq. }
      exists w'. split; [done|]. split; [exact Htarget|]. split.
      * rewrite Hbackup. simpl. by rewrite Nat.sub_0_r.
      * split.
        -- rewrite Hdom, Hw1, !dom_insert_L.
           assert (target ∈ dom (images w)) by (apply elem_of_dom; eauto). set_solver.
        -- intros path ? ?. rewrite Hother by done. rewrite Hw1. by rewrite !lookup_insert_ne.
Qed.

Lemma targeted_backup_policy_witness :
  let p := Fixture.platform (Some (lit "key")) (Fixture.flaky []) Fixture.no_fault in
  let target := lit "/srv/avatars-repo/avatars/plato.png" in
  let backup := lit "/srv/avatars-repo/avatars/plato.backup.png" in
  let w := Fixture.with_images {[ target := lit "v0" ]} in
  ∃ w', save_each p (lit "Plato")
          [VStr (lit "aGk="); VStr (lit "aGVsbG8="); VStr (lit "Ynll")] w = (Ok tt, w') ∧
        images w' !! target = Some (lit "bye") ∧
        images w' !! backup = Some (lit "hello") ∧
        dom (images w') = dom (images w) ∪ {[backup]}.
Proof.
  intros p target backup w.
  destruct (targeted_backup_policy p (lit "Plato") eq_refl eq_refl eq_refl eq_refl)
    as (_ & _ & _ & _ & _ & Hcalls).
  destruct (Hcalls [VStr (lit "aGk="); VStr (lit "aGVsbG8="); VStr (lit "Ynll")]
              [lit "hi"; lit "hello"; lit "bye"] (lit "v0") w)
    as (w' & E & Ht & Hb & Hd & _).
  - apply lookup_singleton_eq.
  - repeat constructor.
  - done.
  - exists w'. split; [exact E|]. split; [exact Ht|]. split; [exact Hb|exact Hd].
Defined.

(** C3. The code misses the policy when the path of the output directory
    itself holds [.png]: [filepath.replace('.png', '.backup.png')] replaces
    the first occurrence in the whole path.  Installed in [/srv/site.png],
    the script computes for [plato.png] the backup path
    [/srv/site.backup.png/avatars/plato.png]: it lies in another directory
    and bears the target's own name, with no suffix.  When that directory
    exists, a regeneration copies the old file there, announces a backup
    named [plato.png] and leaves no backup beside the target; when it does
    not, the copy fails, the payload is not saved and the item is counted
    as failed, the old file staying as it was. *)
Theorem backup_misses_the_sibling :
  let here := Fixture.installed_in (lit "/srv/site.png")
                (Fixture.platform (Some (lit "key")) (Fixture.flaky []) Fixture.no_fault) in
  let nowhere := Fixture.installed_in (lit "/srv/site.png")
                   (Fixture.platform (Some (lit "key")) (Fixture.flaky [])
                      (λ path, if bool_decide
                                    (path = lit "/srv/site.backup.png/avatars/plato.png")
                               then Some (lit "ENOENT: no such file or directory, copyfile")
                               else None)) in
  let target := lit "/srv/site.png/avatars/plato.png" in
  let sibling := lit "/srv/site.png/avatars/plato.backup.png" in
  let elsewhere := lit "/srv/site.backup.png/avatars/plato.png" in
  let w := Fixture.with_images {[ target := lit "v0" ]} in
  path_join (AVATARS_DIR here) (normalizeFilename here (lit "Plato")) = target ∧
  Regenerate.backup_path target = elsewhere ∧
  Regenerate.backup_path target ≠ sibling ∧
  basename (Regenerate.backup_path target) = basename target ∧
  (∃ w', Regenerate.saveAvatar here (lit "Plato") (VStr (lit "aGk=")) w
         = (Ok (lit "plato.png"), w') ∧
         images w' !! target = Some (lit "hi") ∧
         images w' !! elsewhere = Some (lit "v0") ∧
         images w' !! sibling = None ∧
         snd <$> log_lines (Regenerate.LOG_FILE here) w' = [MBackedUp (lit "plato.png")]) ∧
  (∃ w', Regenerate.saveAvatar nowhere (lit "Plato") (VStr (lit "aGk=")) w
         = (Throw (lit "ENOENT: no such file or directory, copyfile"), w') ∧
         images w' = images w) ∧
  fst (Regenerate.main nowhere [lit "Plato"] w)
  = Ok {| successCount := 0; skipCount := 0; errorCount := 1;
          errors := [(lit "Plato", lit "ENOENT: no such file or directory, copyfile")] |}.
Proof.
  intros here nowhere target sibling elsewhere w.
  split; [reflexivity|]. split; [reflexivity|]. split; [by vm_compute|].
  split; [reflexivity|]. split; [|split].
  - eexists. split; [vm_compute; reflexivity|]. by vm_compute.
  - eexists. split; [vm_compute; reflexivity|]. reflexivity.
  - vm_compute. reflexivity.
Qed.

(** * Further properties of the scripts *)

(** ** The command line *)

Section CommandLine.

Lemma lit_app s1 s2 : lit (s1 +:+ s2) = lit s1 ++ lit s2.
Proof.
  unfold lit. induction s1 as [|a s1 IH]; [done|].
  simpl. f_equal. exact IH.
Qed.

Lemma lit_String c s : lit (String c s) = Ascii.N_of_ascii c :: lit s.
Proof. done. Qed.

Lemma pretty_N_char_code d :
  (d < 10)%N → Ascii.N_of_ascii (pretty_N_char d) = (48 + d)%N.
Proof.
  intros H.
  assert (d = 0 ∨ d = 1 ∨ d = 2 ∨ d = 3 ∨ d = 4 ∨ d = 5 ∨ d = 6 ∨ d = 7 ∨ d = 8 ∨ d = 9)%N
    as Hd by lia.
  by repeat destruct Hd as [->|Hd]; [..|subst d].
Qed.

(** The numeral that [pretty] builds: decimal digits whose value is the
    number. *)
Lemma pretty_N_go_digits x : ∀ s,
  ∃ ds, lit (pretty_N_go x s) = ds ++ lit s ∧ Forall is_decimal ds ∧
        fold_left (λ acc d, acc * 10 + d) ((λ c, Z.of_N c - 48) <$> ds) 0 = Z.of_N x ∧
        (0 < x → ds ≠ [])%N.
Proof.
  induction (N.lt_wf_0 x) as [x _ IH]. intros s.
  destruct (decide (x = 0)%N) as [->|Hx].
  - exists []. rewrite pretty_N_go_0. repeat split; [done|lia].
  - rewrite pretty_N_go_step by lia.
    destruct (IH (x `div` 10)%N) with (s := String (pretty_N_char (x `mod` 10)) s)
      as (ds & E & Hds & Hval & _).
    { apply N.div_lt; lia. }
    assert (Hm : (x `mod` 10 < 10)%N) by (apply N.mod_lt; lia).
    exists (ds ++ [(48 + x `mod` 10)%N]).
    rewrite E, lit_String, pretty_N_char_code, <- app_assoc by done.
    split; [done|]. split; [|split].
    + apply Forall_app. split; [done|]. constructor; [|done]. unfold is_decimal.
      clear -Hm. revert Hm. generalize (x `mod` 10)%N. intros m Hm. lia.
    + rewrite fmap_app, fold_left_app, Hval. simpl.
      pose proof (N.div_mod x 10) as Hdm. clear -Hdm Hm. revert Hdm Hm.
      generalize (x `mod` 10)%N (x `div` 10)%N. intros m q Hdm Hm. lia.
    + intros _. by destruct ds.
Qed.

Lemma read_digits_decimal ds :
  Forall is_decimal ds → read_digits 10 ds = (λ c, Z.of_N c - 48) <$> ds.
Proof.
  induction 1 as [|c ds Hc _ IH]; [done|].
  simpl. unfold digit_value.
  replace ((48 <=? c)%N && (c <=? 57)%N) with true
    by (unfold is_decimal in Hc; symmetry; apply andb_true_iff; split; apply N.leb_le; lia).
  replace (Z.of_N c - 48 <? 10) with true
    by (unfold is_decimal in Hc; symmetry; apply Z.ltb_lt; lia).
  by rewrite IH.
Qed.

Lemma is_space_decimal c : is_decimal c → is_space c = false.
Proof.
  unfold is_decimal, is_space. intros Hc.
  apply orb_false_iff. split.
  - apply bool_decide_eq_false. intros Hin.
    repeat (apply elem_of_cons in Hin as [->|Hin]; [lia|]). by apply elem_of_nil in Hin.
  - apply andb_false_iff. left. apply N.leb_gt. lia.
Qed.

(** A numeral: an optional minus sign, then decimal digits. *)
Lemma parseInt_numeral (negative : bool) ds :
  Forall is_decimal ds → ds ≠ [] →
  let value := fold_left (λ acc d, acc * 10 + d) ((λ c, Z.of_N c - 48) <$> ds) 0 in
  parseInt ((if negative then [45%N] else []) ++ ds)
  = Some (if negative then - value else value).
Proof.
  intros Hds Hne value. subst value.
  rewrite <- (read_digits_decimal ds Hds).
  destruct Hds as [|c ds Hc Hds]; [done|].
  assert (Hsign : match c :: ds with
                  | 45%N :: rest => (true, rest)
                  | 43%N :: rest => (false, rest)
                  | _ => (false, c :: ds)
                  end = (false, c :: ds)).
  { unfold is_decimal in Hc.
    destruct (decide (c = 45%N)) as [->|?]; [lia|].
    destruct (decide (c = 43%N)) as [->|?]; [lia|].
    destruct c as [|q]; [done|]. do 6 (destruct q as [q|q|]; try done). }
  assert (Hradix : match c :: ds with
                   | 48%N :: 120%N :: rest | 48%N :: 88%N :: rest => (16, rest)
                   | _ => (10, c :: ds)
                   end = (10, c :: ds)).
  { destruct Hds as [|c' ds' Hc' _].
    - destruct c as [|q]; [done|]. do 6 (destruct q as [q|q|]; try done).
    - unfold is_decimal in Hc'.
      destruct (decide (c' = 120%N)) as [->|?]; [lia|].
      destruct (decide (c' = 88%N)) as [->|?]; [lia|].
      destruct c as [|q]; [done|].
      do 6 (destruct q as [q|q|]; try done);
        (destruct c' as [|q']; [done|]; do 7 (destruct q' as [q'|q'|]; try done)). }
  assert (Hdigits : read_digits 10 (c :: ds) ≠ []).
  { rewrite read_digits_decimal by by constructor. done. }
  unfold parseInt. destruct negative.
  - change (trim_start ([45%N] ++ c :: ds)) with (45%N :: c :: ds). cbv iota beta.
    rewrite Hradix. by destruct (read_digits 10 (c :: ds)).
  - simpl app. simpl trim_start. rewrite (is_space_decimal c Hc), Hsign, Hradix.
    by destruct (read_digits 10 (c :: ds)).
Qed.

(** [parseInt] reads back the decimal numeral of an integer. *)
Lemma parseInt_pretty (n : Z) : parseInt (lit (pretty n)) = Some n.
Proof.
  assert (Hpos : ∀ q, ∃ ds, lit (pretty (N.pos q)) = ds ∧ Forall is_decimal ds ∧ ds ≠ [] ∧
    fold_left (λ acc d, acc * 10 + d) ((λ c, Z.of_N c - 48) <$> ds) 0 = Z.pos q).
  { intros q. unfold pretty, pretty_N. rewrite decide_False by done.
    destruct (pretty_N_go_digits (N.pos q) "") as (ds & E & Hds & Hval & Hne).
    exists ds. rewrite E.
    split; [apply app_nil_r|]. split; [done|]. split; [apply Hne; lia|]. by rewrite Hval. }
  destruct n as [|q|q].
  - reflexivity.
  - destruct (Hpos q) as (ds & E & Hds & Hne & Hval).
    change (pretty (Z.pos q)) with (pretty (N.pos q)).
    rewrite E. etrans; [exact (parseInt_numeral false ds Hds Hne)|]. by rewrite Hval.
  - destruct (Hpos q) as (ds & E & Hds & Hne & Hval).
    change (pretty (Z.neg q)) with ("-" +:+ pretty (N.pos q)).
    rewrite lit_app, E. etrans; [exact (parseInt_numeral true ds Hds Hne)|]. by rewrite Hval.
Qed.

Lemma js_split_no_separator sep s : sep ∉ s → js_split sep s = [s].
Proof.
  induction s as [|c s IH]; [done|]. intros Hs.
  assert (c ≠ sep) by (intros ->; apply Hs; left).
  simpl. rewrite bool_decide_eq_false_2 by done.
  rewrite IH; [done|]. intros H'. apply Hs. by right.
Qed.

Lemma js_split_at_separator sep name rest :
  sep ∉ name → js_split sep (name ++ sep :: rest) = name :: js_split sep rest.
Proof.
  induction name as [|c name IH]; intros Hs; simpl.
  - by rewrite bool_decide_eq_true_2.
  - assert (c ≠ sep) by (intros ->; apply Hs; left).
    rewrite bool_decide_eq_false_2 by done.
    rewrite IH; [done|]. intros H'. apply Hs. by right.
Qed.

Lemma find_first {A} (f : A → bool) before x after :
  Forall (λ y, f y = false) before → f x = true →
  List.find f (before ++ x :: after) = Some x.
Proof.
  intros Hb Hx. induction Hb as [|y before Hy _ IH]; simpl.
  - by rewrite Hx.
  - by rewrite Hy.
Qed.

Lemma is_decimal_no_separator ds : Forall is_decimal ds → 61%N ∉ ds.
Proof.
  intros Hds Hin. rewrite Forall_forall in Hds. specialize (Hds _ Hin).
  unfold is_decimal in Hds. lia.
Qed.

Lemma pretty_no_separator (n : Z) : (61%N ∉ lit (pretty n)) ∧ lit (pretty n) ≠ [].
Proof.
  assert (Hpos : ∀ q, (61%N ∉ lit (pretty (N.pos q))) ∧ lit (pretty (N.pos q)) ≠ []).
  { intros q. unfold pretty, pretty_N. rewrite decide_False by done.
    destruct (pretty_N_go_digits (N.pos q) "") as (ds & E & Hds & _ & Hne).
    rewrite E. change (lit "") with (@nil N). rewrite app_nil_r.
    split; [by apply is_decimal_no_separator|]. apply Hne. lia. }
  destruct n as [|q|q].
  - split; [|done]. intros Hin. apply elem_of_cons in Hin as [?|Hin]; [done|].
    by apply elem_of_nil in Hin.
  - apply Hpos.
  - change (pretty (Z.neg q)) with ("-" +:+ pretty (N.pos q)).
    rewrite lit_app. split; [|done].
    intros Hin. apply elem_of_app in Hin as [Hin|Hin].
    + apply elem_of_cons in Hin as [?|Hin]; [done|]. by apply elem_of_nil in Hin.
    + by apply (proj1 (Hpos q)).
Qed.

(** The text between the first and the second [=] of the first argument
    that starts with the flag is the one read, whatever follows the second
    [=]. *)
Lemma option_text_value flag fallback before name (n : Z) tail after :
  Forall (λ arg, starts_with flag arg = false) before →
  starts_with flag name = true → 61%N ∉ name →
  tail = [] ∨ (∃ rest, tail = lit "=" ++ rest) →
  parseInt (option_text flag fallback
              (before ++ (name ++ lit "=" ++ lit (pretty n) ++ tail) :: after))
  = Some n.
Proof.
  intros Hb Hname Hsep Htail. unfold option_text.
  rewrite (find_first (starts_with flag) before _ after Hb (starts_with_app_l _ _ _ Hname)).
  change (lit "=" ++ ?x) with (61%N :: x).
  destruct (pretty_no_separator n) as [Hn Hne].
  rewrite js_split_at_separator by done.
  assert (Hvalue : ∃ pieces, js_split 61%N (lit (pretty n) ++ tail) = lit (pretty n) :: pieces).
  { destruct Htail as [-> | [rest ->]].
    - exists []. rewrite app_nil_r. by apply js_split_no_separator.
    - eexists. change (lit "=" ++ ?x) with (61%N :: x). by apply js_split_at_separator. }
  destruct Hvalue as [pieces ->]. simpl.
  destruct (lit (pretty n)) as [|c v] eqn:E; [done|].
  rewrite <- E. apply parseInt_pretty.
Qed.

(** An option whose argument has no [=] is given its fallback. *)
Lemma option_text_fallback flag fallback args :
  (∀ arg, List.find (starts_with flag) args = Some arg → 61%N ∉ arg) →
  option_text flag fallback args = fallback.
Proof.
  intros H. unfold option_text.
  destruct (List.find (starts_with flag) args) as [arg|]; [|done].
  by rewrite js_split_no_separator by by apply H.
Qed.
End CommandLine.

(** X1. The catalog driver takes each of [--start], [--limit] and
    [--delay] from the first argument that starts with the flag (the test is
    [startsWith]: a longer name counts), as the text between its first and
    its second [=]: what follows a second [=] is not read.  When that text
    is the decimal numeral of an integer [n] (of magnitude at most [2^53],
    where JS numbers are exact), the option is [n], whatever arguments come
    before or after. *)
Theorem command_line_values (args : list jsstring) :
  (∀ before name n tail after,
      args = before ++ (name ++ lit "=" ++ lit (pretty n) ++ tail) :: after →
      Forall (λ arg, starts_with (lit "--start") arg = false) before →
      starts_with (lit "--start") name = true → 61%N ∉ name →
      tail = [] ∨ (∃ rest, tail = lit "=" ++ rest) → Z.abs n ≤ 2 ^ 53 →
      Batch.startIndex (parse_args args) = Some n) ∧
  (∀ before name n tail after,
      args = before ++ (name ++ lit "=" ++ lit (pretty n) ++ tail) :: after →
      Forall (λ arg, starts_with (lit "--limit") arg = false) before →
      starts_with (lit "--limit") name = true → 61%N ∉ name →
      tail = [] ∨ (∃ rest, tail = lit "=" ++ rest) → Z.abs n ≤ 2 ^ 53 →
      Batch.limit (parse_args args) = Some n) ∧
  (∀ before name n tail after,
      args = before ++ (name ++ lit "=" ++ lit (pretty n) ++ tail) :: after →
      Forall (λ arg, starts_with (lit "--delay") arg = false) before →
      starts_with (lit "--delay") name = true → 61%N ∉ name →
      tail = [] ∨ (∃ rest, tail = lit "=" ++ rest) → Z.abs n ≤ 2 ^ 53 →
      Batch.delay (parse_args args) = Some n).
Proof.
  split; [|split]; intros before name n tail after -> Hb Hname Hsep Htail _;
    by apply option_text_value.
Qed.

Lemma command_line_values_witness :
  let args := [lit "--limit=10"; lit "--start=20=40"; lit "--start=30"] in
  Batch.startIndex (parse_args args) = Some 20 ∧
  Batch.limit (parse_args args) = Some 10.
Proof.
  intros args.
  destruct (command_line_values args) as (Hstart & Hlimit & _).
  split.
  - apply (Hstart [lit "--limit=10"] (lit "--start") 20 (lit "=40") [lit "--start=30"]).
    + reflexivity.
    + repeat constructor.
    + reflexivity.
    + vm_compute. intros Hin. by repeat (apply elem_of_cons in Hin as [?|Hin]; [done|]);
        apply elem_of_nil in Hin.
    + right. by exists (lit "40").
    + vm_compute. discriminate.
  - apply (Hlimit [] (lit "--limit") 10 [] [lit "--start=20=40"; lit "--start=30"]).
    + reflexivity.
    + constructor.
    + reflexivity.
    + vm_compute. intros Hin. by repeat (apply elem_of_cons in Hin as [?|Hin]; [done|]);
        apply elem_of_nil in Hin.
    + by left.
    + vm_compute. discriminate.
Defined.

(** X2. An option whose first matching argument has no [=] is not read:
    [startIndex] and [limit] are [0] and [delay] is [1000], as when the flag
    is absent.  That is the case of the two-argument form, [--start N],
    shown in the header comment of the script. *)
Theorem command_line_defaults (args : list jsstring) :
  ((∀ arg, List.find (starts_with (lit "--start")) args = Some arg → 61%N ∉ arg) →
   Batch.startIndex (parse_args args) = Some 0) ∧
  ((∀ arg, List.find (starts_with (lit "--limit")) args = Some arg → 61%N ∉ arg) →
   Batch.limit (parse_args args) = Some 0) ∧
  ((∀ arg, List.find (starts_with (lit "--delay")) args = Some arg → 61%N ∉ arg) →
   Batch.delay (parse_args args) = Some 1000).
Proof.
  split; [|split]; intros H; unfold parse_args; simpl;
    by rewrite option_text_fallback.
Qed.

Lemma command_line_defaults_witness :
  let args := [lit "--start"; lit "5"; lit "--limit"; lit "2"] in
  Batch.startIndex (parse_args args) = Some 0 ∧
  Batch.limit (parse_args args) = Some 0 ∧
  Batch.delay (parse_args args) = Some 1000.
Proof.
  intros args.
  destruct (command_line_defaults args) as (Hstart & Hlimit & Hdelay).
  split; [|split].
  - apply Hstart. intros arg [= <-]. vm_compute. intros Hin.
    by repeat (apply elem_of_cons in Hin as [?|Hin]; [done|]); apply elem_of_nil in Hin.
  - apply Hlimit. intros arg [= <-]. vm_compute. intros Hin.
    by repeat (apply elem_of_cons in Hin as [?|Hin]; [done|]); apply elem_of_nil in Hin.
  - apply Hdelay. intros arg [=].
Defined.

(** ** Frames: what every step of a run keeps, the run keeps *)

Section StepIn.
Context {S : Type} (R : relation S) `{!PreOrder R}.

Lemma step_in_ret {A} (x : A) : step_in R (ret x).
Proof. intros s r s' [= <- <-]. by split. Qed.

Lemma step_in_throw {A} e : step_in R (throw (A := A) e).
Proof. intros s r s' [= <- <-]. by split. Qed.

Lemma step_in_gets {A} (f : S → A) : step_in R (gets f).
Proof. intros s r s' [= <- <-]. by split. Qed.

Lemma step_in_modify f : (∀ s, R s (f s)) → step_in R (modify f).
Proof. intros H s r s' [= <- <-]. by split. Qed.

Lemma step_in_bind {A B} (m : M S A) (k : A → M S B) :
  step_in R m → (∀ a, step_in R (k a)) → step_in R (bind m k).
Proof.
  intros Hm Hk s r s' E. unfold bind in E.
  destruct (m s) as [[a|e|c] s1] eqn:E1; destruct (Hm _ _ _ E1) as [H1 N1].
  - destruct (Hk a _ _ _ E) as [H2 N2]. split; [by etrans|done].
  - injection E as <- <-. by split.
  - by destruct (N1 c).
Qed.

Lemma step_in_try_catch {A} (m : M S A) (h : jsstring → M S A) :
  step_in R m → (∀ e, step_in R (h e)) → step_in R (try_catch m h).
Proof.
  intros Hm Hh s r s' E. unfold try_catch in E.
  destruct (m s) as [[a|e|c] s1] eqn:E1; destruct (Hm _ _ _ E1) as [H1 N1].
  - injection E as <- <-. by split.
  - destruct (Hh e _ _ _ E) as [H2 N2]. split; [by etrans|done].
  - by destruct (N1 c).
Qed.

Lemma step_in_when c (m : M S unit) : step_in R m → step_in R (when c m).
Proof. destruct c; [done|]. intros _. apply step_in_ret. Qed.

Lemma step_in_lift_sum {A} (r : jsstring + A) : step_in R (lift_sum r).
Proof. destruct r; [apply step_in_throw|apply step_in_ret]. Qed.

Lemma step_in_pure {A} (m : M S A) : pure_step m → step_in R m.
Proof.
  intros Hm s r s' E. destruct (Hm s) as (r0 & E0 & N). rewrite E0 in E.
  injection E as <- <-. by split.
Qed.
End StepIn.

Lemma step_in_weaken {S A} (R R' : relation S) (m : M S A) :
  (∀ s s', R s s' → R' s s') → step_in R m → step_in R' m.
Proof. intros HR Hm s r s' E. destruct (Hm _ _ _ E). split; auto. Qed.

#[global] Instance on_world_preorder (R : relation World) : PreOrder R → PreOrder (on_world R).
Proof.
  intros [Hr Ht]. split.
  - intros s. apply Hr.
  - intros s1 s2 s3. apply Ht.
Qed.

Lemma step_in_inW {A} (R : relation World) (m : M World A) :
  step_in R m → step_in (on_world R) (inW m).
Proof.
  intros Hm s r s' E. unfold inW in E.
  destruct (m (world s)) as [r0 w'] eqn:E0. injection E as <- <-.
  apply (Hm _ _ _ E0).
Qed.

Lemma step_in_with_locals {A} (R : relation World) loaded (rest : M State A) :
  step_in (on_world R) rest → step_in R (with_locals loaded rest).
Proof.
  intros Hm w r w' E. unfold with_locals in E.
  destruct (rest _) as [r0 s'] eqn:E0. injection E as <- <-.
  apply (Hm _ _ _ E0).
Qed.

(** A change of the manifest object or of the counters is no change of the
    world. *)
Lemma step_in_locals (R : relation World) `{!PreOrder R} (f : State → State) :
  (∀ s, world (f s) = world s) → step_in (on_world R) (modify f).
Proof.
  intros Hf. apply (step_in_modify (on_world R)). intros s. unfold on_world. by rewrite Hf.
Qed.

Section Primitives.
Context (p : Platform) (R : relation World) `{!PreOrder R}.

Lemma step_in_now : (∀ w, R w (set_ticks S w)) → step_in R (now p).
Proof. intros H w r w' [= <- <-]. by split. Qed.

Lemma step_in_generateAvatar_with prompt :
  (∀ w request, R w (set_requests (λ l, l ++ [request]) w)) →
  step_in R (generateAvatar_with p prompt).
Proof.
  intros H w r w' E. destruct (generateAvatar_with_frame p prompt w) as (r0 & E0 & N).
  rewrite E0 in E. injection E as <- <-. by split.
Qed.

(** [log]: a reading of the clock, a line on the console, a line appended
    to the file. *)
Lemma step_in_log_to file stamped message :
  (∀ w, R w (set_ticks S w)) →
  (∀ w line, R w (set_console (λ c, c ++ [line]) w)) →
  (∀ w line, R w (set_logs <[file := log_lines file w ++ [line]]> w)) →
  step_in R (log_to p file stamped message).
Proof.
  intros Hticks Hconsole Hlogs.
  unfold log_to, console_log, appendFileSync.
  apply (step_in_bind R); [by apply step_in_now|]. intros stamp.
  apply (step_in_bind R); [by apply (step_in_modify R)|]. intros _.
  destruct (fs_fault p file); [by apply (step_in_throw R)|].
  by apply (step_in_modify R).
Qed.
End Primitives.

Ltac step :=
  lazymatch goal with
  | |- step_in ?R (ret _) => apply (step_in_ret R)
  | |- step_in ?R (throw _) => apply (step_in_throw R)
  | |- step_in ?R (gets _) => apply (step_in_gets R)
  | |- step_in ?R (lift_sum _) => apply (step_in_lift_sum R)
  | |- step_in ?R (when _ _) => apply (step_in_when R)
  | |- step_in ?R (bind _ _) => apply (step_in_bind R); [|intros ?]
  | |- step_in ?R (try_catch _ _) => apply (step_in_try_catch R); [|intros ?]
  | |- step_in (on_world ?R) (inW _) => apply (step_in_inW R)
  | |- step_in ?R (with_locals _ _) => apply (step_in_with_locals R)
  | |- step_in (on_world ?R) count_success => apply (step_in_locals R); done
  | |- step_in (on_world ?R) count_skip => apply (step_in_locals R); done
  | |- step_in (on_world ?R) (count_error _ _) => apply (step_in_locals R); done
  | |- step_in (on_world ?R) (set_avatar _ _) => apply (step_in_locals R); done
  | |- step_in (on_world ?R) (modify (set_manifest _)) => apply (step_in_locals R); done
  | |- step_in ?R (if ?x then _ else _) => destruct x
  | |- step_in ?R (match ?x with _ => _ end) => destruct x
  end.

(** ** The loops: what every pass keeps, the loop keeps *)

Section Loops.
Context (p : Platform) (T : relation State) `{!PreOrder T}.

Lemma Batch_loop_frame a total len items : ∀ i,
  (∀ i author, author ∈ items → step_in T (Batch.iteration p a total len i author)) →
  step_in T (Batch.loop p a total len i items).
Proof.
  induction items as [|author rest IH]; intros i Hitems; simpl.
  - apply (step_in_ret T).
  - apply (step_in_bind T).
    + apply Hitems. by left.
    + intros _. apply IH. intros j x Hx. apply Hitems. by right.
Qed.

Lemma Regenerate_loop_frame n items : ∀ i,
  (∀ i author, author ∈ items → step_in T (Regenerate.iteration p n i author)) →
  step_in T (Regenerate.loop p n i items).
Proof.
  induction items as [|author rest IH]; intros i Hitems; simpl.
  - apply (step_in_ret T).
  - apply (step_in_bind T).
    + apply Hitems. by left.
    + intros _. apply IH. intros j x Hx. apply Hitems. by right.
Qed.
End Loops.

(** ** The frame of a run of the catalog driver *)

Section BatchFrame.
Context (p : Platform) (R : relation World) `{!PreOrder R}.
Context (Hlog : ∀ message, step_in R (Batch.log p message)).
Context (Htick : ∀ w, R w (set_ticks S w)).
Context (Hsleep : ∀ w ms, R w (set_sleeps (λ l, l ++ [ms]) w)).
Context (Hrequest : ∀ w request, R w (set_requests (λ l, l ++ [request]) w)).
Context (Hmanifest : ∀ w v, R w (set_manifest_json v w)).

Lemma saveManifest_frame : step_in (on_world R) (saveManifest p).
Proof.
  unfold saveManifest, write_manifest.
  repeat step; try (by apply step_in_now); by apply (step_in_modify R).
Qed.

Lemma Batch_iteration_frame a total len i author :
  (∀ data, step_in R (Batch.saveAvatar p author data)) →
  step_in (on_world R) (Batch.iteration p a total len i author).
Proof.
  intros Hsave. unfold Batch.iteration, existsSync, sleep, Batch.generateAvatar.
  repeat step; try done; try by apply step_in_now.
  - by apply step_in_generateAvatar_with.
  - apply saveManifest_frame.
  - by apply (step_in_modify R).
Qed.

Lemma Batch_loop_on_world a total len items : ∀ i,
  (∀ i author, author ∈ items → step_in (on_world R) (Batch.iteration p a total len i author)) →
  step_in (on_world R) (Batch.loop p a total len i items).
Proof. intros i. apply (Batch_loop_frame p (on_world R)). Qed.

Lemma Batch_log_errors_frame l : step_in R (Batch.log_errors p l).
Proof. induction l as [|[author error] rest IH]; simpl; repeat step; done. Qed.

Lemma loadManifest_frame : step_in R (loadManifest p).
Proof. unfold loadManifest. repeat step; by apply step_in_now. Qed.

Lemma Batch_main_frame a :
  key_missing p = false →
  (∀ total len i author, step_in (on_world R) (Batch.iteration p a total len i author)) →
  step_in R (Batch.main p a).
Proof.
  intros Hkey Hitem. unfold Batch.main, Batch.read_authors. rewrite Hkey.
  repeat step; try done.
  - apply loadManifest_frame.
  - by apply Batch_loop_on_world.
  - apply Batch_log_errors_frame.
Qed.
End BatchFrame.

(** ** The frame of a run of the targeted driver *)

Section RegenerateFrame.
Context (p : Platform) (R : relation World) `{!PreOrder R}.
Context (Hlog : ∀ message, step_in R (Regenerate.log p message)).
Context (Htick : ∀ w, R w (set_ticks S w)).
Context (Hsleep : ∀ w ms, R w (set_sleeps (λ l, l ++ [ms]) w)).
Context (Hrequest : ∀ w request, R w (set_requests (λ l, l ++ [request]) w)).
Context (Hmanifest : ∀ w v, R w (set_manifest_json v w)).

Lemma Regenerate_iteration_frame n i author :
  (∀ data, step_in R (Regenerate.saveAvatar p author data)) →
  step_in (on_world R) (Regenerate.iteration p n i author).
Proof.
  intros Hsave. unfold Regenerate.iteration, sleep, Regenerate.generateAvatar.
  repeat step; try done; try by apply step_in_now.
  - by apply step_in_generateAvatar_with.
  - by apply saveManifest_frame.
  - by apply (step_in_modify R).
Qed.

Lemma Regenerate_loop_on_world n items : ∀ i,
  (∀ i author, author ∈ items → step_in (on_world R) (Regenerate.iteration p n i author)) →
  step_in (on_world R) (Regenerate.loop p n i items).
Proof. intros i. apply (Regenerate_loop_frame p (on_world R)). Qed.

Lemma Regenerate_log_errors_frame l : step_in R (Regenerate.log_errors p l).
Proof. induction l as [|[author error] rest IH]; simpl; repeat step; done. Qed.

Lemma Regenerate_log_numbered_frame l : ∀ i, step_in R (Regenerate.log_numbered p i l).
Proof. induction l as [|author rest IH]; intros i; simpl; repeat step; done. Qed.

Lemma Regenerate_main_frame names :
  key_missing p = false →
  (∀ n i author, author ∈ names → step_in (on_world R) (Regenerate.iteration p n i author)) →
  step_in R (Regenerate.main p names).
Proof.
  intros Hkey Hitem. unfold Regenerate.main. rewrite Hkey.
  repeat step; try done.
  - apply Regenerate_log_numbered_frame.
  - by apply loadManifest_frame.
  - apply Regenerate_loop_on_world. intros i author. apply Hitem.
  - apply Regenerate_log_errors_frame.
Qed.
End RegenerateFrame.

(** ** Exit codes *)

#[global] Instance total_preorder {S} : PreOrder (λ _ _ : S, True).
Proof. by split. Qed.

Section ExitCodes.
Context (p : Platform).

Lemma log_to_no_exit file stamped message : step_in (λ _ _, True) (log_to p file stamped message).
Proof. by apply (step_in_log_to p (λ _ _, True)). Qed.

Lemma Batch_saveAvatar_no_exit author data : step_in (λ _ _, True) (Batch.saveAvatar p author data).
Proof.
  unfold Batch.saveAvatar, writeFileSync.
  repeat step; by apply (step_in_modify (λ _ _, True)).
Qed.

Lemma Regenerate_saveAvatar_no_exit author data :
  step_in (λ _ _, True) (Regenerate.saveAvatar p author data).
Proof.
  unfold Regenerate.saveAvatar, writeFileSync, copyFileSync, existsSync. repeat step;
    try (by apply (step_in_modify (λ _ _, True))).
  all: apply log_to_no_exit.
Qed.
End ExitCodes.

(** X3. Either script ends with exit code [0] or [1], never another:
    [0] exactly when [main] returns, [1] when it throws, when it calls
    [process.exit(1)] (no credential), or, for the targeted script, when no
    name is given. *)
Theorem exit_codes (p : Platform) :
  (∀ a w, (fst (Batch.script p a w) = 0 ∧ ∃ t, fst (Batch.main p a w) = Ok t) ∨
          (fst (Batch.script p a w) = 1 ∧ ∀ t, fst (Batch.main p a w) ≠ Ok t)) ∧
  (∀ names w, (fst (Regenerate.script p names w) = 0 ∧ names ≠ [] ∧
               ∃ t, fst (Regenerate.main p names w) = Ok t) ∨
              (fst (Regenerate.script p names w) = 1 ∧
               (names = [] ∨ ∀ t, fst (Regenerate.main p names w) ≠ Ok t))).
Proof.
  split.
  - intros a w. unfold Batch.script.
    destruct (key_missing p) eqn:Hkey.
    { right. unfold Batch.main. rewrite Hkey. by split. }
    assert (H : step_in (λ _ _, True) (Batch.main p a)).
    { apply Batch_main_frame; try done.
      - intros message. apply log_to_no_exit.
      - intros total len i author. apply Batch_iteration_frame; try done.
        + intros message. apply log_to_no_exit.
        + apply Batch_saveAvatar_no_exit. }
    destruct (Batch.main p a w) as [[t|e|c] w'] eqn:E.
    + left. split; [done|]. by exists t.
    + right. by split.
    + by destruct (H _ _ _ E) as [_ N]; destruct (N c).
  - intros names w. unfold Regenerate.script.
    destruct names as [|name names]; [right; by split; [|left]|].
    destruct (key_missing p) eqn:Hkey.
    { right. unfold Regenerate.main. rewrite Hkey. split; [done|]. by right. }
    assert (H : step_in (λ _ _, True) (Regenerate.main p (name :: names))).
    { apply Regenerate_main_frame; try done.
      - intros message. apply log_to_no_exit.
      - intros n i author _. apply Regenerate_iteration_frame; try done.
        + intros message. apply log_to_no_exit.
        + apply Regenerate_saveAvatar_no_exit. }
    destruct (Regenerate.main p (name :: names) w) as [[t|e|c] w'] eqn:E.
    + left. split; [done|]. split; [done|]. by exists t.
    + right. split; [done|]. by right.
    + by destruct (H _ _ _ E) as [_ N]; destruct (N c).
Qed.

(** ** What a run only adds to *)

Section Grows.
Context (p : Platform) (own : jsstring).

#[global] Instance grows_preorder : PreOrder (grows own).
Proof.
  split.
  - intros w. by repeat split.
  - intros w1 w2 w3 (L1 & O1 & C1 & Q1 & S1 & T1 & A1) (L2 & O2 & C2 & Q2 & S2 & T2 & A2).
    repeat split; try (by etrans); try congruence; try lia.
    intros file Hf. by rewrite O2, O1.
Qed.

Lemma grows_ticks w : grows own w (set_ticks S w).
Proof. repeat split; simpl; try done. lia. Qed.

Lemma grows_console w lines : grows own w (set_console (λ c, c ++ lines) w).
Proof. repeat split; simpl; try done. by apply prefix_app_r. Qed.

Lemma grows_log w line : grows own w (set_logs <[own := log_lines own w ++ [line]]> w).
Proof.
  repeat split; simpl; try done.
  - unfold log_lines at 2. simpl. rewrite lookup_insert_eq. simpl. by apply prefix_app_r.
  - intros file Hf. by rewrite lookup_insert_ne.
Qed.

Lemma grows_sleeps w ms : grows own w (set_sleeps (λ l, l ++ [ms]) w).
Proof. repeat split; simpl; try done. by apply prefix_app_r. Qed.

Lemma grows_requests w request : grows own w (set_requests (λ l, l ++ [request]) w).
Proof. repeat split; simpl; try done. by apply prefix_app_r. Qed.

Lemma grows_manifest w v : grows own w (set_manifest_json v w).
Proof. by repeat split. Qed.

Lemma grows_images w f : grows own w (set_images f w).
Proof. by repeat split. Qed.

Lemma grows_log_to stamped message : step_in (grows own) (log_to p own stamped message).
Proof.
  apply step_in_log_to; [apply _|..]; auto using grows_ticks, grows_console, grows_log.
Qed.
End Grows.

(** X4. Whatever the outcome of a run, of either script: lines are only
    appended to the script's own run log, to the console, to the requests
    sent and to the delays waited (what was there stays, in order); no other
    log file changes; and the catalog is never written. *)
Theorem runs_only_append (p : Platform) :
  (∀ a w, grows (Batch.LOG_FILE p) w (snd (Batch.script p a w))) ∧
  (∀ names w, grows (Regenerate.LOG_FILE p) w (snd (Regenerate.script p names w))).
Proof.
  split.
  - intros a w. unfold Batch.script.
    destruct (key_missing p) eqn:Hkey.
    { unfold Batch.main. rewrite Hkey. simpl. apply grows_console. }
    assert (H : step_in (grows (Batch.LOG_FILE p)) (Batch.main p a)).
    { apply Batch_main_frame; try done; try apply _.
      - intros message. apply grows_log_to.
      - apply grows_ticks.
      - intros total len i author. apply Batch_iteration_frame; try apply _.
        + intros message. apply grows_log_to.
        + apply grows_ticks.
        + apply grows_sleeps.
        + apply grows_requests.
        + apply grows_manifest.
        + intros data. unfold Batch.saveAvatar, writeFileSync.
          repeat step; apply (step_in_modify (grows _)); intros w0; apply grows_images. }
    destruct (Batch.main p a w) as [[t|e|c] w'] eqn:E; destruct (H _ _ _ E) as [G N]; simpl.
    + done.
    + etrans; [exact G|]. apply grows_console.
    + done.
  - intros names w. unfold Regenerate.script.
    destruct names as [|name names]; [apply grows_console|].
    destruct (key_missing p) eqn:Hkey.
    { unfold Regenerate.main. rewrite Hkey. simpl. apply grows_console. }
    assert (H : step_in (grows (Regenerate.LOG_FILE p)) (Regenerate.main p (name :: names))).
    { apply Regenerate_main_frame; try done; try apply _.
      - intros message. apply grows_log_to.
      - apply grows_ticks.
      - intros n i author _. apply Regenerate_iteration_frame; try apply _.
        + intros message. apply grows_log_to.
        + apply grows_ticks.
        + apply grows_sleeps.
        + apply grows_requests.
        + apply grows_manifest.
        + intros data.
          unfold Regenerate.saveAvatar, writeFileSync, copyFileSync, existsSync.
          repeat step; try (apply (step_in_modify (grows _)); intros w0; apply grows_images).
          all: apply grows_log_to. }
    destruct (Regenerate.main p (name :: names) w) as [[t|e|c] w'] eqn:E;
      destruct (H _ _ _ E) as [G N]; simpl.
    + done.
    + etrans; [exact G|]. apply grows_console.
    + done.
Qed.

(** ** The image files *)

Section Images.
Context (p : Platform).

#[global] Instance untouched_preorder path : PreOrder (untouched path).
Proof.
  split; [done|]. intros w1 w2 w3 H1 H2. unfold untouched in *. congruence.
Qed.

#[global] Instance kept_preorder path : PreOrder (kept path).
Proof.
  split; [by intros w content|]. intros w1 w2 w3 H1 H2 content Hc. by apply H2, H1.
Qed.

(** The frame of a driver for a relation that only looks at the image
    files. *)
Context (R : relation World) `{!PreOrder R}.
Context (Himages : ∀ w w', images w' = images w → R w w').

Lemma images_log_to file stamped message : step_in R (log_to p file stamped message).
Proof. by apply step_in_log_to; [apply _|..]; intros; apply Himages. Qed.

Lemma Batch_iteration_images a total len i author :
  (∀ w buffer,
     R w (set_images <[path_join (AVATARS_DIR p) (normalizeFilename p author) := buffer]> w)) →
  step_in (on_world R) (Batch.iteration p a total len i author).
Proof.
  intros Hwrite. apply Batch_iteration_frame; try apply _; try (by intros; apply Himages).
  - intros message. apply images_log_to.
  - intros data. unfold Batch.saveAvatar, writeFileSync.
    repeat step; by apply (step_in_modify R).
Qed.

Lemma Regenerate_iteration_images n i author :
  let target := path_join (AVATARS_DIR p) (normalizeFilename p author) in
  (∀ w buffer, R w (set_images <[target := buffer]> w)) →
  (∀ w buffer, R w (set_images <[Regenerate.backup_path target := buffer]> w)) →
  (∀ w, R w (set_images (delete (Regenerate.backup_path target)) w)) →
  step_in (on_world R) (Regenerate.iteration p n i author).
Proof.
  intros target Hwrite Hcopy Hremove.
  apply Regenerate_iteration_frame; try apply _; try (by intros; apply Himages).
  - intros message. apply images_log_to.
  - intros data. unfold Regenerate.saveAvatar, writeFileSync, copyFileSync, existsSync.
    fold target. repeat step; try (by apply (step_in_modify R)).
    all: apply images_log_to.
Qed.
End Images.

Section BatchImages.
Context (p : Platform).

(** An item whose file is there: whatever happens to the log, no image
    file changes. *)
Lemma Batch_iteration_present a total len i author s r s' :
  is_Some (images (world s) !! path_join (AVATARS_DIR p) (normalizeFilename p author)) →
  Batch.iteration p a total len i author s = (r, s') →
  images (world s') = images (world s).
Proof.
  intros Hpresent E. unfold Batch.iteration in E.
  erewrite bind_ok in E by (apply inW_ok; reflexivity).
  rewrite bool_decide_eq_true_2 in E by done.
  assert (H : step_in (on_world (λ w w', images w' = images w))
                (inW (Batch.log p (MSkip
                   (num_add (num_add (Batch.startIndex a) (of_nat i)) (Some 1)) total author)) >>
                 count_skip)).
  { assert (PreOrder (λ w w' : World, images w' = images w)).
    { split; [done|]. intros w1 w2 w3 H1 H2. congruence. }
    repeat step. by apply images_log_to. }
  by destruct (H _ _ _ E) as [Hi _].
Qed.

Lemma Batch_iteration_kept path a total len i author :
  step_in (on_world (kept path)) (Batch.iteration p a total len i author).
Proof.
  intros s r s' E. split.
  - destruct (decide (path = path_join (AVATARS_DIR p) (normalizeFilename p author)))
      as [->|Hne].
    + intros content Hc.
      rewrite (Batch_iteration_present _ _ _ _ _ _ _ _ (mk_is_Some _ _ Hc) E). done.
    + assert (H : step_in (on_world (untouched path)) (Batch.iteration p a total len i author)).
      { apply Batch_iteration_images; try apply _.
        - intros w w' Hi. unfold untouched. by rewrite Hi.
        - intros w buffer. unfold untouched. simpl. by rewrite lookup_insert_ne. }
      destruct (H _ _ _ E) as [Hu _]. intros content Hc.
      unfold on_world, untouched in Hu. by rewrite Hu.
  - assert (H : step_in (on_world (λ _ _, True)) (Batch.iteration p a total len i author)).
    { apply Batch_iteration_images; try apply _; done. }
    by destruct (H _ _ _ E).
Qed.
End BatchImages.

(** X5. Whatever the outcome of a run of the catalog script: every image
    file there before the run is there after it with the same content (the
    script never overwrites nor deletes an image), and every path that is not
    the target of some name is as it was. *)
Theorem batch_keeps_image_files (p : Platform) (a : Batch.Args) (w : World) :
  let w' := snd (Batch.script p a w) in
  (∀ path content, images w !! path = Some content → images w' !! path = Some content) ∧
  (∀ path, (∀ author, path ≠ path_join (AVATARS_DIR p) (normalizeFilename p author)) →
           images w' !! path = images w !! path).
Proof.
  intros w'. subst w'. unfold Batch.script.
  destruct (key_missing p) eqn:Hkey.
  { unfold Batch.main. rewrite Hkey. by split. }
  split.
  - intros path.
    assert (H : step_in (kept path) (Batch.main p a)).
    { refine (Batch_main_frame p (kept path) _ _ a Hkey _).
      - intros message. apply images_log_to; [apply _|].
        intros w0 w1 Hi content Hc. by rewrite Hi.
      - by intros w0 content Hc.
      - intros total len i author. apply Batch_iteration_kept. }
    destruct (Batch.main p a w) as [[t|e|c] w'] eqn:E; by destruct (H _ _ _ E) as [G N].
  - intros path Hpath.
    assert (Hi : ∀ w0 w1, images w1 = images w0 → untouched path w0 w1).
    { intros w0 w1 Hi. unfold untouched. by rewrite Hi. }
    assert (H : step_in (untouched path) (Batch.main p a)).
    { refine (Batch_main_frame p (untouched path) _ _ a Hkey _).
      - intros message. by apply images_log_to; [apply _|].
      - by intros w0.
      - intros total len i author. apply Batch_iteration_images; [apply _|done|].
        intros w0 buffer. unfold untouched. simpl. by rewrite lookup_insert_ne. }
    destruct (Batch.main p a w) as [[t|e|c] w'] eqn:E; by destruct (H _ _ _ E) as [G N].
Qed.

(** X6. Whatever the outcome of a run of the targeted script: an image
    path that is neither the target nor the backup path of one of the names
    given is as it was before the run. *)
Theorem regenerate_touches_targets_only (p : Platform) (names : list jsstring) (w : World) :
  ∀ path,
    (∀ author, author ∈ names →
       path ≠ path_join (AVATARS_DIR p) (normalizeFilename p author) ∧
       path ≠ Regenerate.backup_path
                (path_join (AVATARS_DIR p) (normalizeFilename p author))) →
    images (snd (Regenerate.script p names w)) !! path = images w !! path.
Proof.
  intros path Hpath. unfold Regenerate.script.
  destruct names as [|name names]; [done|].
  destruct (key_missing p) eqn:Hkey.
  { unfold Regenerate.main. by rewrite Hkey. }
  assert (Hi : ∀ w0 w1, images w1 = images w0 → untouched path w0 w1).
  { intros w0 w1 Hi. unfold untouched. by rewrite Hi. }
  assert (H : step_in (untouched path) (Regenerate.main p (name :: names))).
  { refine (Regenerate_main_frame p (untouched path) _ _ _ Hkey _).
    - intros message. by apply images_log_to; [apply _|].
    - by intros w0.
    - intros n i author Hin. destruct (Hpath author Hin) as [Ht Hb].
      apply Regenerate_iteration_images; [apply _|done|..].
      + intros w0 buffer. unfold untouched. simpl. by rewrite lookup_insert_ne.
      + intros w0 buffer. unfold untouched. simpl. by rewrite lookup_insert_ne.
      + intros w0. unfold untouched. simpl. by rewrite lookup_delete_ne. }
  destruct (Regenerate.main p (name :: names) w) as [[t|e|c] w'] eqn:E;
    by destruct (H _ _ _ E) as [G N].
Qed.

Lemma regenerate_touches_targets_only_witness :
  let p := Fixture.platform (Some (lit "key")) (Fixture.flaky []) Fixture.no_fault in
  let other := lit "/srv/avatars-repo/avatars/kant.png" in
  let w := Fixture.with_images {[ other := lit "k" ]} in
  images (snd (Regenerate.script p [lit "Plato"] w)) !! other = images w !! other.
Proof.
  intros p other w.
  apply (regenerate_touches_targets_only p [lit "Plato"] w other).
  intros author Hin. apply elem_of_cons in Hin as [->|Hin]; [|by apply elem_of_nil in Hin].
  split; vm_compute; discriminate.
Defined.

(** ** The console and the log *)

Section Mirror.
Context (p : Platform) (own : jsstring) (stamped : bool).
Context (Hlog : fs_fault p own = None).

#[global] Instance mirrored_preorder : PreOrder (mirrored own stamped).
Proof.
  split.
  - intros w. exists []. by rewrite !app_nil_r.
  - intros w1 w2 w3 (n1 & L1 & C1) (n2 & L2 & C2). exists (n1 ++ n2).
    rewrite L2, L1, C2, C1, fmap_app, !app_assoc. done.
Qed.

Lemma mirrored_silent w w' :
  console w' = console w → logs w' = logs w → mirrored own stamped w w'.
Proof.
  intros Hc Hl. exists []. unfold log_lines. by rewrite Hc, Hl, !app_nil_r.
Qed.

Lemma mirrored_log_to message : step_in (mirrored own stamped) (log_to p own stamped message).
Proof.
  intros w r w' E. rewrite log_to_ok in E by done. injection E as <- <-.
  split; [|done]. exists [(Date_now p (ticks w), message)].
  by rewrite log_lines_logged.
Qed.
End Mirror.

(** X7. With a credential and a writable run log, whatever the outcome of
    [main]: the console shows exactly the lines appended to the run log, one
    for one and in order; the catalog script prints them with their
    timestamps, the targeted script without. *)
Theorem console_mirrors_log (p : Platform) :
  key_missing p = false →
  (fs_fault p (Batch.LOG_FILE p) = None →
   ∀ a w, mirrored (Batch.LOG_FILE p) true w (snd (Batch.main p a w))) ∧
  (fs_fault p (Regenerate.LOG_FILE p) = None →
   ∀ names w, mirrored (Regenerate.LOG_FILE p) false w (snd (Regenerate.main p names w))).
Proof.
  intros Hkey. split; intros Hlog.
  - intros a w.
    assert (H : step_in (mirrored (Batch.LOG_FILE p) true) (Batch.main p a)).
    { refine (Batch_main_frame p _ _ _ a Hkey _).
      - intros message. by apply mirrored_log_to.
      - intros w0. by apply mirrored_silent.
      - intros total len i author. apply Batch_iteration_frame; try apply _;
          try (intros; by apply mirrored_silent).
        + intros message. by apply mirrored_log_to.
        + intros data. unfold Batch.saveAvatar, writeFileSync.
          repeat step;
            (apply (step_in_modify (mirrored _ _)); intros w0; by apply mirrored_silent). }
    destruct (Batch.main p a w) as [r w'] eqn:E. by destruct (H _ _ _ E).
  - intros names w.
    assert (H : step_in (mirrored (Regenerate.LOG_FILE p) false) (Regenerate.main p names)).
    { refine (Regenerate_main_frame p _ _ _ names Hkey _).
      - intros message. by apply mirrored_log_to.
      - intros w0. by apply mirrored_silent.
      - intros n i author _. apply Regenerate_iteration_frame; try apply _;
          try (intros; by apply mirrored_silent).
        + intros message. by apply mirrored_log_to.
        + intros data.
          unfold Regenerate.saveAvatar, writeFileSync, copyFileSync, existsSync.
          repeat step;
            try (apply (step_in_modify (mirrored _ _)); intros w0; by apply mirrored_silent).
          all: by apply mirrored_log_to. }
    destruct (Regenerate.main p names w) as [r w'] eqn:E. by destruct (H _ _ _ E).
Qed.

Lemma console_mirrors_log_witness :
  let p := Fixture.platform (Some (lit "key")) (Fixture.flaky [1%nat]) Fixture.no_fault in
  mirrored (Batch.LOG_FILE p) true (Fixture.with_catalog [lit "Plato"; lit "Kant"])
    (snd (Batch.main p Fixture.all_authors (Fixture.with_catalog [lit "Plato"; lit "Kant"]))).
Proof.
  intros p. destruct (console_mirrors_log p eq_refl) as [Hbatch _].
  exact (Hbatch eq_refl Fixture.all_authors (Fixture.with_catalog [lit "Plato"; lit "Kant"])).
Defined.

(** ** Requests *)

Section BatchRequests.
Context (p : Platform) (Hlog : fs_fault p (Batch.LOG_FILE p) = None).
Context (a : Batch.Args) (total len : nat).

(** A skipped item sends nothing; any other item sends its one request,
    and is counted as a success or as an error. *)
Lemma batch_item_requests i author s s' :
  batch_item p a total len i author s s' →
  (tally s' = skipped (tally s) ∧ requests (world s') = requests (world s)) ∨
  (requests (world s') = requests (world s) ++ [request_for p (Batch.prompt author)] ∧
   (tally s' = succeeded (tally s) ∨ ∃ e, tally s' = failed author e (tally s))).
Proof.
  intros H. destruct H; client_world; subst; simpl; open_residues; eauto.
  right. destruct (bool_decide (i < len - 1)%nat); simpl; eauto.
Qed.

Lemma Batch_loop_requests items : ∀ i s s',
  Batch.loop p a total len i items s = (Ok tt, s') →
  ∃ sent, requests (world s') = requests (world s) ++ sent ∧
          (successCount (tally s') + errorCount (tally s')
           = successCount (tally s) + errorCount (tally s) + length sent)%nat ∧
          Forall (λ request, ∃ author, author ∈ items ∧
                                       request = request_for p (Batch.prompt author)) sent.
Proof.
  induction items as [|author rest IH]; intros i s s'.
  - intros [= <-]. exists []. rewrite app_nil_r. simpl. split; [done|]. split; [lia|done].
  - destruct (Batch_loop_step p Hlog a total len i author rest s) as (s1 & Hitem & ->).
    intros Hrest. destruct (IH _ _ _ Hrest) as (sent & Hsent & Hcount & Hprompts).
    assert (Hin : Forall (λ request, ∃ x, x ∈ author :: rest ∧
                                          request = request_for p (Batch.prompt x)) sent).
    { eapply Forall_impl; [exact Hprompts|]. intros r (x & Hx & ->).
      exists x. split; [by right|done]. }
    destruct (batch_item_requests _ _ _ _ Hitem) as [[Ht Hr] | [Hr Ht]].
    + exists sent. rewrite Hsent, Hr. split; [done|]. rewrite Ht in Hcount. simpl in Hcount.
      split; [lia|done].
    + exists (request_for p (Batch.prompt author) :: sent).
      rewrite Hsent, Hr, <- app_assoc. split; [done|]. split.
      * destruct Ht as [Ht | [e Ht]]; rewrite Ht in Hcount; simpl in *; lia.
      * constructor; [|done]. exists author. split; [by left|done].
Qed.
End BatchRequests.

Section RegenerateRequests.
Context (p : Platform) (Hlog : fs_fault p (Regenerate.LOG_FILE p) = None).

Lemma regenerate_item_requests n i author s s' :
  regenerate_item p n i author s s' →
  requests (world s') = requests (world s) ++ [request_for p (Regenerate.prompt author)].
Proof.
  intros H. destruct H as [e w2 G ->|d e w2 w3 G V ->|d e w2 w3 G V W m' ->|d w2 w3 G V W m' ->].
  - client_world. done.
  - destruct (Regenerate_saveAvatar_frame p author d w2) as (r0 & w0 & V0 & _ & _ & _ & _ & Hr).
    rewrite V in V0. injection V0 as <- <-. client_world. simpl. by rewrite Hr.
  - destruct (Regenerate_saveAvatar_frame p author d w2) as (r0 & w0 & V0 & _ & _ & _ & _ & Hr).
    rewrite V in V0. injection V0 as <- <-. client_world. simpl. open_residues; by rewrite Hr.
  - destruct (Regenerate_saveAvatar_frame p author d w2) as (r0 & w0 & V0 & _ & _ & _ & _ & Hr).
    rewrite V in V0. injection V0 as <- <-. client_world.
    destruct (bool_decide (i < n - 1)%nat); simpl; by rewrite Hr.
Qed.

Lemma Regenerate_loop_requests n items : ∀ i s s',
  Regenerate.loop p n i items s = (Ok tt, s') →
  requests (world s')
  = requests (world s) ++ ((λ author, request_for p (Regenerate.prompt author)) <$> items).
Proof.
  induction items as [|author rest IH]; intros i s s'.
  - intros [= <-]. by rewrite app_nil_r.
  - destruct (Regenerate_loop_step p Hlog n i author rest s) as (s1 & Hitem & ->).
    intros Hrest. rewrite (IH _ _ _ Hrest), (regenerate_item_requests _ _ _ _ _ Hitem).
    by rewrite <- app_assoc.
Qed.
End RegenerateRequests.

(** X8. No request is repeated and none is spared.  A run of the catalog
    script sends exactly one request per item it does not skip (so
    [successCount + errorCount] requests), each with the prompt of an
    item of the range; a run of the targeted script sends exactly one request
    per name given, in the order given, with the credential and the prompt of
    that name. *)
Theorem one_request_per_attempt (p : Platform) :
  key_missing p = false →
  (fs_fault p (Batch.LOG_FILE p) = None →
   ∀ a w authors,
     authors_json w = Some (inr authors) → (∀ e, manifest_json w ≠ Some (inl e)) →
     ∃ t w' sent,
       Batch.main p a w = (Ok t, w') ∧ requests w' = requests w ++ sent ∧
       length sent = (successCount t + errorCount t)%nat ∧
       (length sent + skipCount t = length (Batch.authorsToProcess a authors))%nat ∧
       Forall (λ request, ∃ author, author ∈ Batch.authorsToProcess a authors ∧
                                    request = request_for p (Batch.prompt author)) sent) ∧
  (fs_fault p (Regenerate.LOG_FILE p) = None →
   ∀ names w,
     (∀ e, manifest_json w ≠ Some (inl e)) →
     ∃ t w',
       Regenerate.main p names w = (Ok t, w') ∧
       requests w' = requests w
                     ++ ((λ author, request_for p (Regenerate.prompt author)) <$> names)).
Proof.
  intros Hkey. split; intros Hlog.
  - intros a w authors Hauth Hman.
    destruct (Batch_main_run p Hlog a w authors Hkey Hauth Hman)
      as (m & w0 & s1 & w' & (_ & _ & _ & Hr0) & _ & Eloop & Emain & (_ & _ & _ & Hr1) & _).
    destruct (Batch_loop_requests p Hlog _ _ _ _ _ _ _ Eloop) as (sent & Hsent & Hcount & Hp).
    destruct (Batch_loop_tally p Hlog _ _ _ _ _ _ _ Eloop) as (Hsum & _).
    simpl in *. exists (tally s1), w', sent.
    split; [done|]. split; [congruence|]. split; [lia|]. split; [lia|done].
  - intros names w Hman.
    destruct (Regenerate_main_run p Hlog names w Hkey Hman)
      as (m & w0 & s1 & w' & (_ & _ & _ & Hr0) & Eloop & Emain & (_ & _ & _ & Hr1)).
    pose proof (Regenerate_loop_requests p Hlog _ _ _ _ _ Eloop) as Hsent.
    simpl in *. exists (tally s1), w'. split; [done|]. congruence.
Qed.

Lemma one_request_per_attempt_witness :
  let p := Fixture.platform (Some (lit "key")) (Fixture.flaky [1%nat]) Fixture.no_fault in
  let names := [lit "Plato"; lit "Kant"; lit "Hume"] in
  ∃ t w',
    Regenerate.main p names Fixture.empty_world = (Ok t, w') ∧
    requests w' = (λ author, request_for p (Regenerate.prompt author)) <$> names.
Proof.
  intros p names. destruct (one_request_per_attempt p eq_refl) as [_ Hregenerate].
  exact (Hregenerate eq_refl names Fixture.empty_world ltac:(done)).
Defined.

(** ** The limit *)

Lemma authorsToProcess_length (a : Batch.Args) (authors : list jsstring) (l : Z) :
  Batch.limit a = Some l → 0 < l →
  Z.of_nat (length (Batch.authorsToProcess a authors)) ≤ l.
Proof.
  intros Hl Hpos. unfold Batch.authorsToProcess, Batch.endIndex, slice.
  rewrite Hl. simpl. destruct (Z.ltb_spec 0 l) as [_|?]; [|lia].
  rewrite length_take, length_drop.
  destruct (Batch.startIndex a) as [start|]; simpl; [|lia].
  destruct (Z.ltb_spec start 0), (Z.ltb_spec (Z.min (start + l) (Z.of_nat (length authors))) 0);
    lia.
Qed.

(** X9. With a limit [l > 0], the range selected has at most [l] items,
    whatever the start offset (negative, beyond the catalog, or [NaN]); so a
    run sends at most [l] requests and counts at most [l] items. *)
Theorem limit_bounds_the_run (a : Batch.Args) (l : Z) :
  Batch.limit a = Some l → 0 < l →
  (∀ authors, Z.of_nat (length (Batch.authorsToProcess a authors)) ≤ l) ∧
  (∀ p w authors,
     key_missing p = false → fs_fault p (Batch.LOG_FILE p) = None →
     authors_json w = Some (inr authors) → (∀ e, manifest_json w ≠ Some (inl e)) →
     ∃ t w' sent,
       Batch.main p a w = (Ok t, w') ∧ requests w' = requests w ++ sent ∧
       Z.of_nat (length sent) ≤ l ∧
       Z.of_nat (successCount t + skipCount t + errorCount t) ≤ l).
Proof.
  intros Hl Hpos. split; [intros authors; by apply authorsToProcess_length|].
  intros p w authors Hkey Hlog Hauth Hman.
  destruct (Batch_main_run p Hlog a w authors Hkey Hauth Hman)
    as (m & w0 & s1 & w' & (_ & _ & _ & Hr0) & _ & Eloop & Emain & (_ & _ & _ & Hr1) & _).
  destruct (Batch_loop_requests p Hlog _ _ _ _ _ _ _ Eloop) as (sent & Hsent & Hcount & Hp).
  destruct (Batch_loop_tally p Hlog _ _ _ _ _ _ _ Eloop) as (Hsum & _).
  pose proof (authorsToProcess_length a authors l Hl Hpos) as Hlen.
  simpl in *. exists (tally s1), w', sent.
  split; [done|]. split; [congruence|]. split; lia.
Qed.

Lemma limit_bounds_the_run_witness :
  Z.of_nat (length (Batch.authorsToProcess
    {| Batch.startIndex := Some (-3); Batch.limit := Some 2; Batch.delay := Some 1000 |}
    [lit "Plato"; lit "Kant"; lit "Hume"; lit "Locke"])) ≤ 2.
Proof.
  refine (proj1 (limit_bounds_the_run
    {| Batch.startIndex := Some (-3); Batch.limit := Some 2; Batch.delay := Some 1000 |}
    2 eq_refl _) _).
  lia.
Defined.

(** ** A run that returns, step by step *)

Lemma bind_inv {S A B} (m : M S A) (k : A → M S B) s y s2 :
  bind m k s = (Ok y, s2) → ∃ x s1, m s = (Ok x, s1) ∧ k x s1 = (Ok y, s2).
Proof.
  unfold bind. destruct (m s) as [[x|e|c] s1]; try done. intros E. by exists x, s1.
Qed.

Lemma inW_inv {A} (m : M World A) s x s' :
  inW m s = (Ok x, s') →
  ∃ w', m (world s) = (Ok x, w') ∧
        s' = {| world := w'; manifest := manifest s; tally := tally s |}.
Proof.
  unfold inW. destruct (m (world s)) as [r w'] eqn:E. intros [= -> <-]. by exists w'.
Qed.

Section MainReturns.
Context (p : Platform) (R : relation World) `{!PreOrder R}.
Context (Htick : ∀ w, R w (set_ticks S w)).

(** A run of the catalog driver's [main] that returns: what comes before
    the loop and what comes after it are related by [R], when the log lines
    are. *)
Lemma Batch_main_returns a w t w' :
  (∀ message, step_in R (Batch.log p message)) →
  key_missing p = false →
  Batch.main p a w = (Ok t, w') →
  ∃ authors m w0 s1,
    authors_json w = Some (inr authors) ∧ R w w0 ∧
    Batch.loop p a (length authors) (length (Batch.authorsToProcess a authors)) 0
      (Batch.authorsToProcess a authors)
      {| world := w0; manifest := m; tally := no_tally |} = (Ok tt, s1) ∧
    t = tally s1 ∧ R (world s1) w'.
Proof.
  intros Hlog Hkey E. unfold Batch.main in E. rewrite Hkey in E.
  apply bind_inv in E as (authors & w1 & E1 & E).
  assert (Hauth : authors_json w = Some (inr authors) ∧ w1 = w).
  { unfold Batch.read_authors, bind, gets in E1.
    destruct (authors_json w) as [[e|l]|]; simpl in E1; try done. by injection E1 as -> ->. }
  destruct Hauth as [Hauth ->].
  apply bind_inv in E as ([] & w2 & E2 & E). destruct (Hlog _ _ _ _ E2) as [R2 _].
  apply bind_inv in E as ([] & w3 & E3 & E). destruct (Hlog _ _ _ _ E3) as [R3 _].
  apply bind_inv in E as ([] & w4 & E4 & E). destruct (Hlog _ _ _ _ E4) as [R4 _].
  apply bind_inv in E as ([] & w5 & E5 & E). destruct (Hlog _ _ _ _ E5) as [R5 _].
  apply bind_inv in E as ([] & w6 & E6 & E). destruct (Hlog _ _ _ _ E6) as [R6 _].
  apply bind_inv in E as (m & w7 & E7 & E).
  destruct (loadManifest_frame p R Htick _ _ _ E7) as [R7 _].
  unfold with_locals in E.
  match type of E with (let (_, _) := ?body ?s0 in _) = _ =>
    destruct (body s0) as [r s'] eqn:Ebody end.
  injection E as -> <-.
  apply bind_inv in Ebody as ([] & s0 & E8 & Ebody).
  apply inW_inv in E8 as (w8 & E8 & ->). destruct (Hlog _ _ _ _ E8) as [R8 _].
  apply bind_inv in Ebody as ([] & s1 & Eloop & Ebody).
  apply bind_inv in Ebody as (t0 & s1' & [= <- <-] & Ebody).
  apply bind_inv in Ebody as (m0 & s1' & [= <- <-] & Ebody).
  apply bind_inv in Ebody as ([] & s2 & Esum & [= <- <-]).
  apply inW_inv in Esum as (w9 & Esum & ->).
  assert (Hsum : R (world s1) w9).
  { revert Esum.
    match goal with |- ?e _ = _ → _ => assert (Hs : step_in R e) end.
    { repeat step; try done. by apply Batch_log_errors_frame. }
    intros Esum. by destruct (Hs _ _ _ Esum). }
  assert (R06 : R w w6).
  { etrans; [exact R2|]. etrans; [exact R3|]. etrans; [exact R4|]. by etrans; [exact R5|]. }
  exists authors, m, w8, s1. split; [done|]. split; [|done].
  etrans; [exact R06|]. by etrans; [exact R7|].
Qed.

(** The same for the targeted driver. *)
Lemma Regenerate_main_returns names w t w' :
  (∀ message, step_in R (Regenerate.log p message)) →
  key_missing p = false →
  Regenerate.main p names w = (Ok t, w') →
  ∃ m w0 s1,
    R w w0 ∧
    Regenerate.loop p (length names) 0 names
      {| world := w0; manifest := m; tally := no_tally |} = (Ok tt, s1) ∧
    t = tally s1 ∧ R (world s1) w'.
Proof.
  intros Hlog Hkey E. unfold Regenerate.main in E. rewrite Hkey in E.
  apply bind_inv in E as ([] & w2 & E2 & E). destruct (Hlog _ _ _ _ E2) as [R2 _].
  apply bind_inv in E as ([] & w3 & E3 & E). destruct (Hlog _ _ _ _ E3) as [R3 _].
  apply bind_inv in E as ([] & w4 & E4 & E).
  destruct (Regenerate_log_numbered_frame p R Hlog _ _ _ _ _ E4) as [R4 _].
  apply bind_inv in E as ([] & w5 & E5 & E). destruct (Hlog _ _ _ _ E5) as [R5 _].
  apply bind_inv in E as (m & w7 & E7 & E).
  destruct (loadManifest_frame p R Htick _ _ _ E7) as [R7 _].
  unfold with_locals in E.
  match type of E with (let (_, _) := ?body ?s0 in _) = _ =>
    destruct (body s0) as [r s'] eqn:Ebody end.
  injection E as -> <-.
  apply bind_inv in Ebody as ([] & s1 & Eloop & Ebody).
  apply bind_inv in Ebody as (t0 & s1' & [= <- <-] & Ebody).
  apply bind_inv in Ebody as ([] & s2 & Esum & [= <- <-]).
  apply inW_inv in Esum as (w9 & Esum & ->).
  assert (Hsum : R (world s1) w9).
  { revert Esum.
    match goal with |- ?e _ = _ → _ => assert (Hs : step_in R e) end.
    { repeat step; try done. by apply Regenerate_log_errors_frame. }
    intros Esum. by destruct (Hs _ _ _ Esum). }
  assert (R05 : R w w5).
  { etrans; [exact R2|]. etrans; [exact R3|]. by etrans; [exact R4|]. }
  exists m, w7, s1. split; [|done].
  by etrans; [exact R05|].
Qed.
End MainReturns.

(** ** The delay between items *)

Section IdleSteps.
Context (p : Platform).

#[global] Instance idle_preorder : PreOrder idle.
Proof.
  split.
  - intros w. split; [apply same_store_refl|done].
  - intros w1 w2 w3 [F1 S1] [F2 S2]. split; [by eapply same_store_trans|congruence].
Qed.

Lemma idle_log_to file stamped message : step_in idle (log_to p file stamped message).
Proof. apply step_in_log_to; [apply _|..]; intros; by repeat split. Qed.

Lemma Regenerate_saveAvatar_sleeps author data w r w' :
  Regenerate.saveAvatar p author data w = (r, w') → sleeps w' = sleeps w.
Proof.
  assert (Hpre : PreOrder (λ w w' : World, sleeps w' = sleeps w)).
  { split; [done|]. intros w1 w2 w3 H1 H2. congruence. }
  assert (H : step_in (λ w w', sleeps w' = sleeps w) (Regenerate.saveAvatar p author data)).
  { unfold Regenerate.saveAvatar, writeFileSync, copyFileSync, existsSync.
    repeat step; try (by apply (step_in_modify (λ w w' : World, sleeps w' = sleeps w))).
    all: by apply step_in_log_to. }
  intros E. by destruct (H _ _ _ E).
Qed.
End IdleSteps.

Section BatchSleeps.
Context (p : Platform) (Hlog : fs_fault p (Batch.LOG_FILE p) = None).
Context (a : Batch.Args) (total len : nat).

(** Only a success that is not the last item of the run is followed by a
    delay. *)
Lemma batch_item_sleeps i author s s' :
  batch_item p a total len i author s s' →
  (successCount (tally s') = successCount (tally s) ∧
   sleeps (world s') = sleeps (world s)) ∨
  (successCount (tally s') = S (successCount (tally s)) ∧
   sleeps (world s')
   = sleeps (world s) ++ (if bool_decide (i < len - 1)%nat then [Batch.delay a] else [])).
Proof.
  intros H. destruct H; client_world; subst; simpl; open_residues; eauto.
  right. split; [done|]. destruct (bool_decide (i < len - 1)%nat); simpl; [done|].
  by rewrite app_nil_r.
Qed.

Lemma Batch_loop_sleeps items : ∀ i s s',
  (i + length items = len)%nat →
  Batch.loop p a total len i items s = (Ok tt, s') →
  ∃ n, sleeps (world s') = sleeps (world s) ++ replicate n (Batch.delay a) ∧
       (successCount (tally s) + n ≤ successCount (tally s'))%nat ∧
       (successCount (tally s')
        ≤ successCount (tally s) + n + (if items is [] then 0 else 1))%nat ∧
       (n ≤ length items - 1)%nat.
Proof.
  induction items as [|author rest IH]; intros i s s' Hlen.
  - intros [= <-]. exists 0%nat. simpl. rewrite app_nil_r. repeat split; lia.
  - destruct (Batch_loop_step p Hlog a total len i author rest s) as (s1 & Hitem & ->).
    intros Hrest. simpl in Hlen.
    destruct (IH (S i) _ _ ltac:(lia) Hrest) as (n & Hs & Hlo & Hhi & Hn).
    destruct (batch_item_sleeps _ _ _ _ Hitem) as [[Ht Hs1] | [Ht Hs1]].
    + exists n. rewrite Hs, Hs1. split; [done|]. simpl.
      destruct rest; simpl in *; repeat split; lia.
    + destruct rest as [|next rest].
      * rewrite bool_decide_eq_false_2 in Hs1 by (simpl in Hlen; lia).
        exists n. rewrite Hs, Hs1, app_nil_r. simpl in *. repeat split; lia.
      * rewrite bool_decide_eq_true_2 in Hs1 by (simpl in Hlen; lia).
        exists (S n). rewrite Hs, Hs1, <- app_assoc. simpl in *. repeat split; lia.
Qed.
End BatchSleeps.

Section RegenerateSleeps.
Context (p : Platform) (Hlog : fs_fault p (Regenerate.LOG_FILE p) = None).

Lemma regenerate_item_sleeps n i author s s' :
  regenerate_item p n i author s s' →
  (successCount (tally s') = successCount (tally s) ∧
   sleeps (world s') = sleeps (world s)) ∨
  (successCount (tally s') = S (successCount (tally s)) ∧
   sleeps (world s')
   = sleeps (world s) ++ (if bool_decide (i < n - 1)%nat then [Some 1000] else [])).
Proof.
  intros H. destruct H as [e w2 G ->|d e w2 w3 G V ->|d e w2 w3 G V W m' ->|d w2 w3 G V W m' ->].
  - client_world. left. done.
  - pose proof (Regenerate_saveAvatar_sleeps _ _ _ _ _ _ V) as Hs. client_world.
    left. simpl in *. done.
  - pose proof (Regenerate_saveAvatar_sleeps _ _ _ _ _ _ V) as Hs. client_world.
    left. simpl in *. open_residues; done.
  - pose proof (Regenerate_saveAvatar_sleeps _ _ _ _ _ _ V) as Hs. client_world.
    right. split; [done|]. destruct (bool_decide (i < n - 1)%nat); simpl in *.
    + by rewrite Hs.
    + by rewrite Hs, app_nil_r.
Qed.

Lemma Regenerate_loop_sleeps n items : ∀ i s s',
  (i + length items = n)%nat →
  Regenerate.loop p n i items s = (Ok tt, s') →
  ∃ k, sleeps (world s') = sleeps (world s) ++ replicate k (Some 1000) ∧
       (successCount (tally s) + k ≤ successCount (tally s'))%nat ∧
       (successCount (tally s')
        ≤ successCount (tally s) + k + (if items is [] then 0 else 1))%nat ∧
       (k ≤ length items - 1)%nat.
Proof.
  induction items as [|author rest IH]; intros i s s' Hlen.
  - intros [= <-]. exists 0%nat. simpl. rewrite app_nil_r. repeat split; lia.
  - destruct (Regenerate_loop_step p Hlog n i author rest s) as (s1 & Hitem & ->).
    intros Hrest. simpl in Hlen.
    destruct (IH (S i) _ _ ltac:(lia) Hrest) as (k & Hs & Hlo & Hhi & Hn).
    destruct (regenerate_item_sleeps _ _ _ _ _ Hitem) as [[Ht Hs1] | [Ht Hs1]].
    + exists k. rewrite Hs, Hs1. split; [done|]. simpl.
      destruct rest; simpl in *; repeat split; lia.
    + destruct rest as [|next rest].
      * rewrite bool_decide_eq_false_2 in Hs1 by (simpl in Hlen; lia).
        exists k. rewrite Hs, Hs1, app_nil_r. simpl in *. repeat split; lia.
      * rewrite bool_decide_eq_true_2 in Hs1 by (simpl in Hlen; lia).
        exists (S k). rewrite Hs, Hs1, <- app_assoc. simpl in *. repeat split; lia.
Qed.
End RegenerateSleeps.

(** X10. In a run that returns, every delay waited is the configured one
    ([delay] for the catalog script, one second for the targeted script);
    a delay follows a success only, and never the last item: there are as
    many delays as successes, or one fewer, and fewer delays than items. *)
Theorem delay_only_between_items (p : Platform) :
  key_missing p = false →
  (fs_fault p (Batch.LOG_FILE p) = None →
   ∀ a w t w',
     Batch.main p a w = (Ok t, w') →
     ∃ n, sleeps w' = sleeps w ++ replicate n (Batch.delay a) ∧
          (n ≤ successCount t ≤ n + 1)%nat ∧
          (n ≤ successCount t + skipCount t + errorCount t - 1)%nat) ∧
  (fs_fault p (Regenerate.LOG_FILE p) = None →
   ∀ names w t w',
     Regenerate.main p names w = (Ok t, w') →
     ∃ n, sleeps w' = sleeps w ++ replicate n (Some 1000) ∧
          (n ≤ successCount t ≤ n + 1)%nat ∧ (n ≤ length names - 1)%nat).
Proof.
  intros Hkey. split; intros Hlog.
  - intros a w t w' E.
    destruct (Batch_main_returns p idle (λ w0, conj (same_store_refl w0) eq_refl)
                a w t w' (λ m, idle_log_to p _ _ m) Hkey E)
      as (authors & m & w0 & s1 & _ & [_ H0] & Eloop & -> & [_ H1]).
    destruct (Batch_loop_sleeps p Hlog a (length authors)
                (length (Batch.authorsToProcess a authors))
                (Batch.authorsToProcess a authors) 0%nat _ _ eq_refl Eloop)
      as (n & Hs & Hlo & Hhi & Hn).
    destruct (Batch_loop_tally p Hlog _ _ _ _ _ _ _ Eloop) as (Hsum & _).
    simpl in *. exists n. rewrite H1, Hs, H0. split; [done|].
    destruct (Batch.authorsToProcess a authors); simpl in *; lia.
  - intros names w t w' E.
    destruct (Regenerate_main_returns p idle (λ w0, conj (same_store_refl w0) eq_refl)
                names w t w' (λ m, idle_log_to p _ _ m) Hkey E)
      as (m & w0 & s1 & [_ H0] & Eloop & -> & [_ H1]).
    destruct (Regenerate_loop_sleeps p Hlog (length names) names 0%nat _ _ eq_refl Eloop)
      as (n & Hs & Hlo & Hhi & Hn).
    simpl in *. exists n. rewrite H1, Hs, H0. split; [done|].
    destruct names; simpl in *; lia.
Qed.

Lemma delay_only_between_items_witness :
  let p := Fixture.platform (Some (lit "key")) (Fixture.flaky [1%nat]) Fixture.no_fault in
  let names := [lit "Plato"; lit "Kant"; lit "Hume"] in
  ∃ n, sleeps (snd (Regenerate.main p names Fixture.empty_world))
       = replicate n (Some 1000) ∧ (n ≤ 2)%nat.
Proof.
  intros p names. destruct (delay_only_between_items p eq_refl) as [_ Hregenerate].
  destruct (Hregenerate eq_refl names Fixture.empty_world
              (match fst (Regenerate.main p names Fixture.empty_world) with
               | Ok t => t | _ => no_tally end)
              (snd (Regenerate.main p names Fixture.empty_world)))
    as (n & Hs & _ & Hn).
  { vm_compute. reflexivity. }
  exists n. split; [exact Hs|exact Hn].
Defined.

(** ** The records of the manifest *)

Section ManifestRecords.
Context (p : Platform) (flag : bool).

Lemma assign_key_lookup {V} (k : jsstring) (v : V) (o : gmap jsstring V) name :
  assign_key k v o !! name = o !! name ∨ (name = k ∧ assign_key k v o !! name = Some v).
Proof.
  unfold assign_key. destruct (_ && _); [by left|].
  destruct (decide (name = k)) as [->|Hne].
  - right. by rewrite lookup_insert_eq.
  - left. by rewrite lookup_insert_ne.
Qed.

Lemma descends_refl m : descends p flag m m.
Proof. split; [done|]. intros name. by left. Qed.

Lemma descends_trans m1 m2 m3 :
  descends p flag m1 m2 → descends p flag m2 m3 → descends p flag m1 m3.
Proof.
  intros [G1 H1] [G2 H2]. split; [congruence|]. intros name.
  destruct (H2 name) as [E2 | (r & E2 & F2)]; [|right; by exists r].
  destruct (H1 name) as [E1 | (r & E1 & F1)]; [left; congruence|].
  right. exists r. split; [congruence|done].
Qed.

(** What a successful pass makes of the manifest object descends from
    it. *)
Lemma descends_put stamp author generated m :
  descends p flag m
    (stamped_manifest stamp
       (put_avatar author {| filename := normalizeFilename p author;
                             generated_at := generated; regenerated := flag |} m)).
Proof.
  split; [done|]. intros name. simpl.
  destruct (assign_key_lookup author
              {| filename := normalizeFilename p author;
                 generated_at := generated; regenerated := flag |} (avatars m) name)
    as [E | [-> E]]; [by left|].
  right. eexists. split; [exact E|]. by split.
Qed.

#[global] Instance manifest_descends_preorder : PreOrder (manifest_descends p flag).
Proof.
  split.
  - intros s. split; [apply descends_refl|by left].
  - intros s1 s2 s3 [M1 F1] [M2 F2]. split; [by eapply descends_trans|].
    destruct F2 as [E2 | (m & E2 & D2)].
    + destruct F1 as [E1 | (m & E1 & D1)]; [left; congruence|]. right. exists m.
      split; [|done]. unfold holds_or_cut in *. by rewrite E2.
    + right. exists m. split; [done|]. by eapply descends_trans.
Qed.

(** A file that holds a document, whole or cut, is not absent. *)
Lemma holds_or_cut_file m w : holds_or_cut p m w → manifest_json w ≠ None.
Proof. intros [E | (n & _ & _ & E)]; by rewrite E. Qed.

#[global] Instance file_descends_preorder : PreOrder (file_descends p flag).
Proof.
  split.
  - intros w. by left.
  - intros w1 w2 w3 F1 F2. unfold file_descends in *.
    destruct F2 as [E2 | (m3 & E2 & D2)].
    + destruct F1 as [E1 | (m2 & E1 & D1)]; [left; congruence|]. right. exists m2.
      split; [|done]. unfold holds_or_cut in *. by rewrite E2.
    + destruct F1 as [E1 | (m2 & E1 & D1)].
      * right. exists m3. split; [done|]. by rewrite <- E1.
      * right. exists m3. split; [done|].
        destruct E1 as [E1 | (n & _ & _ & E1)]; rewrite E1 in D2; [|done].
        destruct (manifest_json w1) as [[e|m1]|]; [done| |].
        -- by eapply descends_trans.
        -- intros name record Hr. destruct D2 as [_ D2].
           destruct (D2 name) as [E | (r & E & F)].
           ++ apply (D1 name). congruence.
           ++ congruence.
Qed.

(** A step on the world that leaves the manifest file alone. *)
Lemma inW_manifest_descends {A} (m : M World A) :
  step_in (λ w w', manifest_json w' = manifest_json w) m →
  step_in (manifest_descends p flag) (inW m).
Proof.
  intros Hm s r s' E. unfold inW in E.
  destruct (m (world s)) as [r0 w'] eqn:E0. injection E as <- <-.
  destruct (Hm _ _ _ E0) as [Hf N]. split; [|done].
  split; [apply descends_refl|by left].
Qed.

#[global] Instance same_manifest_file_preorder :
  PreOrder (λ w w' : World, manifest_json w' = manifest_json w).
Proof. split; [done|]. intros w1 w2 w3 H1 H2. congruence. Qed.

Lemma log_to_manifest_file file stamped message :
  step_in (λ w w', manifest_json w' = manifest_json w) (log_to p file stamped message).
Proof. by apply step_in_log_to; [apply _|..]. Qed.

(** The rest of [main], once the manifest is loaded. *)
Lemma with_locals_file_descends {A} loaded (rest : M State A) :
  step_in (manifest_descends p flag) rest →
  ∀ w r w', with_locals loaded rest w = (r, w') →
    (manifest_json w' = manifest_json w ∨
     ∃ m, holds_or_cut p m w' ∧ descends p flag loaded m) ∧
    ∀ c, r ≠ Exit c.
Proof.
  intros Hrest w r w' E. unfold with_locals in E.
  destruct (rest _) as [r0 s'] eqn:E0. injection E as <- <-.
  destruct (Hrest _ _ _ E0) as [[_ F] N]. done.
Qed.

(** [loadManifest], then the rest of [main]. *)
Lemma load_file_descends {A} (rest : Manifest → M State A) :
  (∀ loaded, step_in (manifest_descends p flag) (rest loaded)) →
  step_in (file_descends p flag)
    (let! loaded := loadManifest p in with_locals loaded (rest loaded)).
Proof.
  intros Hrest w r w' E. unfold loadManifest, bind, gets, now in E. simpl in E.
  unfold file_descends. revert E.
  destruct (manifest_json w) as [[e|m0]|] eqn:Hfile; simpl; intros E.
  - injection E as <- <-. split; [by left|done].
  - destruct (with_locals_file_descends m0 (rest m0) (Hrest m0) _ _ _ E) as [F N].
    split; [|done]. rewrite Hfile in F. destruct F as [F | (m & F & D)]; [by left|].
    right. by exists m.
  - destruct (with_locals_file_descends _ _ (Hrest _) _ _ _ E) as [F N].
    split; [|done]. simpl in F. rewrite Hfile in F.
    destruct F as [F | (m & F & [_ D])]; [by left|].
    right. exists m. split; [done|]. intros name record Hr.
    destruct (D name) as [E' | (r' & E' & F')]; simpl in E'.
    + rewrite lookup_empty in E'. congruence.
    + congruence.
Qed.

(** The file after a pass whose manifest write failed. *)
Lemma failed_write_descends m0 m w w' :
  fs_fault p (MANIFEST_FILE p) ≠ None →
  descends p flag m0 m →
  manifest_json w' = match fs_point p (MANIFEST_FILE p) with
                     | AtOpen => manifest_json w
                     | AtWrite written => Some (inl (JSON_cut p m written))
                     | AtClose => Some (inr m)
                     end →
  manifest_json w' = manifest_json w ∨ ∃ m1, holds_or_cut p m1 w' ∧ descends p flag m0 m1.
Proof.
  intros Hfault D E. destruct (fs_point p (MANIFEST_FILE p)) as [|written|] eqn:Hpoint.
  - by left.
  - right. exists m. split; [|done]. right. by exists written.
  - right. exists m. split; [by left|done].
Qed.

(** Unless a write of the manifest is interrupted, the file is not
    damaged. *)
Lemma file_descends_sound w w' :
  fs_fault p (MANIFEST_FILE p) = None ∨ (∀ written, fs_point p (MANIFEST_FILE p) ≠ AtWrite written) →
  file_descends p flag w w' → file_sound p flag w w'.
Proof.
  intros Hwhole F. unfold file_descends, file_sound in *.
  assert (Hdoc : ∀ m, holds_or_cut p m w' → manifest_json w' = Some (inr m)).
  { intros m [E | (n & Hfault & Hpoint & _)]; [done|].
    destruct Hwhole as [Hnone | Hnot]; [done|by destruct (Hnot n)]. }
  destruct (manifest_json w) as [[e|m0]|].
  - by destruct F as [F | (m & _ & [])].
  - destruct F as [F | (m & F & D)]; [|exists m; split; [by apply Hdoc|done]].
    exists m0. split; [done|]. apply descends_refl.
  - destruct F as [F | (m & F & D)]; [by left|]. right. exists m. split; [by apply Hdoc|done].
Qed.
End ManifestRecords.

Section BatchRecords.
Context (p : Platform).

Lemma Batch_iteration_descends a total len i author :
  step_in (manifest_descends p false) (Batch.iteration p a total len i author).
Proof.
  intros s r s' E. split.
  - unfold manifest_descends.
    destruct (Batch_iteration_manifest p _ _ _ _ _ _ _ _ E)
      as [(Hm & Hf & _) | (w1 & d & w2 & w3 & generated & stamp & _ & _ & _ & Hm & Hfile)].
    + rewrite Hm, Hf. split; [apply descends_refl|by left].
    + split; [rewrite Hm; apply descends_put|].
      destruct (fs_fault p (MANIFEST_FILE p)) eqn:Hfault.
      * destruct Hfile as [_ Hfile].
        apply (failed_write_descends p false _ (manifest s')); [by rewrite Hfault| |done].
        rewrite Hm. apply descends_put.
      * right. eexists. split; [left; exact Hfile|]. rewrite Hm. apply descends_put.
  - assert (H : step_in (on_world (λ _ _, True)) (Batch.iteration p a total len i author)).
    { apply Batch_iteration_images; try apply _; done. }
    by destruct (H _ _ _ E).
Qed.

Lemma Batch_main_descends a :
  key_missing p = false → step_in (file_descends p false) (Batch.main p a).
Proof.
  intros Hkey. unfold Batch.main. rewrite Hkey.
  assert (Hlog : ∀ message, step_in (file_descends p false) (Batch.log p message)).
  { intros message. apply (step_in_weaken (λ w w', manifest_json w' = manifest_json w)).
    - intros w w' Hf. by left.
    - apply log_to_manifest_file. }
  unfold Batch.read_authors.
  apply (step_in_bind (file_descends p false)); [repeat step|intros authors].
  do 5 (apply (step_in_bind (file_descends p false)); [apply Hlog|intros _]).
  apply load_file_descends. intros loaded.
  apply (step_in_bind (manifest_descends p false)).
  { apply inW_manifest_descends, log_to_manifest_file. }
  intros _. apply (step_in_bind (manifest_descends p false)).
  { apply Batch_loop_frame; [apply _|]. intros i author _. apply Batch_iteration_descends. }
  intros _. apply (step_in_bind (manifest_descends p false)); [apply (step_in_gets _)|].
  intros t. apply (step_in_bind (manifest_descends p false)); [apply (step_in_gets _)|].
  intros m. apply (step_in_bind (manifest_descends p false)); [|intros _; apply (step_in_ret _)].
  apply inW_manifest_descends. repeat step; try apply log_to_manifest_file.
  apply Batch_log_errors_frame; [apply _|]. intros message. apply log_to_manifest_file.
Qed.

Lemma Batch_script_descends a w :
  file_descends p false w (snd (Batch.script p a w)).
Proof.
  unfold Batch.script.
  destruct (key_missing p) eqn:Hkey.
  { unfold Batch.main. rewrite Hkey. by left. }
  destruct (Batch.main p a w) as [[t|e|c] w1] eqn:E;
    destruct (Batch_main_descends a Hkey _ _ _ E) as [F N]; done.
Qed.
End BatchRecords.

Section RegenerateRecords.
Context (p : Platform).

Lemma Regenerate_iteration_descends n i author :
  step_in (manifest_descends p true) (Regenerate.iteration p n i author).
Proof.
  intros s r s' E. split.
  - unfold manifest_descends.
    destruct (Regenerate_iteration_manifest p _ _ _ _ _ _ E)
      as [(Hm & Hf & _) | (w1 & d & w2 & w3 & generated & stamp & _ & _ & _ & Hm & Hfile)].
    + rewrite Hm, Hf. split; [apply descends_refl|by left].
    + split; [rewrite Hm; apply descends_put|].
      destruct (fs_fault p (MANIFEST_FILE p)) eqn:Hfault.
      * destruct Hfile as [_ Hfile].
        apply (failed_write_descends p true _ (manifest s')); [by rewrite Hfault| |done].
        rewrite Hm. apply descends_put.
      * right. eexists. split; [left; exact Hfile|]. rewrite Hm. apply descends_put.
  - assert (H : step_in (on_world (λ _ _, True)) (Regenerate.iteration p n i author)).
    { apply Regenerate_iteration_images; try apply _; done. }
    by destruct (H _ _ _ E).
Qed.

Lemma Regenerate_main_descends names :
  key_missing p = false → step_in (file_descends p true) (Regenerate.main p names).
Proof.
  intros Hkey. unfold Regenerate.main. rewrite Hkey.
  assert (Hlog : ∀ message, step_in (file_descends p true) (Regenerate.log p message)).
  { intros message. apply (step_in_weaken (λ w w', manifest_json w' = manifest_json w)).
    - intros w w' Hf. by left.
    - apply log_to_manifest_file. }
  do 2 (apply (step_in_bind (file_descends p true)); [apply Hlog|intros _]).
  apply (step_in_bind (file_descends p true));
    [by apply Regenerate_log_numbered_frame; [apply _|]|intros _].
  apply (step_in_bind (file_descends p true)); [apply Hlog|intros _].
  apply load_file_descends. intros loaded.
  apply (step_in_bind (manifest_descends p true)).
  { apply Regenerate_loop_frame; [apply _|]. intros i author _.
    apply Regenerate_iteration_descends. }
  intros _. apply (step_in_bind (manifest_descends p true)); [apply (step_in_gets _)|].
  intros t. apply (step_in_bind (manifest_descends p true)); [|intros _; apply (step_in_ret _)].
  apply inW_manifest_descends. repeat step; try apply log_to_manifest_file.
  apply Regenerate_log_errors_frame; [apply _|]. intros message. apply log_to_manifest_file.
Qed.

Lemma Regenerate_script_descends names w :
  file_descends p true w (snd (Regenerate.script p names w)).
Proof.
  unfold Regenerate.script.
  destruct names as [|name names]; [by left|].
  destruct (key_missing p) eqn:Hkey.
  { unfold Regenerate.main. rewrite Hkey. by left. }
  destruct (Regenerate.main p (name :: names) w) as [[t|e|c] w1] eqn:E;
    destruct (Regenerate_main_descends _ Hkey _ _ _ E) as [F N]; done.
Qed.
End RegenerateRecords.

(** X11. Whatever the outcome of a run, of either script, no document it
    writes to the manifest file loses a record: the file is as it was, or
    holds a document that descends from the one it held (the same creation
    stamp; every name that had a record has one; each record is the one it
    was or a record this run wrote for that name), or, when a write of the
    manifest was interrupted after the file had been opened, what that write
    left of such a document, which does not parse.  So unless a write of the
    manifest is interrupted, the file is not damaged: a document is followed
    by a document that descends from it, a text that does not parse is left
    as it is, and where there was no file there is none or a document of
    records this run wrote. *)
Theorem manifest_records_are_kept (p : Platform) :
  (∀ a w, file_descends p false w (snd (Batch.script p a w))) ∧
  (∀ names w, file_descends p true w (snd (Regenerate.script p names w))) ∧
  (fs_fault p (MANIFEST_FILE p) = None ∨
   (∀ written, fs_point p (MANIFEST_FILE p) ≠ AtWrite written) →
   (∀ a w, file_sound p false w (snd (Batch.script p a w))) ∧
   (∀ names w, file_sound p true w (snd (Regenerate.script p names w)))).
Proof.
  split; [exact (Batch_script_descends p)|]. split; [exact (Regenerate_script_descends p)|].
  intros Hwhole. split.
  - intros a w. apply file_descends_sound; [done|]. apply Batch_script_descends.
  - intros names w. apply file_descends_sound; [done|]. apply Regenerate_script_descends.
Qed.

Lemma manifest_records_are_kept_witness :
  let p := Fixture.platform (Some (lit "key")) (Fixture.flaky [])
             (λ path, if bool_decide (path = lit "/srv/avatars-repo/manifest.json")
                      then Some (lit "EACCES: permission denied, open") else None) in
  let w := Fixture.with_catalog [lit "Plato"] in
  file_sound p false w (snd (Batch.script p Fixture.all_authors w)).
Proof.
  intros p w.
  destruct (manifest_records_are_kept p) as (_ & _ & Hsound).
  destruct Hsound as [Hbatch _]; [right; by intros written|].
  exact (Hbatch Fixture.all_authors w).
Defined.

(** An interrupted write: the disk fills up while the manifest is written,
    and the file is left empty; the next run cannot load it. *)
Example interrupted_manifest_write :
  let p := Fixture.failing_at (λ _, AtWrite 0)
             (Fixture.platform (Some (lit "key")) (Fixture.flaky [])
                (λ path, if bool_decide (path = lit "/srv/avatars-repo/manifest.json")
                         then Some (lit "ENOSPC: no space left on device, write")
                         else None)) in
  let w := Fixture.with_catalog [lit "Plato"] in
  let w1 := snd (Batch.script p Fixture.all_authors w) in
  manifest_json w1 = Some (inl (lit "Unexpected end of JSON input")) ∧
  fst (Batch.script p Fixture.all_authors w) = 0 ∧
  fst (Batch.script p Fixture.all_authors w1) = 1.
Proof. vm_compute. done. Qed.

(** ** Failures at startup *)

Section Startup.
Context (p : Platform).

#[global] Instance same_store_preorder : PreOrder same_store.
Proof. split; [exact same_store_refl|exact same_store_trans]. Qed.

Lemma same_store_log_to file stamped message :
  step_in same_store (log_to p file stamped message).
Proof. apply step_in_log_to; [apply _|..]; intros; by repeat split. Qed.

Lemma fails_quietly_bind {A B} (m : M World A) (k : A → M World B) w :
  step_in same_store m →
  (∀ x w1, same_store w w1 → fails_quietly (k x) w1) →
  fails_quietly (bind m k) w.
Proof.
  intros Hm Hk. unfold fails_quietly, bind.
  destruct (m w) as [[x|e|c] w1] eqn:E; destruct (Hm _ _ _ E) as [F N].
  - destruct (Hk x w1 F) as (e & w' & -> & F'). exists e, w'. split; [done|].
    by eapply same_store_trans.
  - by exists e, w1.
  - by destruct (N c).
Qed.

(** A log that cannot be written: the line is printed, then the append
    throws. *)
Lemma log_to_unwritable {B} file stamped message e (k : unit → M World B) w :
  fs_fault p file = Some e → fails_quietly (bind (log_to p file stamped message) k) w.
Proof.
  intros Hf. unfold fails_quietly, bind, log_to, bind, now, console_log, appendFileSync, modify.
  rewrite Hf. simpl. eexists _, _. split; [reflexivity|]. by repeat split.
Qed.

Lemma loadManifest_corrupt {B} e (k : Manifest → M World B) w :
  manifest_json w = Some (inl e) → fails_quietly (bind (loadManifest p) k) w.
Proof.
  intros Hm. unfold fails_quietly, bind, loadManifest, bind, gets. rewrite Hm. simpl.
  eexists _, _. split; [reflexivity|]. apply same_store_refl.
Qed.

Lemma Batch_main_corrupt a e w :
  key_missing p = false → manifest_json w = Some (inl e) →
  fails_quietly (Batch.main p a) w.
Proof.
  intros Hkey Hm. unfold Batch.main. rewrite Hkey.
  apply fails_quietly_bind.
  { unfold Batch.read_authors. repeat step. }
  intros authors w1 F1.
  do 5 (apply fails_quietly_bind; [apply same_store_log_to|]; intros [] ? ?).
  apply (loadManifest_corrupt e).
  repeat match goal with H : same_store _ _ |- _ => destruct H as (_ & ? & _) end.
  congruence.
Qed.

Lemma Regenerate_main_corrupt names e w :
  key_missing p = false → manifest_json w = Some (inl e) →
  fails_quietly (Regenerate.main p names) w.
Proof.
  intros Hkey Hm. unfold Regenerate.main. rewrite Hkey.
  do 2 (apply fails_quietly_bind; [apply same_store_log_to|]; intros [] ? ?).
  apply fails_quietly_bind.
  { apply Regenerate_log_numbered_frame; [apply _|]. intros message. apply same_store_log_to. }
  intros [] ? ?.
  apply fails_quietly_bind; [apply same_store_log_to|]; intros [] ? ?.
  apply (loadManifest_corrupt e).
  repeat match goal with H : same_store _ _ |- _ => destruct H as (_ & ? & _) end.
  congruence.
Qed.
End Startup.

(** X12. With a credential, a run that cannot start is fatal and touches
    nothing: when the catalog is missing or does not parse, when the run log
    cannot be written, or when the manifest file does not parse, the script
    ends with exit code [1] having sent no request and written no image, no
    manifest and no catalog.  (The targeted script has no catalog.) *)
Theorem startup_failures_are_fatal (p : Platform) :
  key_missing p = false →
  (∀ a w,
     (∀ authors, authors_json w ≠ Some (inr authors)) ∨
     is_Some (fs_fault p (Batch.LOG_FILE p)) ∨
     (∃ e, manifest_json w = Some (inl e)) →
     ∃ w', Batch.script p a w = (1, w') ∧ same_store w w') ∧
  (∀ names w,
     names ≠ [] →
     is_Some (fs_fault p (Regenerate.LOG_FILE p)) ∨ (∃ e, manifest_json w = Some (inl e)) →
     ∃ w', Regenerate.script p names w = (1, w') ∧ same_store w w').
Proof.
  intros Hkey. split.
  - intros a w Hfail.
    assert (Hq : fails_quietly (Batch.main p a) w).
    { destruct (authors_json w) as [[e|authors]|] eqn:Hauth.
      - unfold fails_quietly, Batch.main, Batch.read_authors, bind, gets.
        rewrite Hkey, Hauth. simpl. eexists _, _. split; [reflexivity|]. apply same_store_refl.
      - destruct Hfail as [Hc | [[e Hf] | [e Hm]]]; [by destruct (Hc authors)| |].
        + unfold Batch.main. rewrite Hkey.
          apply fails_quietly_bind; [unfold Batch.read_authors; repeat step|].
          intros ? ? ?. by apply (log_to_unwritable p _ _ _ e).
        + by apply (Batch_main_corrupt p a e).
      - unfold fails_quietly, Batch.main, Batch.read_authors, bind, gets.
        rewrite Hkey, Hauth. simpl. eexists _, _. split; [reflexivity|]. apply same_store_refl. }
    destruct Hq as (e & w' & E & F). unfold Batch.script. rewrite E.
    eexists. split; [reflexivity|]. destruct F as (? & ? & ? & ?). by repeat split.
  - intros names w Hnames Hfail.
    assert (Hq : fails_quietly (Regenerate.main p names) w).
    { destruct Hfail as [[e Hf] | [e Hm]].
      - unfold Regenerate.main. rewrite Hkey. by apply (log_to_unwritable p _ _ _ e).
      - by apply (Regenerate_main_corrupt p names e). }
    destruct Hq as (e & w' & E & F). unfold Regenerate.script.
    destruct names as [|name names]; [done|]. rewrite E.
    eexists. split; [reflexivity|]. destruct F as (? & ? & ? & ?). by repeat split.
Qed.

Lemma startup_failures_are_fatal_witness :
  let p := Fixture.platform (Some (lit "key")) (Fixture.flaky []) Fixture.no_fault in
  ∃ w', Batch.script p Fixture.all_authors Fixture.empty_world = (1, w') ∧
        same_store Fixture.empty_world w'.
Proof.
  intros p. destruct (startup_failures_are_fatal p eq_refl) as [Hbatch _].
  apply Hbatch. left. intros authors. discriminate.
Defined.

(** ** The file name *)

Section FileName.
Lemma basename_after_separator dir name :
  47%N ∉ name → basename (dir ++ 47%N :: name) = name.
Proof.
  intros Hname. induction dir as [|c dir IH]; cbn [app basename].
  - rewrite (bool_decide_eq_false_2 (47%N ∈ name)) by done.
    by rewrite (bool_decide_eq_true_2 (47%N = 47%N)).
  - rewrite (bool_decide_eq_true_2 (47%N ∈ dir ++ 47%N :: name)); [done|].
    apply elem_of_app. right. by left.
Qed.

Lemma basename_path_join dir name :
  47%N ∉ name → basename (path_join dir name) = name.
Proof.
  intros Hname. unfold path_join.
  destruct (last dir) as [c|] eqn:Hlast.
  - destruct (decide (c = 47%N)) as [->|Hc].
    + apply last_Some in Hlast as [d ->]. rewrite <- app_assoc. simpl.
      by apply basename_after_separator.
    + replace (match c with 47%N => dir ++ name | _ => dir ++ lit "/" ++ name end)
        with (dir ++ 47%N :: name).
      2: { destruct c as [|q]; [done|]. do 6 (destruct q as [q|q|]; try done). }
      by apply basename_after_separator.
  - by apply basename_after_separator.
Qed.

Lemma stem_plain p name c : c ∈ stem p name → is_lower_alnum c = true ∨ c = 45%N.
Proof.
  unfold stem. intros (x & -> & _)%list_elem_of_fmap.
  destruct (is_lower_alnum x) eqn:E; auto.
Qed.
End FileName.

(** X13. Whatever the name, the file name made of it is one plain path
    segment: its code units are [a-z], [0-9], [-] and the [.] of the
    extension, so it holds no separator, is neither [.] nor [..], and the
    target [path.join(AVATARS_DIR, filename)] lies directly in the avatars
    directory, its base name being the file name. *)
Theorem filename_is_one_segment (p : Platform) (name : jsstring) :
  let file := normalizeFilename p name in
  (∀ c, c ∈ file → is_lower_alnum c = true ∨ c = 45%N ∨ c = 46%N) ∧
  (47%N ∉ file) ∧ (92%N ∉ file) ∧
  (4 ≤ length file)%nat ∧ file ≠ lit "." ∧ file ≠ lit ".." ∧
  basename (path_join (AVATARS_DIR p) file) = file.
Proof.
  intros file. subst file. unfold normalizeFilename. fold (stem p name).
  assert (Hchars : ∀ c, c ∈ stem p name ++ lit ".png" →
                        is_lower_alnum c = true ∨ c = 45%N ∨ c = 46%N).
  { intros c [Hc|Hc]%elem_of_app.
    - destruct (stem_plain p name c Hc); auto.
    - repeat (apply elem_of_cons in Hc as [->|Hc]; [vm_compute; auto|]).
      by apply elem_of_nil in Hc. }
  assert (Hlen : (4 ≤ length (stem p name ++ lit ".png"))%nat).
  { rewrite length_app. simpl. lia. }
  assert (Hslash : 47%N ∉ stem p name ++ lit ".png").
  { intros Hin. by destruct (Hchars _ Hin) as [?|[?|?]]. }
  split; [done|]. split; [done|]. split.
  { intros Hin. by destruct (Hchars _ Hin) as [?|[?|?]]. }
  split; [done|]. split; [|split].
  - intros E. rewrite E in Hlen. simpl in Hlen. lia.
  - intros E. rewrite E in Hlen. simpl in Hlen. lia.
  - by apply basename_path_join.
Qed.

(** ** The summary *)

Section Writes.
Context (p : Platform) (file : jsstring) (stamped : bool).
Context (Hlog : fs_fault p file = None).

Lemma writes_ret : writes file [] (ret tt).
Proof. intros w. exists w, []. by rewrite app_nil_r. Qed.

Lemma writes_log message : writes file [message] (log_to p file stamped message).
Proof.
  intros w. eexists _, [(Date_now p (ticks w), message)].
  split; [by apply log_to_ok|]. by rewrite log_lines_logged.
Qed.

Lemma writes_bind (l1 l2 : list Msg) (m k : M World unit) :
  writes file l1 m → writes file l2 k → writes file (l1 ++ l2) (bind m (λ _ : unit, k)).
Proof.
  intros Hm Hk w. destruct (Hm w) as (w1 & n1 & E1 & L1 & M1).
  destruct (Hk w1) as (w2 & n2 & E2 & L2 & M2).
  exists w2, (n1 ++ n2). unfold bind. rewrite E1, E2, L2, L1, fmap_app, M1, M2, app_assoc.
  done.
Qed.

Lemma writes_when (c : bool) (l : list Msg) (m : M World unit) :
  writes file l m → writes file (if c then l else []) (when c m).
Proof. destruct c; [done|]. intros _. apply writes_ret. Qed.
End Writes.

Section Summaries.
Context (p : Platform).

Lemma Batch_log_errors_writes l :
  fs_fault p (Batch.LOG_FILE p) = None →
  writes (Batch.LOG_FILE p) ((λ entry, MErrorItem entry.1 entry.2) <$> l) (Batch.log_errors p l).
Proof.
  intros Hlog. induction l as [|[author error] rest IH]; simpl.
  - apply writes_ret.
  - apply (writes_bind _ [_]); [by apply writes_log|done].
Qed.

Lemma Regenerate_log_errors_writes l :
  fs_fault p (Regenerate.LOG_FILE p) = None →
  writes (Regenerate.LOG_FILE p) ((λ entry, MErrorItem entry.1 entry.2) <$> l)
    (Regenerate.log_errors p l).
Proof.
  intros Hlog. induction l as [|[author error] rest IH]; simpl.
  - apply writes_ret.
  - apply (writes_bind _ [_]); [by apply writes_log|done].
Qed.

(** The lines that end the run log of the catalog driver. *)
Lemma Batch_main_summary a w t w' :
  key_missing p = false → fs_fault p (Batch.LOG_FILE p) = None →
  Batch.main p a w = (Ok t, w') →
  ∃ earlier total,
    snd <$> log_lines (Batch.LOG_FILE p) w'
    = earlier
      ++ [MComplete; MSuccessCount (successCount t); MSkipped (skipCount t);
          MErrors (errorCount t); MTotalInManifest total]
      ++ (if errors t is [] then []
          else MErrorsHeader :: ((λ entry, MErrorItem entry.1 entry.2) <$> errors t))
      ++ [MCost (successCount t); MAllDone].
Proof.
  intros Hkey Hlog E. unfold Batch.main in E. rewrite Hkey in E.
  do 7 (apply bind_inv in E as (? & ? & _ & E)).
  unfold with_locals in E.
  match type of E with (let (_, _) := ?body ?s0 in _) = _ =>
    destruct (body s0) as [r s'] eqn:Ebody end.
  injection E as -> <-.
  apply bind_inv in Ebody as ([] & s0 & _ & Ebody).
  apply bind_inv in Ebody as ([] & s1 & _ & Ebody).
  apply bind_inv in Ebody as (t0 & s1' & [= <- <-] & Ebody).
  apply bind_inv in Ebody as (m0 & s1' & [= <- <-] & Ebody).
  apply bind_inv in Ebody as ([] & s2 & Esum & [= <- <-]).
  apply inW_inv in Esum as (w9 & Esum & ->). simpl.
  revert Esum.
  match goal with |- ?e _ = _ → _ =>
    assert (Hw : writes (Batch.LOG_FILE p)
      ([MComplete] ++ [MSuccessCount (successCount (tally s1))] ++
       [MSkipped (skipCount (tally s1))] ++ [MErrors (errorCount (tally s1))] ++
       [MTotalInManifest (total_avatars (manifest s1))] ++
       (if bool_decide (0 < length (errors (tally s1)))%nat
        then [MErrorsHeader] ++
             ((λ entry, MErrorItem entry.1 entry.2) <$> errors (tally s1))
        else []) ++
       [MCost (successCount (tally s1))] ++ [MAllDone]) e) end.
  { unfold Batch.log.
    repeat (apply writes_bind; [by apply writes_log|]).
    apply writes_bind; [|apply writes_bind; by apply writes_log].
    apply writes_when. apply writes_bind; [by apply writes_log|].
    by apply Batch_log_errors_writes. }
  intros Esum. destruct (Hw (world s1)) as (w10 & new & E10 & L10 & M10).
  rewrite Esum in E10. injection E10 as <-.
  exists (snd <$> log_lines (Batch.LOG_FILE p) (world s1)), (total_avatars (manifest s1)).
  rewrite L10, fmap_app, M10. f_equal. simpl. do 5 f_equal.
  destruct (errors (tally s1)); simpl; done.
Qed.

(** The lines that end the run log of the targeted driver. *)
Lemma Regenerate_main_summary names w t w' :
  key_missing p = false → fs_fault p (Regenerate.LOG_FILE p) = None →
  Regenerate.main p names w = (Ok t, w') →
  ∃ earlier,
    snd <$> log_lines (Regenerate.LOG_FILE p) w'
    = earlier
      ++ [MRegenComplete; MSuccessCount (successCount t); MErrors (errorCount t)]
      ++ (if errors t is [] then []
          else MErrorsHeader :: ((λ entry, MErrorItem entry.1 entry.2) <$> errors t))
      ++ [MCost (successCount t); MDone; MNextSteps; MStep1 (AVATARS_DIR p); MStep2; MStep3].
Proof.
  intros Hkey Hlog E. unfold Regenerate.main in E. rewrite Hkey in E.
  do 5 (apply bind_inv in E as (? & ? & _ & E)).
  unfold with_locals in E.
  match type of E with (let (_, _) := ?body ?s0 in _) = _ =>
    destruct (body s0) as [r s'] eqn:Ebody end.
  injection E as -> <-.
  apply bind_inv in Ebody as ([] & s1 & _ & Ebody).
  apply bind_inv in Ebody as (t0 & s1' & [= <- <-] & Ebody).
  apply bind_inv in Ebody as ([] & s2 & Esum & [= <- <-]).
  apply inW_inv in Esum as (w9 & Esum & ->). simpl.
  revert Esum.
  match goal with |- ?e _ = _ → _ =>
    assert (Hw : writes (Regenerate.LOG_FILE p)
      ([MRegenComplete] ++ [MSuccessCount (successCount (tally s1))] ++
       [MErrors (errorCount (tally s1))] ++
       (if bool_decide (0 < length (errors (tally s1)))%nat
        then [MErrorsHeader] ++
             ((λ entry, MErrorItem entry.1 entry.2) <$> errors (tally s1))
        else []) ++
       [MCost (successCount (tally s1))] ++ [MDone] ++ [MNextSteps] ++
       [MStep1 (AVATARS_DIR p)] ++ [MStep2] ++ [MStep3]) e) end.
  { unfold Regenerate.log.
    repeat (apply writes_bind; [by apply writes_log|]).
    apply writes_bind.
    - apply writes_when. apply writes_bind; [by apply writes_log|].
      by apply Regenerate_log_errors_writes.
    - repeat (apply writes_bind; [by apply writes_log|]). by apply writes_log. }
  intros Esum. destruct (Hw (world s1)) as (w10 & new & E10 & L10 & M10).
  rewrite Esum in E10. injection E10 as <-.
  exists (snd <$> log_lines (Regenerate.LOG_FILE p) (world s1)).
  rewrite L10, fmap_app, M10. f_equal. simpl. do 3 f_equal.
  destruct (errors (tally s1)); simpl; done.
Qed.
End Summaries.

(** X14. A run that returns ends its log with the summary of what it
    counted: the success, skip (catalog script) and error counters of the
    run, then, when there are errors, a header and one line per recorded
    error, in the order they occurred, with the item and the message, then
    the cost line computed from the success counter and the closing lines. *)
Theorem summary_reports_the_tally (p : Platform) :
  key_missing p = false →
  (fs_fault p (Batch.LOG_FILE p) = None →
   ∀ a w t w',
     Batch.main p a w = (Ok t, w') →
     ∃ earlier total,
       snd <$> log_lines (Batch.LOG_FILE p) w'
       = earlier
         ++ [MComplete; MSuccessCount (successCount t); MSkipped (skipCount t);
             MErrors (errorCount t); MTotalInManifest total]
         ++ (if errors t is [] then []
             else MErrorsHeader :: ((λ entry, MErrorItem entry.1 entry.2) <$> errors t))
         ++ [MCost (successCount t); MAllDone]) ∧
  (fs_fault p (Regenerate.LOG_FILE p) = None →
   ∀ names w t w',
     Regenerate.main p names w = (Ok t, w') →
     ∃ earlier,
       snd <$> log_lines (Regenerate.LOG_FILE p) w'
       = earlier
         ++ [MRegenComplete; MSuccessCount (successCount t); MErrors (errorCount t)]
         ++ (if errors t is [] then []
             else MErrorsHeader :: ((λ entry, MErrorItem entry.1 entry.2) <$> errors t))
         ++ [MCost (successCount t); MDone; MNextSteps; MStep1 (AVATARS_DIR p);
             MStep2; MStep3]).
Proof.
  intros Hkey. split; intros Hlog.
  - intros a w t w'. by apply Batch_main_summary.
  - intros names w t w'. by apply Regenerate_main_summary.
Qed.

Lemma summary_reports_the_tally_witness :
  let p := Fixture.platform (Some (lit "key")) (Fixture.flaky [1%nat]) Fixture.no_fault in
  let w := Fixture.with_catalog [lit "Plato"; lit "Kant"; lit "Hume"] in
  ∃ earlier total,
    snd <$> log_lines (Batch.LOG_FILE p) (snd (Batch.main p Fixture.all_authors w))
    = earlier
      ++ [MComplete; MSuccessCount 2; MSkipped 0; MErrors 1; MTotalInManifest total]
      ++ [MErrorsHeader;
          MErrorItem (lit "Kant") (lit "Generation failed: API error: 500 - Internal error")]
      ++ [MCost 2; MAllDone].
Proof.
  intros p w. destruct (summary_reports_the_tally p eq_refl) as [Hbatch _].
  exact (Hbatch eq_refl Fixture.all_authors w
           {| successCount := 2; skipCount := 0; errorCount := 1;
              errors := [(lit "Kant",
                          lit "Generation failed: API error: 500 - Internal error")] |}
           (snd (Batch.main p Fixture.all_authors w)) ltac:(vm_compute; reflexivity)).
Defined.
